(** * draco.learn.data_util: the parallel feature-vectorisation pipeline

    A shallow embedding of [src/draco/learn/data_util.py].

    - Python exceptions are the [Raise] results of the type [res].
    - The manager dictionary [processed_specs] shared by the pool's processes
      is a finite map from keys to feature vectors; a worker talks to it through the three
      operations the code performs on it ([in], item assignment, item
      lookup), so that executions of several workers can be interleaved.
    - The class attribute [Encoding.encoding_cnt] is process-local state and
      is threaded explicitly through the worker.
    - [draco.spec] and [draco.learn.helper] are imported by the module; what
      the module uses from them is collected in the class [Draco]. *)

From stdpp Require Import gmap strings list sorting pretty.
From Stdlib Require Import ZArith Lia Ascii.

Set Default Proof Using "Type*".

(** ** Exceptions and results *)

Inductive exn : Type :=
| ValueError
| TypeError
| AttributeError
| KeyError
| AssertionError
| OtherError (name : string).

Inductive res (A : Type) : Type :=
| Ok (a : A)
| Raise (e : exn).
Arguments Ok {A} a.
Arguments Raise {A} e.

Definition is_Ok {A} (r : res A) : Prop := ∃ a, r = Ok a.
Definition is_Raise {A} (r : res A) : Prop := ∃ e, r = Raise e.

Definition res_bind {A B} (r : res A) (f : A → res B) : res B :=
  match r with
  | Ok a => f a
  | Raise e => Raise e
  end.

(** ** The partitioner: [splits], [processes] and [np.array_split] *)

Module Partitioner.

(** [math.ceil(n / 10)]: the true division is exact on the list lengths that
    fit in memory, so the ceiling is the integer one. *)
Definition ceil_div (n d : nat) : nat := (n + (d - 1)) / d.

(** [splits = min([cpu_count() * 20, math.ceil(len(data) / 10)])] *)
Definition splits (cpu_count N : nat) : nat :=
  Nat.min (cpu_count * 20) (ceil_div N 10).

(** [processes = min(cpu_count(), splits)] *)
Definition processes (cpu_count N : nat) : nat :=
  Nat.min cpu_count (splits cpu_count N).

(** [numpy.cumsum] on a list of naturals. *)
Fixpoint cumsum_from (acc : nat) (l : list nat) : list nat :=
  match l with
  | [] => []
  | x :: r => (acc + x) :: cumsum_from (acc + x) r
  end.
Definition cumsum (l : list nat) : list nat := cumsum_from 0 l.

(** [sary[st:end]] *)
Definition slice {A} (ary : list A) (st en : nat) : list A :=
  take (en - st) (drop st ary).

(** [numpy.array_split(ary, Nsections)] along axis 0, for an integer number
    of sections: the first [Ntotal mod Nsections] sections have one more
    row than the others; a number of sections that is not positive is a
    [ValueError]. *)
Definition array_split {A} (ary : list A) (Nsections : nat) : res (list (list A)) :=
  let Ntotal := length ary in
  if Nsections <=? 0 then Raise ValueError
  else
    let Neach_section := Ntotal / Nsections in
    let extras := Ntotal mod Nsections in
    let section_sizes :=
      0 :: replicate extras (Neach_section + 1)
        ++ replicate (Nsections - extras) Neach_section in
    let div_points := cumsum section_sizes in
    Ok ((λ i, slice ary (nth i div_points 0) (nth (i + 1) div_points 0))
          <$> seq 0 Nsections).

End Partitioner.

(** ** Values handled by the module *)

(** The fields of an example are loosely typed: a [Data] schema or [None] for
    [data], a string, [None] or (for unlabeled examples) a [Data] object for
    [task], a parsed JSON object for the two payloads. *)
Inductive pyval (Data Json : Type) : Type :=
| PyNone
| PyStr (s : string)
| PyData (d : Data)
| PyJson (j : Json).
Arguments PyNone {Data Json}.
Arguments PyStr {Data Json} s.
Arguments PyData {Data Json} d.
Arguments PyJson {Data Json} j.

(** [draco.spec.Task(data, query, task)] *)
Record Task (Data Json Query : Type) : Type := mkTask {
  task_data : pyval Data Json;
  task_query : Query;
  task_task : pyval Data Json
}.
Arguments mkTask {Data Json Query} _ _ _.
Arguments task_data {Data Json Query} _.
Arguments task_query {Data Json Query} _.
Arguments task_task {Data Json Query} _.

(** What [data_util] imports from [draco.spec] ([Data], [Query], [Task],
    [Encoding]) and [draco.learn.helper] ([count_violations],
    [current_weights]). [Query.from_vegalite] numbers the encodings it
    builds with the class counter [Encoding.encoding_cnt]: it reads the
    counter and leaves it advanced. *)
Class Draco : Type := {
  Data : Type;
  Json : Type;
  Query : Type;
  Json_eq_dec :: EqDecision Json;
  (** [Query.from_vegalite(payload)], run with [Encoding.encoding_cnt = cnt] *)
  Query_from_vegalite : pyval Data Json → nat → res (Query * nat);
  (** [task.to_asp()] *)
  Task_to_asp : Task Data Json Query → res string;
  (** [count_violations(task)] *)
  count_violations : Task Data Json Query → res (gmap string Z);
  (** [current_weights().keys()] *)
  current_weights_keys : list string;
  (** [spec['data']['url']] of a specification of the unlabeled corpus *)
  Json_data_url : Json → res string;
  (** [os.path.join(data_dir, os.path.basename(url))] *)
  data_path : string → string;
  (** [Data.from_json(path)] *)
  Data_from_json : string → res Data;
  (** [d.url = url] *)
  Data_set_url : Data → string → Data
}.

(** ** Strings: slicing and order *)

(** [s[:-n]] *)
Definition drop_suffix (n : nat) (s : string) : string :=
  String.substring 0 (String.length s - n) s.

(** Order of Python strings (by code point, here by byte). *)
Definition str_le (a b : string) : Prop := String.leb a b = true.

#[global] Instance str_le_dec a b : Decision (str_le a b).
Proof. unfold str_le. apply _. Defined.

#[global] Instance str_le_total : Total str_le.
Proof. intros a b. apply String.leb_total. Qed.

#[global] Instance str_le_antisym : AntiSymm (=) str_le.
Proof. intros a b. apply String.leb_antisym. Qed.

(** ** Programs of a pool worker

    A worker reaches the shared dictionary only through [key in d],
    [d[key] = v] and [d[key]]; each is one call to the manager process and is
    atomic. [CountViolations] is the call of the external solver. *)
Section Prog.
Context `{Draco}.

Inductive prog (A : Type) : Type :=
| Ret (a : A)
| Throw (e : exn)
| Contains (key : string) (k : bool → prog A)
| SetItem (key : string) (v : gmap string Z) (k : prog A)
| GetItem (key : string) (k : gmap string Z → prog A)
| CountViolations (t : Task Data Json Query) (k : gmap string Z → prog A).

Fixpoint bind {A B} (p : prog A) (f : A → prog B) : prog B :=
  match p with
  | Ret _ a => f a
  | Throw _ e => Throw B e
  | Contains _ key k => Contains B key (λ b, bind (k b) f)
  | SetItem _ key v k => SetItem B key v (bind k f)
  | GetItem _ key k => GetItem B key (λ v, bind (k v) f)
  | CountViolations _ t k => CountViolations B t (λ v, bind (k v) f)
  end.

Definition lift {A} (r : res A) : prog A :=
  match r with
  | Ok a => Ret A a
  | Raise e => Throw A e
  end.
End Prog.

Arguments Ret {_ A} a.
Arguments Throw {_ A} e.
Arguments Contains {_ A} key k.
Arguments SetItem {_ A} key v k.
Arguments GetItem {_ A} key k.
Arguments CountViolations {_ A} t k.

Notation "x <- p ;; q" := (bind p (λ x, q))
  (at level 100, p at next level, right associativity, only parsing).

(** ** The data model of [data_util]

    The types depend on the types of schemas, payloads and queries only. *)

Module Model.
Section DataModel.
Context {Data Json Query : Type}.

(** [PosNegExample = namedtuple('PosNeg', ['pair_id', 'data', 'task',
    'source', 'negative', 'positive'])] *)
Record PosNegExample : Type := mkPosNeg {
  pair_id : string;
  data : pyval Data Json;
  task : pyval Data Json;
  source : pyval Data Json;
  negative : pyval Data Json;
  positive : pyval Data Json
}.

(** [UnlabeledExample = namedtuple('Unlabeled', ['pair_id', 'data', 'task',
    'source', 'left', 'right'])] *)
Record UnlabeledExample : Type := mkUnlabeled {
  u_pair_id : string;
  u_data : pyval Data Json;
  u_task : pyval Data Json;
  u_source : pyval Data Json;
  left : pyval Data Json;
  right : pyval Data Json
}.

(** [Union[PosNegExample, UnlabeledExample]] *)
Inductive Example : Type :=
| ExPosNeg (e : PosNegExample)
| ExUnlabeled (e : UnlabeledExample).

(** A row of the two-dimensional object array that numpy builds from a
    list of six-field tuples: the six cells in positional order, without
    the field names. *)
Definition ndarray : Type :=
  string * pyval Data Json * pyval Data Json * pyval Data Json
  * pyval Data Json * pyval Data Json.

(** What a worker finds in its partition:
    [Union[PosNegExample, UnlabeledExample, np.ndarray]]. *)
Inductive item : Type :=
| ItNdarray (row : ndarray)
| ItExample (e : Example).

(** The conversion of one tuple by [np.array_split] (through
    [numpy.swapaxes]). *)
Definition to_ndarray (e : Example) : ndarray :=
  match e with
  | ExPosNeg e =>
      (pair_id e, data e, task e, source e, negative e, positive e)
  | ExUnlabeled e =>
      (u_pair_id e, u_data e, u_task e, u_source e, left e, right e)
  end.

(** [PosNegExample] applied to the unpacked row: the cells fill the six
    fields by position. *)
Definition PosNegExample_of_ndarray (row : ndarray) : PosNegExample :=
  let '(a, b, c, d, e, f) := row in mkPosNeg a b c d e f.

Definition example_pair_id (e : Example) : string :=
  match e with
  | ExPosNeg e => pair_id e
  | ExUnlabeled e => u_pair_id e
  end.

(** A cell of a data frame: a missing value, a count, or a Python object. *)
Inductive cell : Type :=
| NaN
| CInt (n : Z)
| CObj (v : pyval Data Json).

(** A data frame with two-level columns [(category, feature)] and an index
    of strings; a row is its index label and its cells, column by column. *)
Record DataFrame : Type := mkDataFrame {
  df_columns : list (string * string);
  df_rows : list (string * list cell)
}.

Definition df_index (df : DataFrame) : list string := fst <$> df_rows df.

(** [len(df)] *)
Definition df_len (df : DataFrame) : nat := length (df_rows df).

(** [pd.DataFrame(specs, columns=columns, index=[label])] for a dictionary
    of scalars keyed by column: one row; a column without a key in [specs]
    holds a missing value, a key that is no column is dropped. *)
Definition pd_DataFrame (specs : gmap (string * string) cell)
    (columns : list (string * string)) (label : string) : DataFrame :=
  mkDataFrame columns [(label, (λ c, default NaN (specs !! c)) <$> columns)].

(** [pd.concat(dfs)] of frames that carry the same columns (all the frames
    built here do, see [frames_columns]): the rows one after the other;
    with nothing to concatenate, a [ValueError]. *)
Definition pd_concat (dfs : list DataFrame) : res DataFrame :=
  match dfs with
  | [] => Raise ValueError
  | df :: _ => Ok (mkDataFrame (df_columns df) (concat (df_rows <$> dfs)))
  end.

Definition row_le (r1 r2 : string * list cell) : Prop := str_le r1.1 r2.1.

#[export] Instance row_le_dec r1 r2 : Decision (row_le r1 r2).
Proof. unfold row_le. apply _. Defined.

#[export] Instance row_le_total : Total row_le.
Proof. intros r1 r2. apply str_le_total. Qed.

(** [df.sort_index()]: the rows in ascending order of their labels. With
    labels that are all different, as the identifiers of the examples of a
    run are, this is the order pandas returns. Among rows that share a
    label the order of pandas is that of its sort routine, and the order of
    [merge_sort], which is not a stable sort, need not be that one: for
    such rows the model fixes an order without claiming it to be the one
    pandas returns. *)
Definition sort_index (df : DataFrame) : DataFrame :=
  mkDataFrame (df_columns df) (merge_sort row_le (df_rows df)).

(** [data.fillna(0, inplace=True)]: missing values, [None] included, become 0 *)
Definition fillna_cell (c : cell) : cell :=
  match c with
  | NaN => CInt 0
  | CObj PyNone => CInt 0
  | c => c
  end.

Definition fillna (df : DataFrame) : DataFrame :=
  mkDataFrame (df_columns df)
    ((λ r : string * list cell, (r.1, fillna_cell <$> r.2)) <$> df_rows df).

(** The shared dictionary, with two ghost fields for the statements: how
    often a key was looked for and not found, and the tasks on which the
    solver was called. *)
Record store : Type := mkStore {
  processed_specs : gmap string (gmap string Z);
  cache_misses : nat;
  solver_calls : list (Task Data Json Query)
}.

(** The local state of [load_unlabeled_specs]. *)
Record loader_state : Type := mkLoader {
  data_cache : gmap string Data;
  raw_data : list UnlabeledExample;
  cnt : nat
}.
End DataModel.

Arguments PosNegExample : clear implicits.
Arguments UnlabeledExample : clear implicits.
Arguments Example : clear implicits.
Arguments ndarray : clear implicits.
Arguments item : clear implicits.
Arguments cell : clear implicits.
Arguments DataFrame : clear implicits.
Arguments store : clear implicits.
Arguments loader_state : clear implicits.
End Model.
Export Model.

Abbreviation PosNegExample := (Model.PosNegExample Data Json).
Abbreviation UnlabeledExample := (Model.UnlabeledExample Data Json).
Abbreviation Example := (Model.Example Data Json).
Abbreviation ndarray := (Model.ndarray Data Json).
Abbreviation item := (Model.item Data Json).
Abbreviation cell := (Model.cell Data Json).
Abbreviation DataFrame := (Model.DataFrame Data Json).
Abbreviation store := (Model.store Data Json Query).
Abbreviation loader_state := (Model.loader_state Data Json).

(** ** The columns of the table *)

Section Vocabulary.
Context `{Draco}.

(** [get_feature_names] *)
Definition get_feature_names : list string :=
  merge_sort str_le (drop_suffix (String.length "_weight") <$> current_weights_keys).

(** [pd.MultiIndex.from_product([cats, feats])] *)
Definition from_product (cats feats : list string) : list (string * string) :=
  c ← cats; (λ f, (c, f)) <$> feats.

(** [get_nested_index] *)
Definition get_nested_index : list (string * string) :=
  let features := get_feature_names in
  let index := from_product ["negative"; "positive"] features in
  index ++ [("source", ""); ("task", "")].
End Vocabulary.


(** ** The partition worker *)

Section Worker.
Context `{Draco}.

(** [count_violations_memoized(processed_specs, task)] *)
Definition count_violations_memoized (task : Task Data Json Query)
    : prog (gmap string Z) :=
  key <- lift (Task_to_asp task) ;;
  Contains key (λ present,
    _ <- (if negb present
          then CountViolations task (λ v, SetItem key v (Ret tt))
          else Ret tt) ;;
    GetItem key Ret).

(** The attribute accesses [example.data], [example.negative], ... of the
    loop body, after [if isinstance(example, np.ndarray): example =
    PosNegExample] on the unpacked row. An [UnlabeledExample] has no
    attribute [negative]. *)
Definition resolve (example : item) : res PosNegExample :=
  match example with
  | ItNdarray row => Ok (PosNegExample_of_ndarray row)
  | ItExample (ExPosNeg e) => Ok e
  | ItExample (ExUnlabeled _) => Raise AttributeError
  end.

(** The dictionary [specs] of the loop body. *)
Definition row_specs (example : PosNegExample)
    (neg_feature_vec pos_feature_vec : gmap string Z)
    : gmap (string * string) cell :=
  let specs : gmap (string * string) cell :=
    kmap (pair "negative") (CInt <$> neg_feature_vec) in
  let specs := kmap (pair "positive") (CInt <$> pos_feature_vec) ∪ specs in
  let specs := <[("source", "") := CObj (source example)]> specs in
  let specs := <[("task", "") := CObj (task example)]> specs in
  specs.

(** One iteration of the loop of [pair_partition_to_vec], in a process
    whose [Encoding.encoding_cnt] is [encoding_cnt] on entry; the frame of
    the example and the counter on exit. *)
Definition vectorize_example (columns : list (string * string))
    (example : item) (encoding_cnt : nat) : prog (DataFrame * nat) :=
  let encoding_cnt := 0 in
  example <- lift (resolve example) ;;
  qn <- lift (Query_from_vegalite (negative example) encoding_cnt) ;;
  let encoding_cnt := qn.2 in
  neg_feature_vec <-
    count_violations_memoized (mkTask (data example) qn.1 (task example)) ;;
  qp <- lift (Query_from_vegalite (positive example) encoding_cnt) ;;
  let encoding_cnt := qp.2 in
  pos_feature_vec <-
    count_violations_memoized (mkTask (data example) qp.1 (task example)) ;;
  let specs := row_specs example neg_feature_vec pos_feature_vec in
  Ret (pd_DataFrame specs columns (pair_id example), encoding_cnt).

Fixpoint partition_loop (columns : list (string * string))
    (partiton_data : list item) (dfs : list DataFrame) (encoding_cnt : nat)
    : prog (list DataFrame * nat) :=
  match partiton_data with
  | [] => Ret (dfs, encoding_cnt)
  | example :: rest =>
      r <- vectorize_example columns example encoding_cnt ;;
      partition_loop columns rest (dfs ++ [r.1]) r.2
  end.

(** [pair_partition_to_vec((processed_specs, partiton_data))] *)
Definition pair_partition_to_vec (partiton_data : list item)
    (encoding_cnt : nat) : prog (DataFrame * nat) :=
  let columns := get_nested_index in
  r <- partition_loop columns partiton_data [] encoding_cnt ;;
  df <- lift (pd_concat r.1) ;;
  Ret (df, r.2).

(** *** Running a worker alone against the shared dictionary *)

Definition empty_store : store := mkStore ∅ 0 [].

Fixpoint exec {A} (p : prog A) (σ : store) : res A * store :=
  match p with
  | Ret a => (Ok a, σ)
  | Throw e => (Raise e, σ)
  | Contains key k =>
      let present := bool_decide (is_Some (processed_specs σ !! key)) in
      exec (k present)
        (mkStore (processed_specs σ)
           (if present then cache_misses σ else S (cache_misses σ))
           (solver_calls σ))
  | SetItem key v k =>
      exec k (mkStore (<[key := v]> (processed_specs σ)) (cache_misses σ)
                (solver_calls σ))
  | GetItem key k =>
      match processed_specs σ !! key with
      | Some v => exec (k v) σ
      | None => (Raise KeyError, σ)
      end
  | CountViolations t k =>
      let σ' := mkStore (processed_specs σ) (cache_misses σ)
                  (solver_calls σ ++ [t]) in
      match count_violations t with
      | Ok v => exec (k v) σ'
      | Raise e => (Raise e, σ')
      end
  end.

(** *** [run_in_parallel], one task after the other *)

(** [pool.map(func, tasks)] when the tasks run to completion one at a time,
    in order, in one process. The first exception ends the map. *)
Fixpoint pool_map (func : list item → nat → prog (DataFrame * nat))
    (tasks : list (list item)) (encoding_cnt : nat) (σ : store)
    : res (list DataFrame) * store :=
  match tasks with
  | [] => (Ok [], σ)
  | t :: rest =>
      match exec (func t encoding_cnt) σ with
      | (Ok r, σ') =>
          match pool_map func rest r.2 σ' with
          | (Ok dfs, σ'') => (Ok (r.1 :: dfs), σ'')
          | (Raise e, σ'') => (Raise e, σ'')
          end
      | (Raise e, σ') => (Raise e, σ')
      end
  end.

(** [np.array_split(data, splits)] paired with the shared dictionary:
    the tasks handed to the pool. *)
Definition df_split (data : list Example) (splits : nat) : res (list (list item)) :=
  res_bind (Partitioner.array_split (A := ndarray) (to_ndarray <$> data) splits)
    (λ parts, Ok ((λ part : list ndarray, ItNdarray <$> part) <$> parts)).

(** [run_in_parallel(func, data)] on a machine with [cpu_count] processors;
    [encoding_cnt] is the counter of the worker process on entry. The
    result and the final state of the shared dictionary. *)
Definition run_in_parallel_store
    (func : list item → nat → prog (DataFrame * nat))
    (cpu_count : nat) (data : list Example) (encoding_cnt : nat)
    : res DataFrame * store :=
  let splits := Partitioner.splits cpu_count (length data) in
  match df_split data splits with
  | Raise e => (Raise e, empty_store)
  | Ok tasks =>
      match pool_map func tasks encoding_cnt empty_store with
      | (Raise e, σ) => (Raise e, σ)
      | (Ok dfs, σ) =>
          match pd_concat dfs with
          | Raise e => (Raise e, σ)
          | Ok df => (Ok (sort_index df), σ)
          end
      end
  end.

Definition run_in_parallel func cpu_count data encoding_cnt : res DataFrame :=
  (run_in_parallel_store func cpu_count data encoding_cnt).1.

(** [pairs_to_vec(specs)] *)
Definition pairs_to_vec (cpu_count : nat) (specs : list Example)
    (encoding_cnt : nat) : res DataFrame :=
  run_in_parallel pair_partition_to_vec cpu_count specs encoding_cnt.
End Worker.

(** ** Loading the unlabeled corpus and the top-level entry points *)

Section Loader.
Context `{Draco}.

(** [itertools.combinations(l, 2)] *)
Fixpoint combinations2 {A} (l : list A) : list (A * A) :=
  match l with
  | [] => []
  | x :: r => ((λ y, (x, y)) <$> r) ++ combinations2 r
  end.

(** [acquire_data(url)] *)
Definition acquire_data (url : string) (data_cache : gmap string Data)
    : res (Data * gmap string Data) :=
  match data_cache !! url with
  | Some d => Ok (d, data_cache)
  | None =>
      res_bind (Data_from_json (data_path url)) (λ d,
        let d := Data_set_url d url in
        Ok (d, <[url := d]> data_cache))
  end.

(** The body of the innermost loop, for one pair [(left, right)]. The
    message of the first assertion names a variable [i] that the function
    never binds, so a failure of that assertion surfaces as a [NameError]. *)
Definition load_pair (st : loader_state) (pair : Json * Json) : res loader_state :=
  let '(left, right) := pair in
  if decide (left = right) then Raise (OtherError "NameError")
  else
    res_bind (Json_data_url left) (λ url_left,
    res_bind (Json_data_url right) (λ url_right,
    if decide (url_left = url_right) then
      let url := url_left in
      res_bind (acquire_data url (data_cache st)) (λ r,
        Ok (mkLoader r.2
              (raw_data st ++
                 [mkUnlabeled ("halden-" +:+ pretty (cnt st)) PyNone (PyData r.1)
                    (PyStr "halden") (PyJson left) (PyJson right)])
              (cnt st + 1)))
    else Raise AssertionError)).

Fixpoint load_pairs (st : loader_state) (pairs : list (Json * Json))
    : res loader_state :=
  match pairs with
  | [] => Ok st
  | p :: rest => res_bind (load_pair st p) (λ st', load_pairs st' rest)
  end.

(** The pairs visited by the nested loops, in order. A file is the parsed
    JSON object: for each [num_channel] key, a list of groups of
    specifications. *)
Definition all_pairs (files : list (list (string * list (list Json))))
    : list (Json * Json) :=
  content ← files; entry ← content; spec_list ← entry.2; combinations2 spec_list.

Definition load_unlabeled_specs_state
    (files : list (list (string * list (list Json)))) : res loader_state :=
  load_pairs (mkLoader ∅ [] 0) (all_pairs files).

(** [load_unlabeled_specs()], on the contents of the files of the corpus *)
Definition load_unlabeled_specs
    (files : list (list (string * list (list Json))))
    : res (list UnlabeledExample) :=
  res_bind (load_unlabeled_specs_state files) (λ st, Ok (raw_data st)).

(** [_get_pos_neg_data()], on the table read from the pickle file *)
Definition _get_pos_neg_data (pickled : DataFrame) : DataFrame :=
  fillna pickled.

(** [get_labeled_data()], on what [load_neg_pos_specs] and the pickle file
    deliver *)
Definition get_labeled_data (loaded : list PosNegExample) (pickled : DataFrame)
    : res (list PosNegExample * DataFrame) :=
  let specs := loaded in
  let vecs := _get_pos_neg_data pickled in
  if decide (length specs = df_len vecs) then Ok (specs, vecs)
  else Raise AssertionError.

(** [get_unlabeled_data()] *)
Definition get_unlabeled_data (cpu_count : nat)
    (files : list (list (string * list (list Json)))) (encoding_cnt : nat)
    : res (list UnlabeledExample * DataFrame) :=
  res_bind (load_unlabeled_specs files) (λ specs,
  res_bind (pairs_to_vec cpu_count (ExUnlabeled <$> specs) encoding_cnt) (λ vecs,
  if decide (length specs = df_len vecs) then Ok (specs, vecs)
  else Raise AssertionError)).

(** A sum that numpy accumulates in an [int64]: it wraps around into
    [-2^63 .. 2^63 - 1]. *)
Definition int64_wrap (z : Z) : Z := ((z + 2 ^ 63) `mod` 2 ^ 64 - 2 ^ 63)%Z.

(** [hash_pandas_object(df).sum()], the number written to the log:
    [hash_pandas_object] gives one 64-bit hash per row, and [sum] adds them
    up in a signed 64-bit integer, so the number logged can be negative. *)
Definition dataframe_hash (hash_row : string * list cell → Z) (df : DataFrame) : Z :=
  int64_wrap (foldr Z.add 0%Z (hash_row <$> df_rows df)).
End Loader.

(** ** The process pool: tasks of several workers interleaved *)

Section Pool.
Context `{Draco}.

(** A task of [pool.map]: not yet picked up, running in some process, or
    finished with a frame or an exception. *)
Inductive job : Type :=
| Pending (t : list item)
| Running (p : prog (DataFrame * nat))
| Done (r : res DataFrame).

Definition is_running (j : job) : bool :=
  match j with Running _ => true | _ => false end.

Definition running (jobs : list job) : nat := length (filter is_running jobs).

(** A step of the pool with [processes] worker processes on the shared
    dictionary [d]: a free process picks up a pending task (its own
    [Encoding.encoding_cnt] is whatever its earlier tasks left), or a
    running task performs its next operation. *)
Inductive pool_step (func : list item → nat → prog (DataFrame * nat))
    (processes : nat)
    : gmap string (gmap string Z) * list job
      → gmap string (gmap string Z) * list job → Prop :=
| step_start d jobs i t encoding_cnt :
    jobs !! i = Some (Pending t) →
    running jobs < processes →
    pool_step func processes (d, jobs) (d, <[i := Running (func t encoding_cnt)]> jobs)
| step_return d jobs i a :
    jobs !! i = Some (Running (Ret a)) →
    pool_step func processes (d, jobs) (d, <[i := Done (Ok a.1)]> jobs)
| step_throw d jobs i e :
    jobs !! i = Some (Running (Throw e)) →
    pool_step func processes (d, jobs) (d, <[i := Done (Raise e)]> jobs)
| step_contains d jobs i key k :
    jobs !! i = Some (Running (Contains key k)) →
    pool_step func processes (d, jobs)
      (d, <[i := Running (k (bool_decide (is_Some (d !! key))))]> jobs)
| step_setitem d jobs i key v k :
    jobs !! i = Some (Running (SetItem key v k)) →
    pool_step func processes (d, jobs) (<[key := v]> d, <[i := Running k]> jobs)
| step_getitem d jobs i key k v :
    jobs !! i = Some (Running (GetItem key k)) →
    d !! key = Some v →
    pool_step func processes (d, jobs) (d, <[i := Running (k v)]> jobs)
| step_getitem_missing d jobs i key k :
    jobs !! i = Some (Running (GetItem key k)) →
    d !! key = None →
    pool_step func processes (d, jobs) (d, <[i := Done (Raise KeyError)]> jobs)
| step_count d jobs i t k v :
    jobs !! i = Some (Running (CountViolations t k)) →
    count_violations t = Ok v →
    pool_step func processes (d, jobs) (d, <[i := Running (k v)]> jobs)
| step_count_raise d jobs i t k e :
    jobs !! i = Some (Running (CountViolations t k)) →
    count_violations t = Raise e →
    pool_step func processes (d, jobs) (d, <[i := Done (Raise e)]> jobs).

(** What [pool.map] hands back: the frames in the order of the tasks once
    every task has returned one, or the exception of a task that raised. *)
Inductive pool_result : list job → res (list DataFrame) → Prop :=
| pool_all_done dfs :
    pool_result ((λ df, Done (Ok df)) <$> dfs) (Ok dfs)
| pool_raised jobs e :
    Done (Raise e) ∈ jobs →
    pool_result jobs (Raise e).

(** [pool.map(func, tasks)] on a fresh shared dictionary, under some
    schedule. *)
Definition pool_map_sched (func : list item → nat → prog (DataFrame * nat))
    (processes : nat) (tasks : list (list item)) (r : res (list DataFrame)) : Prop :=
  ∃ d jobs,
    rtc (pool_step func processes) (∅, Pending <$> tasks) (d, jobs)
    ∧ pool_result jobs r.

(** [run_in_parallel(func, data)] under some schedule of the pool. *)
Definition run_in_parallel_sched
    (func : list item → nat → prog (DataFrame * nat))
    (cpu_count : nat) (data : list Example) (r : res DataFrame) : Prop :=
  let splits := Partitioner.splits cpu_count (length data) in
  match df_split data splits with
  | Raise e => r = Raise e
  | Ok tasks =>
      let processes := Nat.min cpu_count splits in
      ∃ r', pool_map_sched func processes tasks r' ∧
        r = res_bind r' (λ dfs, res_bind (pd_concat dfs) (λ df, Ok (sort_index df)))
  end.

Definition pairs_to_vec_sched (cpu_count : nat) (specs : list Example)
    (r : res DataFrame) : Prop :=
  run_in_parallel_sched pair_partition_to_vec cpu_count specs r.
End Pool.

(** ** Vocabulary of the statements *)

Section Statements.
Context `{Draco}.

(** The cell of a feature in a row built from a feature vector: the count,
    or a missing value when the vector has no entry for the feature. *)
Definition count_cell (vec : gmap string Z) (feature : string) : cell :=
  match vec !! feature with
  | Some n => CInt n
  | None => NaN
  end.

(** The cells of the row of an example whose two tasks resolved to
    [neg_feature_vec] and [pos_feature_vec]. *)
Definition feature_row (example : PosNegExample)
    (neg_feature_vec pos_feature_vec : gmap string Z) : list cell :=
  (count_cell neg_feature_vec <$> get_feature_names)
  ++ (count_cell pos_feature_vec <$> get_feature_names)
  ++ [CObj (source example); CObj (task example)].

(** The two tasks the loop body builds for an example: the counter is 0
    when the negative payload is parsed, and stands where that parse left
    it when the positive payload is parsed. *)
Definition negative_task (example : PosNegExample)
    : res (Task Data Json Query) :=
  res_bind (Query_from_vegalite (negative example) 0) (λ qn,
    Ok (mkTask (data example) qn.1 (task example))).

Definition positive_task (example : PosNegExample)
    : res (Task Data Json Query) :=
  res_bind (Query_from_vegalite (negative example) 0) (λ qn,
  res_bind (Query_from_vegalite (positive example) qn.2) (λ qp,
    Ok (mkTask (data example) qp.1 (task example)))).

(** [row] is the row of [example] with the feature vectors that the
    dictionary [d] holds for the keys of its two tasks. *)
Definition vectorized_row (d : gmap string (gmap string Z)) (example : item)
    (row : string * list cell) : Prop :=
  ∃ ex tn tp kn kp vn vp,
    resolve example = Ok ex
    ∧ negative_task ex = Ok tn ∧ positive_task ex = Ok tp
    ∧ Task_to_asp tn = Ok kn ∧ Task_to_asp tp = Ok kp
    ∧ d !! kn = Some vn ∧ d !! kp = Some vp
    ∧ row = (pair_id ex, feature_row ex vn vp).

Definition vectorized (d : gmap string (gmap string Z)) (example : item)
    (df : DataFrame) : Prop :=
  ∃ row, vectorized_row d example row ∧ df = mkDataFrame get_nested_index [row].

(** The example a worker sees once [np.array_split] has turned the tuple
    into an array row and the loop has rebuilt it by position. *)
Definition as_posneg (e : Example) : PosNegExample :=
  PosNegExample_of_ndarray (to_ndarray e).

(** Two examples with the same [data], [task] and [negative] fields. *)
Definition same_negative_input (e1 e2 : Example) : Prop :=
  data (as_posneg e1) = data (as_posneg e2)
  ∧ task (as_posneg e1) = task (as_posneg e2)
  ∧ negative (as_posneg e1) = negative (as_posneg e2).

(** The cells of a row under the [negative] and [positive] categories. *)
Definition negative_cells (cells : list cell) : list cell :=
  take (length get_feature_names) cells.

Definition positive_cells (cells : list cell) : list cell :=
  take (length get_feature_names) (drop (length get_feature_names) cells).

(** The cell of the scalar column [task]. *)
Definition task_cell (cells : list cell) : option cell :=
  cells !! (2 * length get_feature_names + 1).

(** What [load_unlabeled_specs] has built, with respect to the cache of
    data objects [dc]. *)
Definition loaded_shape (dc : gmap string Data) (u : UnlabeledExample) : Prop :=
  u_data u = PyNone
  ∧ ∃ l r url d,
      left u = PyJson l ∧ right u = PyJson r
      ∧ Json_data_url l = Ok url ∧ dc !! url = Some d
      ∧ u_task u = PyData d.

(** *** The contract of the solver *)

(** [count_violations] depends on a task through its canonical
    serialisation only. *)
Definition solver_pure : Prop :=
  ∀ t1 t2 key,
    Task_to_asp t1 = Ok key → Task_to_asp t2 = Ok key →
    count_violations t1 = count_violations t2.

(** [v] is what the solver returns on a task whose key is [key]. *)
Definition solved (key : string) (v : gmap string Z) : Prop :=
  ∃ t, Task_to_asp t = Ok key ∧ count_violations t = Ok v.

Definition cache_ok (d : gmap string (gmap string Z)) : Prop :=
  ∀ key v, d !! key = Some v → solved key v.

(** *** What a worker computes, whatever the other workers do *)

(** The feature vector of a task, without the dictionary. *)
Definition solve (t : Task Data Json Query) : res (gmap string Z) :=
  res_bind (Task_to_asp t) (λ _, count_violations t).

(** The row of an example. *)
Definition example_row (example : item) : res (string * list cell) :=
  res_bind (resolve example) (λ ex,
  res_bind (negative_task ex) (λ tn,
  res_bind (solve tn) (λ vn,
  res_bind (positive_task ex) (λ tp,
  res_bind (solve tp) (λ vp,
    Ok (pair_id ex, feature_row ex vn vp)))))).

Fixpoint example_rows (partition : list item) : res (list (string * list cell)) :=
  match partition with
  | [] => Ok []
  | example :: rest =>
      res_bind (example_row example) (λ row,
      res_bind (example_rows rest) (λ rows, Ok (row :: rows)))
  end.

(** The frame of a partition. *)
Definition partition_frame (partition : list item) : res DataFrame :=
  res_bind (example_rows partition) (λ rows,
    pd_concat ((λ row, mkDataFrame get_nested_index [row]) <$> rows)).

(** The tasks handed to the pool, one after the other. *)
Definition items (data : list Example) : list item :=
  ItNdarray <$> (to_ndarray <$> data).

(** The table of a list of examples. *)
Definition expected_table (data : list Example) : res DataFrame :=
  res_bind (example_rows (items data)) (λ rows,
    Ok (mkDataFrame get_nested_index (merge_sort row_le rows))).

(** *** Ghost state of a run *)

(** The solver was called once for each key that was looked for and not
    found. *)
Definition counted (σ : store) : Prop :=
  cache_misses σ = length (solver_calls σ).

(** Every call of the solver returned, and each filled a new key. *)
Definition clean (σ : store) : Prop :=
  size (processed_specs σ) = length (solver_calls σ)
  ∧ Forall (λ t, is_Ok (count_violations t)) (solver_calls σ).

(** What any run of a worker does to the store: entries are added, never
    changed, and the count of misses follows the calls. *)
Definition store_ext (σ σ' : store) : Prop :=
  processed_specs σ ⊆ processed_specs σ'
  ∧ (counted σ → counted σ')
  ∧ (cache_ok (processed_specs σ) → cache_ok (processed_specs σ')).

Definition store_le (σ σ' : store) : Prop :=
  processed_specs σ ⊆ processed_specs σ'
  ∧ (counted σ → counted σ') ∧ (clean σ → clean σ').

(** The loop of the worker over a list of examples, as it acts on the
    store: the rows of the examples, or the exception of the first example
    that fails. *)
Fixpoint exec_rows (examples : list item) (σ : store)
    : res (list (string * list cell)) * store :=
  match examples with
  | [] => (Ok [], σ)
  | example :: rest =>
      match exec (vectorize_example get_nested_index example 0) σ with
      | (Ok r, σ1) =>
          match exec_rows rest σ1 with
          | (Ok rows, σ2) => (Ok (df_rows r.1 ++ rows), σ2)
          | (Raise e, σ2) => (Raise e, σ2)
          end
      | (Raise e, σ1) => (Raise e, σ1)
      end
  end.

(** The run over a whole list: the sorted table of the rows. *)
Definition table_of_rows (r : res (list (string * list cell)) * store)
    : res DataFrame * store :=
  match r with
  | (Ok rows, σ) => (Ok (mkDataFrame get_nested_index (merge_sort row_le rows)), σ)
  | (Raise e, σ) => (Raise e, σ)
  end.

(** The result [r] of a run agrees with the result [spec] of its
    description: the same exception, or values related by [R]. *)
Definition agrees {A B} (R : A → B → Prop) (r : res A) (spec : res B) : Prop :=
  match r, spec with
  | Ok a, Ok b => R a b
  | Raise e, Raise e' => e = e'
  | _, _ => False
  end.

(** [wp K p Q]: in a pool whose shared dictionary holds only solver
    results and holds the keys [K] (entries are never removed), every run
    of [p], however it is interleaved with the other workers, ends in a
    result that satisfies [Q]. *)
Inductive wp {A : Type} : gset string → prog A → (res A → Prop) → Prop :=
| wp_Ret K a (Q : res A → Prop) :
    Q (Ok a) → wp K (Ret a) Q
| wp_Throw K e (Q : res A → Prop) :
    Q (Raise e) → wp K (Throw e) Q
| wp_Contains K key k Q :
    wp ({[key]} ∪ K) (k true) Q → wp K (k false) Q →
    wp K (Contains key k) Q
| wp_SetItem K key v k Q :
    solved key v → wp ({[key]} ∪ K) k Q →
    wp K (SetItem key v k) Q
| wp_GetItem K key k Q :
    key ∈ K → (∀ v, solved key v → wp K (k v) Q) →
    wp K (GetItem key k) Q
| wp_CountViolations K t k (Q : res A → Prop) :
    (∀ v, count_violations t = Ok v → wp K (k v) Q) →
    (∀ e, count_violations t = Raise e → Q (Raise e)) →
    wp K (CountViolations t k) Q.

(** The invariant of the pool while it runs [tasks] with a worker function
    whose outcome on a task [t] is [outcome t]. *)
Definition job_ok (outcome : list item → res DataFrame)
    (d : gmap string (gmap string Z)) (t : list item) (j : job) : Prop :=
  match j with
  | Pending t' => t' = t
  | Running p =>
      ∃ K, K ⊆ dom d
           ∧ wp K p (λ r, agrees (λ a df, a.1 = df) r (outcome t))
  | Done r => r = outcome t
  end.

Definition pool_inv (outcome : list item → res DataFrame)
    (tasks : list (list item))
    (st : gmap string (gmap string Z) * list job) : Prop :=
  cache_ok st.1 ∧ Forall2 (job_ok outcome st.1) tasks st.2.
End Statements.

(** ** A small instance to run the model on *)

Module Toy.

(** A specification: the URL of its data and the channels it encodes. *)
Definition spec : Type := string * list string.

(** A query: the encodings, each an identifier and a channel. *)
Definition query : Type := list (string * string).

Fixpoint number_encodings (cnt : nat) (channels : list string) : query :=
  match channels with
  | [] => []
  | c :: r => ("e" +:+ pretty cnt, c) :: number_encodings (S cnt) r
  end.

(** Parsing fails on the channel [?]; the encodings take their numbers
    from the counter. *)
Definition from_vegalite (payload : pyval nat spec) (cnt : nat)
    : res (query * nat) :=
  match payload with
  | PyJson (_, channels) =>
      if bool_decide ("?" ∈ channels) then Raise (OtherError "DataFormatError")
      else Ok (number_encodings cnt channels, cnt + length channels)
  | _ => Raise TypeError
  end.

(** The key is the text of the encodings; the schema and the task type do
    not enter it. *)
Definition to_asp (t : Task nat spec query) : res string :=
  Ok (String.concat " "
        ((λ e : string * string, "channel(" +:+ e.1 +:+ "," +:+ e.2 +:+ ").")
           <$> task_query t)).

Definition count_char (c : Ascii.ascii) (s : string) : nat :=
  length (filter (λ c', c' = c) (String.list_ascii_of_string s)).

(** One violation of [a] per encoding; the solver fails on a program that
    mentions the channel [!]. *)
Definition key_vector (key : string) : res (gmap string Z) :=
  if bool_decide (count_char "!"%char key = 0)
  then Ok {[ "a" := Z.of_nat (count_char "("%char key) ]}
  else Raise (OtherError "ComputeError").

(** A solver that depends on the key only. *)
Definition solver (t : Task nat spec query) : res (gmap string Z) :=
  res_bind (to_asp t) key_vector.

(** A solver that also looks at the task type, which the key leaves out. *)
Definition moody_solver (t : Task nat spec query) : res (gmap string Z) :=
  match task_task t with
  | PyStr "value" => Raise (OtherError "ComputeError")
  | _ => solver t
  end.

(** A solver whose answer depends on the task type, which the key leaves
    out: it reports 100 violations for the task type [value]. *)
Definition fickle_solver (t : Task nat spec query) : res (gmap string Z) :=
  match task_task t with
  | PyStr "value" => Ok {[ "a" := 100%Z ]}
  | _ => solver t
  end.

Definition make (count_violations : Task nat spec query → res (gmap string Z))
    : Draco := {|
  Data := nat;
  Json := spec;
  Query := query;
  Query_from_vegalite := from_vegalite;
  Task_to_asp := to_asp;
  count_violations := count_violations;
  current_weights_keys := ["b_weight"; "a_weight"];
  Json_data_url := λ j, Ok j.1;
  data_path := λ url, "data/" +:+ url;
  Data_from_json := λ path, Ok (String.length path);
  Data_set_url := λ d _, d
|}.

Definition draco : Draco := make solver.
Definition moody : Draco := make moody_solver.
Definition fickle : Draco := make fickle_solver.

Definition posneg (id : string) (task : string) (neg pos : list string)
    : Model.Example nat spec :=
  ExPosNeg
    (mkPosNeg id (PyData 7) (PyStr task) (PyStr "manual")
       (PyJson ("cars.json", neg)) (PyJson ("cars.json", pos))).

Definition unlabeled (id : string) (l r : list string) : Model.Example nat spec :=
  ExUnlabeled
    (mkUnlabeled id PyNone (PyData 7) (PyStr "halden")
       (PyJson ("cars.json", l)) (PyJson ("cars.json", r))).

(** Two labeled examples with the same negative payload. *)
Definition two_examples : list (Model.Example nat spec) :=
  [posneg "m-1" "summary" ["x"] ["x"; "y"]; posneg "m-0" "summary" ["x"] ["y"]].

(** Enough examples for the number of partitions to depend on the number
    of processors: 20 partitions on one, 21 on two. *)
Definition many_examples : list (Model.Example nat spec) :=
  (λ i, posneg ("m-" +:+ pretty i) "summary" ["x"] ["x"; "y"]) <$> seq 0 201.

(** Eleven examples with one negative payload, two partitions on two
    processors: the first six have the task type [summary], the last five
    the task type [value]. *)
Definition eleven_examples : list (Model.Example nat spec) :=
  ((λ i, posneg ("m-" +:+ pretty i) "summary" ["x"] ["x"; "y"]) <$> seq 0 6)
  ++ ((λ i, posneg ("m-" +:+ pretty i) "value" ["x"] ["x"; "y"]) <$> seq 6 5).

(** One file of the unlabeled corpus: a group of three specifications. *)
Definition corpus : list (list (string * list (list spec))) :=
  [[("2", [[("cars.json", ["x"]); ("cars.json", ["y"]); ("cars.json", ["x"; "y"])]])]].

End Toy.

(** * The loaders of the module *)

(** ** Paths: what the module uses of [os.path], on a POSIX system *)

Module PosixPath.

Definition sep : ascii := "/"%char.

(** ['/' in s] *)
Fixpoint has_sep (s : string) : bool :=
  match s with
  | EmptyString => false
  | String c r => bool_decide (c = sep) || has_sep r
  end.

(** [s.startswith('/')] *)
Definition startswith_sep (s : string) : bool :=
  match s with
  | EmptyString => false
  | String c _ => bool_decide (c = sep)
  end.

(** [s.endswith(suffix)] *)
Definition endswith (s suffix : string) : bool :=
  bool_decide (String.list_ascii_of_string suffix
                 `suffix_of` String.list_ascii_of_string s).

(** [os.path.join(a, b)]: a second component that is absolute replaces the
    first; a separator is put in between unless the first is empty or ends
    with one. *)
Definition join (a b : string) : string :=
  if startswith_sep b then b
  else if bool_decide (a = "") || endswith a "/" then a +:+ b
  else a +:+ "/" +:+ b.

(** [p.rfind('/') + 1]: the position after the last separator, 0 when
    there is none. *)
Fixpoint after_last_sep (p : string) : nat :=
  match p with
  | EmptyString => 0
  | String c r =>
      if has_sep r then S (after_last_sep r)
      else if bool_decide (c = sep) then 1 else 0
  end.

(** [p[i:]] and [p[:i]] *)
Definition str_drop (i : nat) (p : string) : string :=
  String.substring i (String.length p - i) p.

Definition str_take (i : nat) (p : string) : string :=
  String.substring 0 i p.

(** [os.path.basename(p)] *)
Definition basename (p : string) : string :=
  let i := after_last_sep p in
  str_drop i p.

Fixpoint lstrip_sep (l : list ascii) : list ascii :=
  match l with
  | [] => []
  | c :: r => if bool_decide (c = sep) then lstrip_sep r else l
  end.

(** [s.rstrip('/')] *)
Definition rstrip_sep (s : string) : string :=
  String.string_of_list_ascii
    (reverse (lstrip_sep (reverse (String.list_ascii_of_string s)))).

(** [os.path.dirname(p)] *)
Definition dirname (p : string) : string :=
  let i := after_last_sep p in
  let head := str_take i p in
  if bool_decide (head ≠ "")
     && negb (forallb (λ c, bool_decide (c = sep))
                (String.list_ascii_of_string head))
  then rstrip_sep head
  else head.

End PosixPath.

(** [absolute_path(p)], in a module whose [__file__] is [file] *)
Definition absolute_path (file p : string) : string :=
  PosixPath.join (PosixPath.dirname file) p.

(** [data_dir], the directory of the data sets used in the specifications *)
Definition data_dir (file : string) : string :=
  absolute_path file "../../data/".

Definition compassql_data_path (file : string) : string :=
  absolute_path file "../../data/compassql_examples".

(** ** The labeled corpus: [load_neg_pos_specs] *)

Module LabeledModel.
Section LabeledRows.
Context {Data Json : Type}.

(** A row of [json_data['data']]: the value under each key the loader
    reads, [None] when the row has no such key. *)
Record LabeledRow : Type := mkRow {
  row_fields : option (list Json);
  row_num_rows : option (pyval Data Json);
  row_task : option (pyval Data Json);
  row_negative : option (pyval Data Json);
  row_positive : option (pyval Data Json)
}.

(** A parsed file of the corpus: the values under [source] and [data]. *)
Record LabeledFile : Type := mkFile {
  file_source : option string;
  file_data : option (list LabeledRow)
}.
End LabeledRows.

Arguments LabeledRow : clear implicits.
Arguments LabeledFile : clear implicits.
End LabeledModel.
Export LabeledModel.

Abbreviation LabeledRow := (LabeledModel.LabeledRow Data Json).
Abbreviation LabeledFile := (LabeledModel.LabeledFile Data Json).

(** [d[key]] and [d.get(key)] on the value found under a key *)
Definition getitem {A} (o : option A) : res A :=
  match o with
  | Some a => Ok a
  | None => Raise KeyError
  end.

Definition get {Data Json} (o : option (pyval Data Json)) : pyval Data Json :=
  match o with
  | Some v => v
  | None => PyNone
  end.

(** [list(map(f, l))] for an [f] that may raise *)
Fixpoint map_res {A B} (f : A → res B) (l : list A) : res (list B) :=
  match l with
  | [] => Ok []
  | x :: rest =>
      res_bind (f x) (λ y, res_bind (map_res f rest) (λ ys, Ok (y :: ys)))
  end.

(** What [load_neg_pos_specs] uses of [draco.spec]: [Field.from_obj] and
    the constructor of [Data]. *)
Class Schema `{Draco} : Type := {
  Field : Type;
  (** [Field.from_obj(obj)] *)
  Field_from_obj : Json → res Field;
  (** [Data(fields, num_rows)] *)
  Data_init : list Field → pyval Data Json → res Data
}.

Section LabeledLoader.
Context `{Schema}.

(** The body of the loop over the rows of a file, for the row numbered
    [i]. *)
Definition load_row (json_data : LabeledFile) (i : nat) (row : LabeledRow)
    : res PosNegExample :=
  res_bind (getitem (row_fields row)) (λ objs,
  res_bind (map_res Field_from_obj objs) (λ fields,
  res_bind (Data_init fields (get (row_num_rows row))) (λ spec_schema,
  res_bind (getitem (file_source json_data)) (λ src,
  let pair_id := src +:+ "-" +:+ pretty i in
  let task := get (row_task row) in
  res_bind (getitem (row_negative row)) (λ negative,
  res_bind (getitem (row_positive row)) (λ positive,
    Ok (mkPosNeg pair_id (PyData spec_schema) task (PyStr src)
          negative positive))))))).

Fixpoint load_rows (json_data : LabeledFile) (rows : list LabeledRow) (i : nat)
    (raw_data : list PosNegExample) : res (list PosNegExample) :=
  match rows with
  | [] => Ok raw_data
  | row :: rest =>
      res_bind (load_row json_data i row) (λ example,
        load_rows json_data rest (i + 1) (raw_data ++ [example]))
  end.

(** The body of the loop over the paths; [opened] is what [open] and
    [json.load] give for the path. *)
Definition load_file (raw_data : list PosNegExample) (opened : res LabeledFile)
    : res (list PosNegExample) :=
  res_bind opened (λ json_data,
    let i := 0 in
    res_bind (getitem (file_data json_data)) (λ rows,
      load_rows json_data rows i raw_data)).

Fixpoint load_files (paths : list (res LabeledFile))
    (raw_data : list PosNegExample) : res (list PosNegExample) :=
  match paths with
  | [] => Ok raw_data
  | opened :: rest =>
      res_bind (load_file raw_data opened) (λ raw_data,
        load_files rest raw_data)
  end.

(** [load_neg_pos_specs()], on the contents of the four files
    [manual.json], [younghoon.json], [bahador.json] and [labeler.json] *)
Definition load_neg_pos_specs (man yh ba label : res LabeledFile)
    : res (list PosNegExample) :=
  load_files [man; yh; ba; label] [].

(** The script of the module: the table that is written to [pickle_path]. *)
Definition main (cpu_count : nat) (man yh ba label : res LabeledFile)
    (encoding_cnt : nat) : res DataFrame :=
  res_bind (load_neg_pos_specs man yh ba label) (λ neg_pos_data,
    pairs_to_vec cpu_count (ExPosNeg <$> neg_pos_data) encoding_cnt).
End LabeledLoader.

(** ** Pairs of partial and full specifications: [load_partial_full_data] *)

(** The directories and files the loader reads. *)
Record FileSystem (Json : Type) : Type := mkFS {
  (** [os.listdir(dir)] *)
  listdir : string → res (list string);
  (** [json.load] on the file opened at a path *)
  json_load : string → res Json
}.
Arguments mkFS {Json} _ _.
Arguments listdir {Json} _ _.
Arguments json_load {Json} _ _.

Inductive data_format : Type := compassql | vegalite.

(** What [load_partial_full_data] uses of a parsed specification and of
    [draco.spec.Task]. *)
Class TaskSpec `{Draco} : Type := {
  (** [content['data']['url']] when [content['data']] has the key [url]
      with a value other than [None]; the lookup of [data] may raise *)
  Json_url : Json → res (option string);
  (** [content] after [content['data']['url'] = url] *)
  Json_set_url : Json → string → Json;
  (** [Task.from_cql(content, '.')] *)
  Task_from_cql : Json → string → res (Task Data Json Query);
  (** [Task.from_vegalite(content)] *)
  Task_from_vegalite : Json → res (Task Data Json Query);
  (** [spec.to_vegalite()] *)
  Task_to_vegalite : Task Data Json Query → res Json
}.

Section PartialFull.
Context `{TaskSpec}.
Import PosixPath.

(** The body of the loop of [load_spec], for one path. The comparison of
    [spec.to_vegalite()] with the content only decides whether a warning is
    logged. *)
Definition load_spec_file (fs : FileSystem Json) (data_dir : string)
    (fmt : data_format) (result : gmap string (Task Data Json Query))
    (fname : string) : res (gmap string (Task Data Json Query)) :=
  if negb (endswith fname ".json") then Ok result
  else
    res_bind (json_load fs fname) (λ content,
    res_bind (Json_url content) (λ url,
    let content :=
      match url with
      | Some url => Json_set_url content (join data_dir (basename url))
      | None => content
      end in
    res_bind
      match fmt with
      | compassql => Task_from_cql content "."
      | vegalite =>
          res_bind (Task_from_vegalite content) (λ spec,
          res_bind (Task_to_vegalite spec) (λ _, Ok spec))
      end (λ spec,
    Ok (<[basename fname := spec]> result)))).

Fixpoint load_spec_loop (fs : FileSystem Json) (data_dir : string)
    (fmt : data_format) (files : list string)
    (result : gmap string (Task Data Json Query))
    : res (gmap string (Task Data Json Query)) :=
  match files with
  | [] => Ok result
  | fname :: rest =>
      res_bind (load_spec_file fs data_dir fmt result fname) (λ result,
        load_spec_loop fs data_dir fmt rest result)
  end.

(** [load_spec(input_dir, data_format)] *)
Definition load_spec (fs : FileSystem Json) (data_dir input_dir : string)
    (fmt : data_format) : res (gmap string (Task Data Json Query)) :=
  res_bind (listdir fs input_dir) (λ names,
    let files := join input_dir <$> names in
    load_spec_loop fs data_dir fmt files ∅).

(** The last loop of [load_partial_full_data]: the keys of
    [partial_specs] one by one. *)
Fixpoint pair_specs (keys : list string)
    (partial_specs compassql_outs : gmap string (Task Data Json Query))
    (result : gmap string (Task Data Json Query * Task Data Json Query))
    : res (gmap string (Task Data Json Query * Task Data Json Query)) :=
  match keys with
  | [] => Ok result
  | k :: rest =>
      res_bind (getitem (partial_specs !! k)) (λ partial,
      res_bind (getitem (compassql_outs !! k)) (λ full,
        pair_specs rest partial_specs compassql_outs
          (<[k := (partial, full)]> result)))
  end.

(** [load_partial_full_data(path, data_dir)] *)
Definition load_partial_full_data (fs : FileSystem Json) (path data_dir : string)
    : res (gmap string (Task Data Json Query * Task Data Json Query)) :=
  res_bind (load_spec fs data_dir (join path "input") compassql)
    (λ partial_specs,
  res_bind (load_spec fs data_dir (join path "output") vegalite)
    (λ compassql_outs,
    pair_specs (elements (dom partial_specs)) partial_specs compassql_outs ∅)).
End PartialFull.

(** ** Vocabulary of the further statements *)

(** A cell is a missing value for [fillna]. *)
Definition is_missing {Data Json} (c : Model.cell Data Json) : bool :=
  match c with
  | NaN => true
  | CObj PyNone => true
  | _ => false
  end.

Section LoaderStatements.
Context `{Draco}.

(** The identifiers [halden-0], [halden-1], ... of the first [n] unlabeled
    examples. *)
Definition halden_ids (n : nat) : list string :=
  (λ k, "halden-" +:+ pretty k) <$> seq 0 n.

(** ['-' in s] *)
Fixpoint has_dash (s : string) : bool :=
  match s with
  | EmptyString => false
  | String c r => bool_decide (c = "-"%char) || has_dash r
  end.

(** The identifiers [src-0], [src-1], ... of the [n] rows of a file. *)
Definition file_ids (src : string) (n : nat) : list string :=
  (λ i, src +:+ "-" +:+ pretty i) <$> seq 0 n.

(** The groups of specifications of the unlabeled corpus, in the order of
    the loops. *)
Definition all_groups (files : list (list (string * list (list Json))))
    : list (list Json) :=
  content ← files; entry ← content; entry.2.

(** The cache of data sets holds, for a URL, the data set read from the
    file of that name in the data directory, with its [url] set back to
    the URL. *)
Definition cache_read (dc : gmap string Data) : Prop :=
  ∀ url d, dc !! url = Some d →
    ∃ d0, Data_from_json (data_path url) = Ok d0 ∧ d = Data_set_url d0 url.

(** The specifications of a group name one URL whose data set can be
    read. *)
Definition group_reads (group : list Json) : Prop :=
  ∃ url d0,
    Forall (λ spec, Json_data_url spec = Ok url) group
    ∧ Data_from_json (data_path url) = Ok d0.

(** A run added at most [n] misses, calls of the solver and entries. *)
Definition grown_by (n : nat) (σ σ' : store) : Prop :=
  cache_misses σ' ≤ cache_misses σ + n
  ∧ length (solver_calls σ') ≤ length (solver_calls σ) + n
  ∧ size (processed_specs σ') ≤ size (processed_specs σ) + n.

(** A program looks up only keys that are known to be in the shared
    dictionary: those of [K], those it found there and those it has stored. *)
Inductive lookups_safe {A : Type} : gset string → prog A → Prop :=
| safe_Ret K a : lookups_safe K (Ret a)
| safe_Throw K e : lookups_safe K (Throw e)
| safe_Contains K key k :
    lookups_safe ({[key]} ∪ K) (k true) → lookups_safe K (k false) →
    lookups_safe K (Contains key k)
| safe_SetItem K key v k :
    lookups_safe ({[key]} ∪ K) k →
    lookups_safe K (SetItem key v k)
| safe_GetItem K key k :
    key ∈ K → (∀ v, lookups_safe K (k v)) →
    lookups_safe K (GetItem key k)
| safe_CountViolations K t k :
    (∀ v, lookups_safe K (k v)) →
    lookups_safe K (CountViolations t k).

Definition job_safe (d : gmap string (gmap string Z)) (j : job) : Prop :=
  match j with
  | Running p => ∃ K, K ⊆ dom d ∧ lookups_safe K p
  | _ => True
  end.
End LoaderStatements.

Section LabeledStatements.
Context `{Schema}.

(** The rows and the source of a parsed file. *)
Definition file_rows (f : LabeledFile) : list LabeledRow :=
  default [] (file_data f).

Definition file_src (f : LabeledFile) : string :=
  default "" (file_source f).

(** The examples that the loop over the rows of a file builds: the row
    numbered [k] gives the example in place [k]. *)
Definition loaded_from (f : LabeledFile) (new : list PosNegExample) : Prop :=
  Forall2 (λ k example, ∃ row, file_rows f !! k = Some row
             ∧ load_row f k row = Ok example)
    (seq 0 (length (file_rows f))) new.

(** A row that [load_row] turns into an example. *)
Definition row_loads (row : LabeledRow) : Prop :=
  (∃ objs, row_fields row = Some objs
           ∧ ∃ fields, map_res Field_from_obj objs = Ok fields
                       ∧ is_Ok (Data_init fields (get (row_num_rows row))))
  ∧ is_Some (row_negative row) ∧ is_Some (row_positive row).

(** A file all of whose rows load. *)
Definition file_loads (opened : res LabeledFile) : Prop :=
  ∃ f rows, opened = Ok f ∧ file_data f = Some rows
            ∧ Forall row_loads rows
            ∧ (rows ≠ [] → is_Some (file_source f)).
End LabeledStatements.

Section SpecStatements.
Context `{TaskSpec}.
Import PosixPath.

(** The specification that the body of the loop of [load_spec] makes of
    the file at a path. *)
Definition read_spec (fs : FileSystem Json) (data_dir : string)
    (fmt : data_format) (fname : string) : res (Task Data Json Query) :=
  res_bind (json_load fs fname) (λ content,
  res_bind (Json_url content) (λ url,
  let content :=
    match url with
    | Some url => Json_set_url content (join data_dir (basename url))
    | None => content
    end in
  match fmt with
  | compassql => Task_from_cql content "."
  | vegalite =>
      res_bind (Task_from_vegalite content) (λ spec,
      res_bind (Task_to_vegalite spec) (λ _, Ok spec))
  end)).
End SpecStatements.

(** ** A small corpus to run the loaders on *)

Module ToyFiles.
Import Toy.

(** A field is named by the URL of its object; the schema counts the
    fields. *)
Definition field_from_obj (obj : spec) : res string :=
  if bool_decide (obj.1 = "") then Raise ValueError else Ok obj.1.

Definition data_init (fields : list string) (num_rows : pyval nat spec)
    : res nat :=
  Ok (length fields).

Definition schema : Schema (H := draco) :=
  @Build_Schema draco string field_from_obj data_init.

Definition row (task : option string) (neg pos : list string)
    : LabeledModel.LabeledRow nat spec :=
  mkRow (Some [("q", []); ("n", [])]) None (PyStr <$> task)
    (Some (PyJson ("cars.json", neg))) (Some (PyJson ("cars.json", pos))).

(** Four files: two rows, one row, no row and no source, one row without
    task. *)
Definition manual : LabeledModel.LabeledFile nat spec :=
  mkFile (Some "manual")
    (Some [row (Some "summary") ["x"] ["y"]; row (Some "value") ["x"] ["x"; "y"]]).

Definition younghoon : LabeledModel.LabeledFile nat spec :=
  mkFile (Some "younghoon") (Some [row (Some "summary") ["y"] ["x"]]).

Definition bahador : LabeledModel.LabeledFile nat spec :=
  mkFile None (Some []).

Definition labeler : LabeledModel.LabeledFile nat spec :=
  mkFile (Some "labeler") (Some [row None ["x"; "y"] ["y"]]).

(** A file whose source is that of [manual]. *)
Definition manual_again : LabeledModel.LabeledFile nat spec :=
  mkFile (Some "manual") (Some [row (Some "summary") ["y"] ["y"; "x"]]).

(** An unlabeled corpus of eleven pairs: a group of five specifications
    and a group of two. *)
Definition corpus11 : list (list (string * list (list spec))) :=
  [[("1", [[("cars.json", ["x"]); ("cars.json", ["y"]); ("cars.json", ["x"; "y"]);
            ("cars.json", ["y"; "x"]); ("cars.json", ["x"; "x"])]]);
    ("2", [[("movies.json", ["z"]); ("movies.json", ["x"; "z"])]])]].

(** A corpus of one group that holds a specification twice. *)
Definition corpus_twice : list (list (string * list (list spec))) :=
  [[("1", [[("cars.json", ["x"]); ("cars.json", ["y"]); ("cars.json", ["x"])]])]].

(** Two directories of specifications; every file parses to the same
    channels, with its own path in the URL. *)
Definition fs : FileSystem spec :=
  mkFS
    (λ dir,
       if bool_decide (dir = "cql/input")
       then Ok ["a.json"; "notes.txt"; "b.json"]
       else if bool_decide (dir = "cql/output")
       then Ok ["b.json"; "a.json"; "c.json"]
       else Raise (OtherError "FileNotFoundError"))
    (λ path, Ok ("http://host/" +:+ path, ["x"])).

(** A directory of partial specifications one of which has no full
    counterpart. *)
Definition fs_missing : FileSystem spec :=
  mkFS
    (λ dir,
       if bool_decide (dir = "cql/input") then Ok ["a.json"; "d.json"]
       else Ok ["a.json"])
    (λ path, Ok ("http://host/" +:+ path, ["x"])).

Definition task_of (content : spec) : res (Task nat spec query) :=
  res_bind (from_vegalite (PyJson content) 0) (λ q,
    Ok (mkTask (PyStr content.1) q.1 PyNone)).

Definition json_url (content : spec) : res (option string) :=
  Ok (if bool_decide (content.1 = "") then None else Some content.1).

Definition json_set_url (content : spec) (url : string) : spec :=
  (url, content.2).

Definition task_to_vegalite (t : Task nat spec query) : res spec :=
  Ok ("", snd <$> task_query t).

Definition task_spec : TaskSpec (H := draco) :=
  @Build_TaskSpec draco json_url json_set_url (λ content _, task_of content)
    task_of task_to_vegalite.

End ToyFiles.

(** ** The pool and its ghost counters *)

Section PoolCounters.
Context `{Draco}.

(** The state of the pool with the two ghost counters of [store], kept
    for the workers together: how often a key was looked for and not
    found, and the tasks on which the solver was called. *)
Definition counted_state : Type :=
  (gmap string (gmap string Z) * list job) * (nat * list (Task Data Json Query)).

(** [pool_step] with the counters: a lookup [key in d] that finds nothing
    is a miss, a call of the solver is logged whether it returns or raises,
    and the other steps leave the counters as they are. *)
Inductive pool_step_counted (func : list item → nat → prog (DataFrame * nat))
    (processes : nat) : counted_state → counted_state → Prop :=
| counted_start d jobs i t encoding_cnt g :
    jobs !! i = Some (Pending t) →
    running jobs < processes →
    pool_step_counted func processes (d, jobs, g)
      (d, <[i := Running (func t encoding_cnt)]> jobs, g)
| counted_return d jobs i a g :
    jobs !! i = Some (Running (Ret a)) →
    pool_step_counted func processes (d, jobs, g)
      (d, <[i := Done (Ok a.1)]> jobs, g)
| counted_throw d jobs i e g :
    jobs !! i = Some (Running (Throw e)) →
    pool_step_counted func processes (d, jobs, g)
      (d, <[i := Done (Raise e)]> jobs, g)
| counted_contains d jobs i key k misses calls :
    jobs !! i = Some (Running (Contains key k)) →
    pool_step_counted func processes (d, jobs, (misses, calls))
      (d, <[i := Running (k (bool_decide (is_Some (d !! key))))]> jobs,
       (if bool_decide (is_Some (d !! key)) then misses else S misses, calls))
| counted_setitem d jobs i key v k g :
    jobs !! i = Some (Running (SetItem key v k)) →
    pool_step_counted func processes (d, jobs, g)
      (<[key := v]> d, <[i := Running k]> jobs, g)
| counted_getitem d jobs i key k v g :
    jobs !! i = Some (Running (GetItem key k)) →
    d !! key = Some v →
    pool_step_counted func processes (d, jobs, g)
      (d, <[i := Running (k v)]> jobs, g)
| counted_getitem_missing d jobs i key k g :
    jobs !! i = Some (Running (GetItem key k)) →
    d !! key = None →
    pool_step_counted func processes (d, jobs, g)
      (d, <[i := Done (Raise KeyError)]> jobs, g)
| counted_count d jobs i t k v misses calls :
    jobs !! i = Some (Running (CountViolations t k)) →
    count_violations t = Ok v →
    pool_step_counted func processes (d, jobs, (misses, calls))
      (d, <[i := Running (k v)]> jobs, (misses, calls ++ [t]))
| counted_count_raise d jobs i t k e misses calls :
    jobs !! i = Some (Running (CountViolations t k)) →
    count_violations t = Raise e →
    pool_step_counted func processes (d, jobs, (misses, calls))
      (d, <[i := Done (Raise e)]> jobs, (misses, calls ++ [t])).

(** The pool before its first step. *)
Definition pool_init (tasks : list (list item)) : counted_state :=
  ((∅, Pending <$> tasks), (0, [])).

(** [ledger P m c p]: a worker that has missed [m] keys for which it has
    not called the solver yet, and holds [c] results of the solver that it
    has not stored yet, can run [p]: [p] calls the solver only after a
    miss that is still open and only on tasks that satisfy [P], and stores
    only a result it holds. *)
Inductive ledger {A : Type} (P : Task Data Json Query → Prop)
    : nat → nat → prog A → Prop :=
| ledger_Ret m c a : ledger P m c (Ret a)
| ledger_Throw m c e : ledger P m c (Throw e)
| ledger_Contains m c key k :
    ledger P m c (k true) → ledger P (S m) c (k false) →
    ledger P m c (Contains key k)
| ledger_SetItem m c key v k :
    ledger P m c k → ledger P m (S c) (SetItem key v k)
| ledger_GetItem m c key k :
    (∀ v, ledger P m c (k v)) → ledger P m c (GetItem key k)
| ledger_CountViolations m c t k :
    P t → (∀ v, ledger P m (S c) (k v)) →
    ledger P (S m) c (CountViolations t k).

Definition job_ledger (P : Task Data Json Query → Prop)
    (func : list item → nat → prog (DataFrame * nat))
    (credit : nat * nat) (j : job) : Prop :=
  match j with
  | Pending t => ∀ encoding_cnt, ledger P 0 0 (func t encoding_cnt)
  | Running p => ledger P credit.1 credit.2 p
  | Done _ => True
  end.

(** The invariant of the counters: the solver was called at most once for
    each miss, open misses apart, and at most one vector was stored for
    each call, results in hand apart. *)
Definition ledger_inv (P : Task Data Json Query → Prop)
    (func : list item → nat → prog (DataFrame * nat))
    (s : counted_state) : Prop :=
  ∃ credits : list (nat * nat),
    Forall2 (job_ledger P func) credits s.1.2
    ∧ size s.1.1 + sum_list (snd <$> credits) ≤ length s.2.2
    ∧ length s.2.2 + sum_list (fst <$> credits) ≤ s.2.1
    ∧ Forall P s.2.2.

(** The tasks that the loop body builds for [example] satisfy [P]. *)
Definition builds (P : Task Data Json Query → Prop) (example : item) : Prop :=
  ∀ ex q, resolve example = Ok ex → P (mkTask (data ex) q (task ex)).
End PoolCounters.

(** ** Vocabulary of the statements on memoisation *)

Section MemoStatements.
Context `{Draco}.

(** The table [T] has the row of [e], built from the vectors that [R]
    gives for the keys of the two tasks of [e]. *)
Definition row_in (R : string → gmap string Z → Prop) (T : DataFrame)
    (e : Example) : Prop :=
  ∃ tn tp kn kp vn vp,
    negative_task (as_posneg e) = Ok tn ∧ positive_task (as_posneg e) = Ok tp
    ∧ Task_to_asp tn = Ok kn ∧ Task_to_asp tp = Ok kp
    ∧ R kn vn ∧ R kp vp
    ∧ (example_pair_id e, feature_row (as_posneg e) vn vp) ∈ df_rows T.

(** The rows of [e1] and [e2] in the table [T]: two rows that differ when
    the identifiers do, and that carry the same cells wherever a task of
    [e1] and a task of [e2] have the same serialisation, be the two tasks
    negative, positive, or one of each. *)
Definition memo_rows (T : DataFrame) (e1 e2 : Example) : Prop :=
  ∃ row1 row2,
    row1 ∈ df_rows T ∧ row2 ∈ df_rows T
    ∧ row1.1 = example_pair_id e1 ∧ row2.1 = example_pair_id e2
    ∧ (example_pair_id e1 ≠ example_pair_id e2 → row1 ≠ row2)
    ∧ (∀ t1 t2,
         negative_task (as_posneg e1) = Ok t1 →
         negative_task (as_posneg e2) = Ok t2 →
         Task_to_asp t1 = Task_to_asp t2 →
         negative_cells row1.2 = negative_cells row2.2)
    ∧ (∀ t1 t2,
         positive_task (as_posneg e1) = Ok t1 →
         positive_task (as_posneg e2) = Ok t2 →
         Task_to_asp t1 = Task_to_asp t2 →
         positive_cells row1.2 = positive_cells row2.2)
    ∧ (∀ t1 t2,
         negative_task (as_posneg e1) = Ok t1 →
         positive_task (as_posneg e2) = Ok t2 →
         Task_to_asp t1 = Task_to_asp t2 →
         negative_cells row1.2 = positive_cells row2.2)
    ∧ (same_negative_input e1 e2 →
       negative_cells row1.2 = negative_cells row2.2).

(** A task of an unlabeled example: no schema in the place of [data], and
    a data object of the loader's cache [dc] in the place of the task
    type. *)
Definition unlabeled_task (dc : gmap string Data) (t : Task Data Json Query)
    : Prop :=
  task_data t = PyNone ∧ ∃ url d, dc !! url = Some d ∧ task_task t = PyData d.
End MemoStatements.

(** * Properties *)

(** ** Results *)

Lemma Ok_inj {A} (a b : A) : Ok a = Ok b → a = b.
Proof. intros H. injection H as H. exact H. Qed.

Lemma is_Ok_not_Raise {A} (r : res A) : is_Ok r → ¬ is_Raise r.
Proof. intros [a ->] [e He]. discriminate He. Qed.

Lemma is_Raise_not_Ok {A} (r : res A) : is_Raise r → ¬ is_Ok r.
Proof. intros [e ->] [a Ha]. discriminate Ha. Qed.

(** ** The partitioner *)

Module PartitionerFacts.
Import Partitioner.

Lemma ceil_div_10_spec N : ceil_div N 10 * 10 < N + 10 ∧ N ≤ ceil_div N 10 * 10.
Proof.
  unfold ceil_div. change (10 - 1) with 9.
  pose proof (Nat.div_mod_eq (N + 9) 10) as E.
  pose proof (Nat.mod_upper_bound (N + 9) 10 ltac:(lia)) as B.
  lia.
Qed.

Lemma ceil_div_10_pos N : 1 ≤ N → 1 ≤ ceil_div N 10.
Proof. pose proof (ceil_div_10_spec N). lia. Qed.

Lemma ceil_div_10_small N : 1 ≤ N → N ≤ 10 → ceil_div N 10 = 1.
Proof. pose proof (ceil_div_10_spec N). lia. Qed.

Lemma ceil_div_10_le N : ceil_div N 10 ≤ N.
Proof. pose proof (ceil_div_10_spec N). lia. Qed.

Lemma splits_pos cpu N : 1 ≤ cpu → 1 ≤ N → 1 ≤ splits cpu N.
Proof.
  intros Hc HN. unfold splits. pose proof (ceil_div_10_pos N HN). lia.
Qed.

Lemma splits_le_length cpu N : splits cpu N ≤ N.
Proof. unfold splits. pose proof (ceil_div_10_le N). lia. Qed.

Lemma splits_empty cpu : splits cpu 0 = 0.
Proof. pose proof (splits_le_length cpu 0). lia. Qed.

(** *** [array_split] cuts the list into contiguous, order-preserving pieces *)

Lemma slices_concat {A} (ary : list A) (szs : list nat) (d : nat) :
  concat ((λ i, slice ary (nth i (d :: cumsum_from d szs) 0)
                          (nth (i + 1) (d :: cumsum_from d szs) 0))
            <$> seq 0 (length szs))
  = take (sum_list szs) (drop d ary).
Proof.
  revert d. induction szs as [|s szs IH]; intros d; [reflexivity|].
  cbn [length]. rewrite <- cons_seq, <- fmap_S_seq.
  rewrite fmap_cons, <- list_fmap_compose. unfold compose.
  cbn [concat cumsum_from sum_list_with].
  cbn [nth Nat.add]. specialize (IH (d + s)). cbn [nth Nat.add] in IH.
  rewrite IH. unfold slice, id. replace (d + s - d) with s by lia.
  rewrite <- drop_drop. apply take_take_drop.
Qed.

Lemma slices_nonempty {A} (ary : list A) (szs : list nat) (d : nat) :
  Forall (λ s, 1 ≤ s) szs →
  d + sum_list szs ≤ length ary →
  Forall (λ p, p ≠ [])
    ((λ i, slice ary (nth i (d :: cumsum_from d szs) 0)
                     (nth (i + 1) (d :: cumsum_from d szs) 0))
       <$> seq 0 (length szs)).
Proof.
  revert d. induction szs as [|s szs IH]; intros d Hpos Hlen; [constructor|].
  apply Forall_cons in Hpos as [Hs Hpos].
  cbn [length]. rewrite <- cons_seq, <- fmap_S_seq.
  rewrite fmap_cons, <- list_fmap_compose. unfold compose.
  cbn [cumsum_from sum_list_with] in *.
  cbn [nth Nat.add]. change (d + (s + sum_list szs) ≤ length ary) in Hlen.
  constructor.
  - unfold slice. replace (d + s - d) with s by lia.
    intros E. apply (f_equal length) in E.
    rewrite length_take, length_drop in E. cbn [length] in E. lia.
  - specialize (IH (d + s) Hpos ltac:(lia)). cbn [nth Nat.add] in IH. exact IH.
Qed.

Lemma section_sizes_sum N P :
  1 ≤ P →
  sum_list (replicate (N mod P) (N / P + 1) ++ replicate (P - N mod P) (N / P)) = N.
Proof.
  intros HP. rewrite sum_list_with_app, !sum_list_replicate.
  pose proof (Nat.div_mod_eq N P) as E.
  pose proof (Nat.mod_upper_bound N P ltac:(lia)) as B.
  nia.
Qed.

Lemma section_sizes_length N P :
  1 ≤ P →
  length (replicate (N mod P) (N / P + 1) ++ replicate (P - N mod P) (N / P)) = P.
Proof.
  intros HP. rewrite length_app, !length_replicate.
  pose proof (Nat.mod_upper_bound N P ltac:(lia)). lia.
Qed.

Lemma array_split_raises {A} (ary : list A) : array_split ary 0 = Raise ValueError.
Proof. reflexivity. Qed.

Lemma array_split_Ok {A} (ary : list A) P :
  1 ≤ P → ∃ parts, array_split ary P = Ok parts.
Proof.
  intros HP. unfold array_split.
  destruct (Nat.leb_spec P 0); [lia|]. eexists. reflexivity.
Qed.

Lemma array_split_inv {A} (ary : list A) P parts :
  array_split ary P = Ok parts →
  1 ≤ P ∧ length parts = P ∧ concat parts = ary.
Proof.
  unfold array_split. destruct (Nat.leb_spec P 0) as [|HP]; [discriminate|].
  intros E. apply Ok_inj in E. subst parts. split; [lia|]. split.
  - rewrite length_fmap, length_seq. reflexivity.
  - unfold cumsum. cbn [cumsum_from]. change (0 + 0) with 0.
    pose proof (slices_concat ary
      (replicate (length ary mod P) (length ary / P + 1)
         ++ replicate (P - length ary mod P) (length ary / P)) 0) as E.
    rewrite section_sizes_length, section_sizes_sum in E by exact HP.
    rewrite E, drop_0. apply firstn_all.
Qed.

Lemma array_split_nonempty {A} (ary : list A) P parts :
  array_split ary P = Ok parts →
  P ≤ length ary →
  Forall (λ p, p ≠ []) parts.
Proof.
  unfold array_split. destruct (Nat.leb_spec P 0) as [|HP]; [discriminate|].
  intros E Hle. apply Ok_inj in E. subst parts.
  unfold cumsum. cbn [cumsum_from]. change (0 + 0) with 0.
  pose proof (slices_nonempty ary
    (replicate (length ary mod P) (length ary / P + 1)
       ++ replicate (P - length ary mod P) (length ary / P)) 0) as E.
  rewrite section_sizes_length in E by exact HP. apply E.
  - assert (1 ≤ length ary / P) as Hq
      by (apply Nat.div_le_lower_bound; lia).
    apply Forall_app. split; apply Forall_replicate; lia.
  - rewrite section_sizes_sum by exact HP. lia.
Qed.

Example array_split_7_3 :
  array_split [1; 2; 3; 4; 5; 6; 7] 3 = Ok [[1; 2; 3]; [4; 5]; [6; 7]].
Proof. reflexivity. Qed.

End PartitionerFacts.

(** ** The row of an example *)

Section Rows.
Context `{Draco}.

#[local] Instance pair_left_inj (c : string) : Inj (=) (=) (pair (B := string) c).
Proof. intros x y E. injection E as E. exact E. Qed.

Lemma row_specs_negative ex vn vp f :
  default NaN (row_specs ex vn vp !! ("negative", f)) = count_cell vn f.
Proof.
  unfold row_specs, count_cell.
  rewrite !lookup_insert_ne by discriminate.
  rewrite lookup_union_r.
  - rewrite (lookup_kmap (pair "negative")), lookup_fmap.
    destruct (vn !! f); reflexivity.
  - apply lookup_kmap_None; [apply _|]. intros i E. discriminate E.
Qed.

Lemma row_specs_positive ex vn vp f :
  default NaN (row_specs ex vn vp !! ("positive", f)) = count_cell vp f.
Proof.
  unfold row_specs, count_cell.
  rewrite !lookup_insert_ne by discriminate.
  destruct (vp !! f) as [n|] eqn:E.
  - erewrite lookup_union_Some_l; [reflexivity|].
    rewrite (lookup_kmap (pair "positive")), lookup_fmap, E. reflexivity.
  - rewrite lookup_union_r.
    + rewrite (proj2 (lookup_kmap_None (pair "negative") _ _)); [reflexivity|].
      intros i E'. discriminate E'.
    + rewrite (lookup_kmap (pair "positive")), lookup_fmap, E. reflexivity.
Qed.

Lemma row_specs_source ex vn vp :
  row_specs ex vn vp !! ("source", "") = Some (CObj (source ex)).
Proof.
  unfold row_specs. rewrite lookup_insert_ne by discriminate.
  apply lookup_insert_eq.
Qed.

Lemma row_specs_task ex vn vp :
  row_specs ex vn vp !! ("task", "") = Some (CObj (task ex)).
Proof. unfold row_specs. apply lookup_insert_eq. Qed.

Lemma get_nested_index_eq :
  get_nested_index
  = (pair "negative" <$> get_feature_names)
    ++ (pair "positive" <$> get_feature_names)
    ++ [("source", ""); ("task", "")].
Proof.
  unfold get_nested_index, from_product. cbn.
  rewrite app_nil_r, <- app_assoc. reflexivity.
Qed.

(** The single row that [pd.DataFrame(specs, columns=columns, ...)] builds
    in the loop body. *)
Lemma pd_DataFrame_row ex vn vp :
  pd_DataFrame (row_specs ex vn vp) get_nested_index (pair_id ex)
  = mkDataFrame get_nested_index [(pair_id ex, feature_row ex vn vp)].
Proof.
  unfold pd_DataFrame, feature_row. do 3 f_equal.
  rewrite get_nested_index_eq, !fmap_app, <- !list_fmap_compose.
  f_equal; [|f_equal].
  - apply list_fmap_ext. intros i f _. apply row_specs_negative.
  - apply list_fmap_ext. intros i f _. apply row_specs_positive.
  - cbn. rewrite row_specs_source, row_specs_task. reflexivity.
Qed.

Lemma feature_row_length ex vn vp :
  length (feature_row ex vn vp) = length get_nested_index.
Proof.
  unfold feature_row. rewrite get_nested_index_eq.
  rewrite !length_app, !length_fmap. reflexivity.
Qed.

Lemma feature_row_negative ex vn vp :
  negative_cells (feature_row ex vn vp) = count_cell vn <$> get_feature_names.
Proof.
  unfold negative_cells, feature_row.
  rewrite take_app_length'; [reflexivity|]. rewrite length_fmap. reflexivity.
Qed.

Lemma feature_row_positive ex vn vp :
  positive_cells (feature_row ex vn vp) = count_cell vp <$> get_feature_names.
Proof.
  unfold positive_cells, feature_row.
  rewrite drop_app_length' by (rewrite length_fmap; reflexivity).
  rewrite take_app_length'; [reflexivity|]. rewrite length_fmap. reflexivity.
Qed.

Lemma feature_row_task ex vn vp :
  task_cell (feature_row ex vn vp) = Some (CObj (task ex)).
Proof.
  unfold task_cell, feature_row.
  rewrite lookup_app_r by (rewrite length_fmap; lia).
  rewrite lookup_app_r by (rewrite !length_fmap; lia).
  rewrite !length_fmap.
  replace (2 * length get_feature_names + 1 - length get_feature_names
           - length get_feature_names) with 1 by lia.
  reflexivity.
Qed.
End Rows.

(** ** One worker alone: the interpreter [exec] *)

Section Sequential.
Context `{Draco}.

Lemma exec_bind {A B} (p : prog A) (f : A → prog B) σ :
  exec (bind p f) σ
  = match exec p σ with
    | (Ok a, σ') => exec (f a) σ'
    | (Raise e, σ') => (Raise e, σ')
    end.
Proof.
  revert σ. induction p as [a|e|key k IH|key v k IH|key k IH|t k IH];
    intros σ; cbn [bind exec]; try reflexivity.
  - apply IH.
  - apply IH.
  - destruct (processed_specs σ !! key); [apply IH|reflexivity].
  - destruct (count_violations t); [apply IH|reflexivity].
Qed.

Lemma exec_lift {A} (r : res A) σ : exec (lift r) σ = (r, σ).
Proof. destruct r; reflexivity. Qed.

Lemma store_le_refl σ : store_le σ σ.
Proof. split; [reflexivity|]. split; intros X; exact X. Qed.

Lemma store_le_trans σ1 σ2 σ3 : store_le σ1 σ2 → store_le σ2 σ3 → store_le σ1 σ3.
Proof.
  intros (S1 & C1 & L1) (S2 & C2 & L2). split; [by etrans|].
  split; intros X; [apply C2, C1, X|apply L2, L1, X].
Qed.

Lemma counted_empty : counted empty_store.
Proof. reflexivity. Qed.

Lemma clean_empty : clean empty_store.
Proof. split; [reflexivity|constructor]. Qed.

(** What a memoised resolution does to the store. *)
Lemma exec_count_violations_memoized t σ :
  exec (count_violations_memoized t) σ
  = match Task_to_asp t with
    | Raise e => (Raise e, σ)
    | Ok key =>
        match processed_specs σ !! key with
        | Some v => (Ok v, σ)
        | None =>
            match count_violations t with
            | Ok v =>
                (Ok v, mkStore (<[key := v]> (processed_specs σ))
                         (S (cache_misses σ)) (solver_calls σ ++ [t]))
            | Raise e =>
                (Raise e, mkStore (processed_specs σ)
                            (S (cache_misses σ)) (solver_calls σ ++ [t]))
            end
        end
    end.
Proof.
  unfold count_violations_memoized. rewrite exec_bind, exec_lift.
  destruct (Task_to_asp t) as [key|e]; [|reflexivity].
  destruct σ as [d m calls]. cbn [exec processed_specs cache_misses solver_calls bind].
  destruct (d !! key) as [v|] eqn:E.
  - rewrite bool_decide_eq_true_2 by eauto. cbn. rewrite E. reflexivity.
  - rewrite bool_decide_eq_false_2 by (intros [? ?]; congruence). cbn.
    destruct (count_violations t) as [v|e]; [|reflexivity].
    cbn. rewrite lookup_insert_eq. reflexivity.
Qed.

Lemma store_ext_refl σ : store_ext σ σ.
Proof. split; [reflexivity|]. split; done. Qed.

Lemma store_ext_trans σ1 σ2 σ3 :
  store_ext σ1 σ2 → store_ext σ2 σ3 → store_ext σ1 σ3.
Proof.
  intros (S1 & C1 & K1) (S2 & C2 & K2). split; [by etrans|].
  split; intros X; [apply C2, C1, X|apply K2, K1, X].
Qed.

Lemma cache_ok_insert d key v :
  cache_ok d → solved key v → cache_ok (<[key := v]> d).
Proof.
  intros Hd Hs key' v' E. destruct (decide (key = key')) as [<-|Hne].
  - rewrite lookup_insert_eq in E. by injection E as <-.
  - rewrite lookup_insert_ne in E by exact Hne. by eapply Hd.
Qed.

Lemma count_violations_memoized_ext t σ r σ' :
  exec (count_violations_memoized t) σ = (r, σ') → store_ext σ σ'.
Proof.
  rewrite exec_count_violations_memoized.
  destruct (Task_to_asp t) as [key|e] eqn:Ek;
    [|intros [= <- <-]; apply store_ext_refl].
  destruct (processed_specs σ !! key) eqn:E;
    [intros [= <- <-]; apply store_ext_refl|].
  unfold store_ext, counted.
  destruct (count_violations t) as [v|e] eqn:Ev; intros [= <- <-]; cbn;
    (split; [|split; [intros C; rewrite length_app; cbn; lia|]]).
  - by apply insert_subseteq.
  - intros Hd. apply cache_ok_insert; [exact Hd|by exists t].
  - reflexivity.
  - done.
Qed.

Lemma count_violations_memoized_Ok t σ v σ' :
  exec (count_violations_memoized t) σ = (Ok v, σ') →
  store_le σ σ'
  ∧ ∃ key, Task_to_asp t = Ok key ∧ processed_specs σ' !! key = Some v.
Proof.
  rewrite exec_count_violations_memoized.
  destruct (Task_to_asp t) as [key|e]; [|discriminate].
  destruct (processed_specs σ !! key) as [v0|] eqn:E.
  - intros [= <- <-]. split; [apply store_le_refl|]. eauto.
  - destruct (count_violations t) as [v1|e] eqn:Ec; [|discriminate].
    intros [= <- <-]. split.
    + split; [cbn; by apply insert_subseteq|]. split.
      * unfold counted. cbn. rewrite length_app. cbn. lia.
      * intros [Hs Hf]. split; cbn.
        -- rewrite map_size_insert_None by exact E.
           rewrite length_app. cbn. lia.
        -- apply Forall_app. split; [exact Hf|].
           constructor; [|constructor]. exists v1. exact Ec.
    + exists key. split; [reflexivity|]. cbn. apply lookup_insert_eq.
Qed.

(** One iteration of the loop that succeeds leaves the frame of the
    example, built from what the dictionary now holds. *)
Lemma vectorize_example_Ok example encoding_cnt σ r σ' :
  exec (vectorize_example get_nested_index example encoding_cnt) σ = (Ok r, σ') →
  store_le σ σ' ∧ vectorized (processed_specs σ') example r.1.
Proof.
  unfold vectorize_example. rewrite exec_bind, exec_lift.
  destruct (resolve example) as [ex|e] eqn:Er; [|discriminate].
  rewrite exec_bind, exec_lift.
  destruct (Query_from_vegalite (negative ex) 0) as [qn|e] eqn:Eqn; [|discriminate].
  rewrite exec_bind.
  destruct (exec (count_violations_memoized _) σ) as [[vn|e] σ1] eqn:E1;
    [|discriminate].
  apply count_violations_memoized_Ok in E1 as (L1 & kn & Ekn & Hvn).
  rewrite exec_bind, exec_lift.
  destruct (Query_from_vegalite (positive ex) qn.2) as [qp|e] eqn:Eqp; [|discriminate].
  rewrite exec_bind.
  destruct (exec (count_violations_memoized _) σ1) as [[vp|e] σ2] eqn:E2;
    [|discriminate].
  apply count_violations_memoized_Ok in E2 as (L2 & kp & Ekp & Hvp).
  cbn [exec]. intros [= <- <-]. split; [by eapply store_le_trans|].
  exists (pair_id ex, feature_row ex vn vp). split; [|apply pd_DataFrame_row].
  exists ex, (mkTask (data ex) qn.1 (task ex)), (mkTask (data ex) qp.1 (task ex)),
    kn, kp, vn, vp.
  unfold negative_task, positive_task. rewrite Eqn. cbn. rewrite Eqp. cbn.
  repeat split; try done.
  eapply lookup_weaken; [exact Hvn|apply L2].
Qed.

Lemma vectorize_example_ext cols example encoding_cnt σ r σ' :
  exec (vectorize_example cols example encoding_cnt) σ = (r, σ') →
  store_ext σ σ'.
Proof.
  unfold vectorize_example. rewrite exec_bind, exec_lift.
  destruct (resolve example) as [ex|e];
    [|intros [= <- <-]; apply store_ext_refl].
  rewrite exec_bind, exec_lift.
  destruct (Query_from_vegalite (negative ex) 0) as [qn|e];
    [|intros [= <- <-]; apply store_ext_refl].
  rewrite exec_bind.
  destruct (exec (count_violations_memoized _) σ) as [[vn|e] σ1] eqn:E1.
  2:{ intros [= <- <-]. by eapply count_violations_memoized_ext. }
  apply count_violations_memoized_ext in E1.
  rewrite exec_bind, exec_lift.
  destruct (Query_from_vegalite (positive ex) qn.2) as [qp|e];
    [|by intros [= <- <-]].
  rewrite exec_bind.
  destruct (exec (count_violations_memoized _) σ1) as [[vp|e] σ2] eqn:E2;
    apply count_violations_memoized_ext in E2;
    cbn [exec]; intros [= <- <-]; by eapply store_ext_trans.
Qed.

(** The entry value of the counter is overwritten before it is read. *)
Lemma vectorize_example_reset cols example cnt1 cnt2 :
  vectorize_example cols example cnt1 = vectorize_example cols example cnt2.
Proof. reflexivity. Qed.

Lemma vectorized_row_mono d d' example row :
  d ⊆ d' → vectorized_row d example row → vectorized_row d' example row.
Proof.
  intros Hd (ex & tn & tp & kn & kp & vn & vp & ? & ? & ? & ? & ? & Hn & Hp & ?).
  exists ex, tn, tp, kn, kp, vn, vp.
  repeat split; try done; eapply lookup_weaken; eauto.
Qed.

(** The frames appended by the loop: one single-row frame per example, in
    the order of the partition. *)
Lemma partition_loop_Ok partition dfs encoding_cnt σ r σ' :
  exec (partition_loop get_nested_index partition dfs encoding_cnt) σ = (Ok r, σ') →
  store_le σ σ'
  ∧ ∃ rows, Forall2 (vectorized_row (processed_specs σ')) partition rows
            ∧ r.1 = dfs ++ ((λ row, mkDataFrame get_nested_index [row]) <$> rows).
Proof.
  revert dfs encoding_cnt σ r σ'.
  induction partition as [|example rest IH]; intros dfs encoding_cnt σ r σ'.
  - cbn. intros [= <- <-]. split; [apply store_le_refl|].
    exists []. split; [constructor|]. cbn. by rewrite app_nil_r.
  - cbn [partition_loop]. rewrite exec_bind.
    destruct (exec (vectorize_example _ _ _) σ) as [[r1|e] σ1] eqn:E1;
      [|discriminate].
    apply vectorize_example_Ok in E1 as (L1 & row & Hrow & Hdf).
    intros E2. apply IH in E2 as (L2 & rows & Hrows & Hr).
    split; [by eapply store_le_trans|].
    exists (row :: rows). split.
    + constructor; [|exact Hrows].
      eapply vectorized_row_mono; [apply L2|exact Hrow].
    + rewrite Hr, Hdf, <- app_assoc. reflexivity.
Qed.

Lemma partition_loop_ext cols partition dfs encoding_cnt σ r σ' :
  exec (partition_loop cols partition dfs encoding_cnt) σ = (r, σ') →
  store_ext σ σ'.
Proof.
  revert dfs encoding_cnt σ r σ'.
  induction partition as [|example rest IH]; intros dfs encoding_cnt σ r σ'.
  - cbn. intros [= <- <-]. apply store_ext_refl.
  - cbn [partition_loop]. rewrite exec_bind.
    destruct (exec (vectorize_example _ _ _) σ) as [[r1|e] σ1] eqn:E1;
      apply vectorize_example_ext in E1.
    + intros E2. apply IH in E2. by eapply store_ext_trans.
    + by intros [= <- <-].
Qed.

Lemma pd_concat_single_rows (rows : list (string * list cell)) :
  rows ≠ [] →
  pd_concat ((λ row, mkDataFrame get_nested_index [row]) <$> rows)
  = Ok (mkDataFrame get_nested_index rows).
Proof.
  generalize get_nested_index. intros cols.
  destruct rows as [|row rows]; [done|]. intros _. cbn. do 3 f_equal.
  induction rows as [|row' rows IH]; [reflexivity|]. cbn. by rewrite IH.
Qed.

(** A worker that returns has vectorised every example of its partition:
    one row each, in order, under the columns of [get_nested_index]. *)
Lemma pair_partition_to_vec_Ok partition encoding_cnt σ r σ' :
  exec (pair_partition_to_vec partition encoding_cnt) σ = (Ok r, σ') →
  store_le σ σ'
  ∧ ∃ rows, Forall2 (vectorized_row (processed_specs σ')) partition rows
            ∧ r.1 = mkDataFrame get_nested_index rows.
Proof.
  unfold pair_partition_to_vec. rewrite exec_bind.
  destruct (exec (partition_loop _ _ _ _) σ) as [[r1|e] σ1] eqn:E1; [|discriminate].
  apply partition_loop_Ok in E1 as (L1 & rows & Hrows & Hr).
  rewrite exec_bind, exec_lift, Hr. cbn [app].
  destruct rows as [|row rows]; [discriminate|].
  rewrite pd_concat_single_rows by discriminate.
  cbn [exec]. intros [= <- <-]. split; [exact L1|]. by exists (row :: rows).
Qed.

Lemma pair_partition_to_vec_ext partition encoding_cnt σ r σ' :
  exec (pair_partition_to_vec partition encoding_cnt) σ = (r, σ') →
  store_ext σ σ'.
Proof.
  unfold pair_partition_to_vec. rewrite exec_bind.
  destruct (exec (partition_loop _ _ _ _) σ) as [[r1|e] σ1] eqn:E1;
    apply partition_loop_ext in E1.
  - rewrite exec_bind, exec_lift.
    by destruct (pd_concat r1.1); cbn [exec]; intros [= <- <-].
  - by intros [= <- <-].
Qed.

(** The map over the tasks, when every task returns. *)
Lemma pool_map_Ok tasks encoding_cnt σ dfs σ' :
  pool_map pair_partition_to_vec tasks encoding_cnt σ = (Ok dfs, σ') →
  store_le σ σ'
  ∧ ∃ rowss, Forall2 (Forall2 (vectorized_row (processed_specs σ'))) tasks rowss
             ∧ dfs = mkDataFrame get_nested_index <$> rowss.
Proof.
  revert encoding_cnt σ dfs σ'.
  induction tasks as [|t rest IH]; intros encoding_cnt σ dfs σ'.
  - cbn. intros [= <- <-]. split; [apply store_le_refl|].
    exists []. split; [constructor|reflexivity].
  - cbn [pool_map].
    destruct (exec (pair_partition_to_vec t encoding_cnt) σ) as [[r|e] σ1] eqn:E1;
      [|discriminate].
    apply pair_partition_to_vec_Ok in E1 as (L1 & rows & Hrows & Hr).
    destruct (pool_map _ rest r.2 σ1) as [[dfs'|e] σ2] eqn:E2; [|discriminate].
    apply IH in E2 as (L2 & rowss & Hrowss & Hdfs).
    intros [= <- <-]. split; [by eapply store_le_trans|].
    exists (rows :: rowss). split.
    + constructor; [|exact Hrowss].
      eapply Forall2_impl; [exact Hrows|].
      intros ? ?. apply vectorized_row_mono, L2.
    + rewrite Hr, Hdfs. reflexivity.
Qed.

Lemma pool_map_ext tasks encoding_cnt σ r σ' :
  pool_map pair_partition_to_vec tasks encoding_cnt σ = (r, σ') →
  store_ext σ σ'.
Proof.
  revert encoding_cnt σ r σ'.
  induction tasks as [|t rest IH]; intros encoding_cnt σ r σ'.
  - cbn. intros [= <- <-]. apply store_ext_refl.
  - cbn [pool_map].
    destruct (exec (pair_partition_to_vec t encoding_cnt) σ) as [[r1|e] σ1] eqn:E1;
      apply pair_partition_to_vec_ext in E1.
    + destruct (pool_map _ rest r1.2 σ1) as [[dfs'|e] σ2] eqn:E2;
        apply IH in E2; intros [= <- <-]; by eapply store_ext_trans.
    + by intros [= <- <-].
Qed.
End Sequential.

(** ** [run_in_parallel], one task after the other *)

Section Run.
Context `{Draco}.
Import Partitioner PartitionerFacts.

Lemma Forall2_concat {A B} (P : A → B → Prop) ls ks :
  Forall2 (Forall2 P) ls ks → Forall2 P (concat ls) (concat ks).
Proof. induction 1; cbn; [constructor|by apply Forall2_app]. Qed.

Lemma concat_fmap_fmap {A B} (f : A → B) (ls : list (list A)) :
  concat ((λ l : list A, f <$> l) <$> ls) = f <$> concat ls.
Proof. induction ls as [|l ls IH]; cbn; [done|]. by rewrite IH, fmap_app. Qed.

Lemma df_split_inv data P tasks :
  df_split data P = Ok tasks →
  1 ≤ P ∧ length tasks = P ∧ concat tasks = items data.
Proof.
  unfold df_split.
  destruct (array_split _ P) as [parts|e] eqn:E; [|discriminate].
  cbn. intros [= <-]. apply array_split_inv in E as (HP & Hl & Hc).
  split; [exact HP|]. split; [by rewrite length_fmap|].
  unfold items. rewrite <- Hc. apply concat_fmap_fmap.
Qed.

Lemma df_split_nonempty data P tasks :
  df_split data P = Ok tasks → P ≤ length data → Forall (λ t, t ≠ []) tasks.
Proof.
  unfold df_split.
  destruct (array_split _ P) as [parts|e] eqn:E; [|discriminate].
  cbn. intros [= <-] HP. apply array_split_nonempty in E.
  - apply Forall_fmap. eapply Forall_impl; [exact E|].
    intros [|x l] Hx; [done|discriminate].
  - by rewrite length_fmap.
Qed.

Lemma df_split_Ok data P : 1 ≤ P → ∃ tasks, df_split data P = Ok tasks.
Proof.
  intros HP. unfold df_split.
  destruct (array_split_Ok (to_ndarray <$> data) P HP) as [parts ->].
  eexists. reflexivity.
Qed.

Lemma df_split_zero data : df_split data 0 = Raise ValueError.
Proof. reflexivity. Qed.

Lemma pd_concat_frames (rowss : list (list (string * list cell))) :
  rowss ≠ [] →
  pd_concat (mkDataFrame get_nested_index <$> rowss)
  = Ok (mkDataFrame get_nested_index (concat rowss)).
Proof.
  generalize get_nested_index. intros cols.
  destruct rowss as [|rows rowss]; [done|]. intros _. cbn. do 3 f_equal.
  induction rowss as [|rows' rowss IH]; [reflexivity|]. cbn. by rewrite IH.
Qed.

(** A run that returns a table has vectorised every example: the table is
    the rows of the examples, in the order of their labels. *)
Lemma run_in_parallel_store_Ok cpu_count data encoding_cnt T σ :
  run_in_parallel_store pair_partition_to_vec cpu_count data encoding_cnt
    = (Ok T, σ) →
  data ≠ [] ∧ counted σ ∧ clean σ
  ∧ ∃ rows, Forall2 (vectorized_row (processed_specs σ)) (items data) rows
            ∧ T = mkDataFrame get_nested_index (merge_sort row_le rows).
Proof.
  unfold run_in_parallel_store.
  destruct (df_split data _) as [tasks|e] eqn:Es; [|discriminate].
  apply df_split_inv in Es as (HP & Hl & Hc).
  destruct (pool_map _ tasks encoding_cnt empty_store) as [[dfs|e] σ1] eqn:Em;
    [|discriminate].
  apply pool_map_Ok in Em as ((_ & Hcnt & Hclean) & rowss & Hrowss & ->).
  assert (rowss ≠ []) as Hne.
  { intros ->. apply Forall2_length in Hrowss. cbn in Hrowss. lia. }
  rewrite pd_concat_frames by exact Hne. intros [= <- <-].
  split.
  { intros ->. rewrite splits_empty in HP. lia. }
  split; [apply Hcnt, counted_empty|]. split; [apply Hclean, clean_empty|].
  exists (concat rowss). split; [|reflexivity].
  rewrite <- Hc. by apply Forall2_concat.
Qed.

(** With or without a table, each miss was followed by one call. *)
Lemma run_in_parallel_store_counted cpu_count data encoding_cnt r σ :
  run_in_parallel_store pair_partition_to_vec cpu_count data encoding_cnt = (r, σ) →
  counted σ.
Proof.
  unfold run_in_parallel_store.
  destruct (df_split data _) as [tasks|e]; [|by intros [= <- <-]].
  destruct (pool_map _ tasks encoding_cnt empty_store) as [[dfs|e] σ1] eqn:Em;
    apply pool_map_ext in Em as (_ & Hc & _).
  - destruct (pd_concat dfs); intros [= <- <-]; apply Hc, counted_empty.
  - intros [= <- <-]. apply Hc, counted_empty.
Qed.

(** The dictionary only ever holds results of the solver. *)
Lemma run_in_parallel_store_cache_ok cpu_count data encoding_cnt r σ :
  run_in_parallel_store pair_partition_to_vec cpu_count data encoding_cnt = (r, σ) →
  cache_ok (processed_specs σ).
Proof.
  assert (cache_ok (processed_specs empty_store)) as H0.
  { intros key v E. cbn in E. by rewrite lookup_empty in E. }
  unfold run_in_parallel_store.
  destruct (df_split data _) as [tasks|e]; [|by intros [= <- <-]].
  destruct (pool_map _ tasks encoding_cnt empty_store) as [[dfs|e] σ1] eqn:Em;
    apply pool_map_ext in Em as (_ & _ & Hc).
  - destruct (pd_concat dfs); intros [= <- <-]; apply Hc, H0.
  - intros [= <- <-]. apply Hc, H0.
Qed.

(** The row of each example is in the table of a run that returns one. *)
Lemma run_in_parallel_store_row cpu_count data encoding_cnt T σ e :
  run_in_parallel_store pair_partition_to_vec cpu_count data encoding_cnt
    = (Ok T, σ) →
  e ∈ data →
  ∃ row, row ∈ df_rows T
         ∧ vectorized_row (processed_specs σ) (ItNdarray (to_ndarray e)) row.
Proof.
  intros Hrun Hin.
  apply run_in_parallel_store_Ok in Hrun as (_ & _ & _ & rows & Hrows & ->).
  assert (ItNdarray (to_ndarray e) ∈ items data) as Hit.
  { unfold items. by do 2 apply list_elem_of_fmap_2. }
  apply list_elem_of_lookup in Hit as [i Hi].
  destruct (Forall2_lookup_l _ _ _ _ _ Hrows Hi) as (row & Hrow & Hv).
  exists row. split; [|exact Hv]. cbn [df_rows].
  rewrite merge_sort_Permutation. by eapply list_elem_of_lookup_2.
Qed.

Lemma run_in_parallel_store_sorted cpu_count data encoding_cnt T σ :
  run_in_parallel_store pair_partition_to_vec cpu_count data encoding_cnt
    = (Ok T, σ) →
  Sorted str_le (df_index T).
Proof.
  intros Hrun.
  apply run_in_parallel_store_Ok in Hrun as (_ & _ & _ & rows & Hrows & ->).
  unfold df_index. cbn [df_rows].
  eapply Sorted_fmap with (R1 := row_le); [by intros ? ?|].
  apply Sorted_merge_sort, _.
Qed.

(** No floor on the number of partitions: an empty list is split in zero
    sections, which numpy rejects. *)
Lemma run_in_parallel_store_empty func cpu_count encoding_cnt :
  run_in_parallel_store func cpu_count [] encoding_cnt
  = (Raise ValueError, empty_store).
Proof.
  unfold run_in_parallel_store. cbn [length]. rewrite splits_empty.
  reflexivity.
Qed.

Lemma merge_sort_rows_length (rows : list (string * list cell)) :
  length (merge_sort row_le rows) = length rows.
Proof. apply Permutation_length, merge_sort_Permutation. Qed.
Lemma vectorized_row_length d example row :
  vectorized_row d example row → length row.2 = length get_nested_index.
Proof.
  intros (ex & tn & tp & kn & kp & vn & vp & _ & _ & _ & _ & _ & _ & _ & ->).
  apply feature_row_length.
Qed.

(** Every row of the table has a cell for each column. *)
Lemma run_in_parallel_store_columns cpu_count data encoding_cnt T σ :
  run_in_parallel_store pair_partition_to_vec cpu_count data encoding_cnt
    = (Ok T, σ) →
  df_columns T = get_nested_index
  ∧ Forall (λ row, length row.2 = length (df_columns T)) (df_rows T).
Proof.
  intros Hrun.
  apply run_in_parallel_store_Ok in Hrun as (_ & _ & _ & rows & Hrows & ->).
  cbn [df_columns df_rows]. split; [done|].
  rewrite merge_sort_Permutation. apply Forall_forall. intros row Hin.
  apply list_elem_of_lookup in Hin as [i Hi].
  destruct (Forall2_lookup_r _ _ _ _ _ Hrows Hi) as (example & _ & Hv).
  by eapply vectorized_row_length.
Qed.

Lemma resolve_ndarray e :
  resolve (ItNdarray (to_ndarray e)) = Ok (as_posneg e).
Proof. reflexivity. Qed.

Lemma as_posneg_pair_id e : pair_id (as_posneg e) = example_pair_id e.
Proof. by destruct e as [[]|[]]. Qed.

Lemma vectorized_row_label d example row :
  vectorized_row d example row →
  ∃ ex, resolve example = Ok ex ∧ row.1 = pair_id ex.
Proof.
  intros (ex & tn & tp & kn & kp & vn & vp & Hr & _ & _ & _ & _ & _ & _ & ->).
  by exists ex.
Qed.

Lemma vectorized_rows_labels d data rows :
  Forall2 (vectorized_row d) (items data) rows →
  fst <$> rows = example_pair_id <$> data.
Proof.
  unfold items. rewrite <- list_fmap_compose. intros Hrows.
  rewrite Forall2_fmap_l in Hrows.
  induction Hrows as [|e row data' rows' Hrow _ IH]; [reflexivity|].
  rewrite !fmap_cons. f_equal; [|exact IH].
  apply vectorized_row_label in Hrow as (ex & Hr & ->).
  cbn in Hr. injection Hr as <-. apply as_posneg_pair_id.
Qed.

(** One row per example: the labels of the table are the identifiers of
    the examples, reordered. *)
Lemma run_in_parallel_store_index cpu_count data encoding_cnt T σ :
  run_in_parallel_store pair_partition_to_vec cpu_count data encoding_cnt
    = (Ok T, σ) →
  df_index T ≡ₚ example_pair_id <$> data ∧ df_len T = length data.
Proof.
  intros Hrun.
  apply run_in_parallel_store_Ok in Hrun as (_ & _ & _ & rows & Hrows & ->).
  apply vectorized_rows_labels in Hrows.
  unfold df_index, df_len. cbn [df_rows]. split.
  - rewrite <- Hrows. apply fmap_Permutation, merge_sort_Permutation.
  - rewrite merge_sort_rows_length, <- (length_fmap fst), Hrows.
    apply length_fmap.
Qed.

End Run.

(** ** Workers interleaved: the logic [wp] *)

Section Logic.
Context `{Draco}.

Lemma wp_mono {A} K K' (p : prog A) (Q Q' : res A → Prop) :
  wp K p Q → K ⊆ K' → (∀ r, Q r → Q' r) → wp K' p Q'.
Proof.
  intros Hwp. revert K' Q'.
  induction Hwp as [K a Q HQ|K e Q HQ|K key k Q _ IHt _ IHf|K key v k Q Hs _ IH
                   |K key k Q Hin _ IH|K t k Q _ IH HQ];
    intros K' Q' HK HQQ.
  - apply wp_Ret, HQQ, HQ.
  - apply wp_Throw, HQQ, HQ.
  - apply wp_Contains; [apply IHt|apply IHf]; try done.
    by apply union_mono_l.
  - apply wp_SetItem; [exact Hs|]. apply IH; [|done]. by apply union_mono_l.
  - apply wp_GetItem; [by eapply elem_of_weaken|].
    intros v Hv. by apply IH.
  - apply wp_CountViolations.
    + intros v Hv. by apply IH.
    + intros e He. apply HQQ, HQ, He.
Qed.

Lemma wp_bind {A B} K (p : prog A) (f : A → prog B) (Q0 : res A → Prop)
    (Q : res B → Prop) :
  wp K p Q0 →
  (∀ a K', K ⊆ K' → Q0 (Ok a) → wp K' (f a) Q) →
  (∀ e, Q0 (Raise e) → Q (Raise e)) →
  wp K (bind p f) Q.
Proof.
  intros Hwp. revert Q.
  induction Hwp as [K a Q0 HQ|K e Q0 HQ|K key k Q0 _ IHt _ IHf|K key v k Q0 Hs _ IH
                   |K key k Q0 Hin _ IH|K t k Q0 _ IH HQ];
    intros Q Hok Hraise; cbn [bind].
  - by apply Hok.
  - apply wp_Throw, Hraise, HQ.
  - apply wp_Contains.
    + apply IHt; [|exact Hraise]. intros a K' HK. apply Hok.
      etrans; [apply union_subseteq_r|exact HK].
    + by apply IHf.
  - apply wp_SetItem; [exact Hs|].
    apply IH; [|exact Hraise]. intros a K' HK. apply Hok.
    etrans; [apply union_subseteq_r|exact HK].
  - apply wp_GetItem; [exact Hin|]. intros v Hv. by apply IH.
  - apply wp_CountViolations.
    + intros v Hv. by apply IH.
    + intros e He. apply Hraise, HQ, He.
Qed.

Lemma wp_lift {A} K (r : res A) : wp K (lift r) (λ r', r' = r).
Proof. destruct r; constructor; reflexivity. Qed.

(** A run of a worker alone is one of the runs [wp] speaks of. *)
Lemma wp_exec {A} K (p : prog A) Q σ :
  wp K p Q → cache_ok (processed_specs σ) → K ⊆ dom (processed_specs σ) →
  Q (exec p σ).1 ∧ cache_ok (processed_specs (exec p σ).2).
Proof.
  intros Hwp. revert σ.
  induction Hwp as [K a Q HQ|K e Q HQ|K key k Q _ IHt _ IHf|K key v k Q Hs _ IH
                   |K key k Q Hin _ IH|K t k Q _ IH HQ];
    intros σ Hok HK; cbn [exec].
  - by split.
  - by split.
  - destruct (processed_specs σ !! key) as [v|] eqn:E.
    + rewrite bool_decide_eq_true_2 by eauto. apply IHt; cbn; [exact Hok|].
      apply elem_of_dom_2 in E. apply union_least; [|exact HK].
      by apply singleton_subseteq_l.
    + rewrite bool_decide_eq_false_2 by (intros [? ?]; congruence).
      by apply IHf.
  - apply IH; cbn.
    + intros key' v' E. destruct (decide (key = key')) as [<-|Hne].
      * rewrite lookup_insert_eq in E. by injection E as <-.
      * rewrite lookup_insert_ne in E by exact Hne. by eapply Hok.
    + rewrite dom_insert_L. by apply union_mono_l.
  - assert (is_Some (processed_specs σ !! key)) as [v E].
    { apply elem_of_dom. by eapply elem_of_weaken. }
    rewrite E. apply IH; [by eapply Hok|exact Hok|exact HK].
  - destruct (count_violations t) as [v|e] eqn:E.
    + by apply IH.
    + split; [by apply HQ|exact Hok].
Qed.

(** *** The worker, under the contract of the solver *)

Context (pure : solver_pure).

Lemma solved_solve t key v :
  Task_to_asp t = Ok key → solved key v → solve t = Ok v.
Proof.
  intros Ek (t' & Ek' & Ev). unfold solve. rewrite Ek. cbn.
  rewrite (pure t t' key Ek Ek'). exact Ev.
Qed.

Lemma wp_count_violations_memoized K t :
  wp K (count_violations_memoized t) (λ r, r = solve t).
Proof.
  unfold count_violations_memoized, solve.
  destruct (Task_to_asp t) as [key|e] eqn:Ek; cbn [res_bind lift bind];
    [|by constructor].
  apply wp_Contains; cbn [negb bind].
  - apply wp_GetItem; [apply elem_of_union_l; by apply elem_of_singleton|].
    intros v Hv. constructor.
    symmetry. rewrite <- (solved_solve t key v Ek Hv). unfold solve.
    by rewrite Ek.
  - apply wp_CountViolations; [|by intros e ->].
    intros v Ev. cbn [bind]. apply wp_SetItem; [by exists t|].
    apply wp_GetItem; [apply elem_of_union_l; by apply elem_of_singleton|].
    intros v' Hv'. constructor.
    rewrite Ev. f_equal.
    pose proof (solved_solve t key v' Ek Hv') as E. unfold solve in E.
    rewrite Ek in E. cbn [res_bind] in E. congruence.
Qed.

Lemma wp_vectorize_example K example encoding_cnt :
  wp K (vectorize_example get_nested_index example encoding_cnt)
    (λ r, agrees (λ a row, a.1 = mkDataFrame get_nested_index [row])
            r (example_row example)).
Proof.
  unfold vectorize_example, example_row.
  eapply wp_bind; [apply wp_lift| |by intros e <-].
  intros ex K1 _ <-. cbn [res_bind]. unfold negative_task at 1.
  eapply wp_bind; [apply wp_lift| |by intros e <-].
  intros qn K2 _ Eqn. rewrite <- Eqn. cbn [res_bind].
  eapply wp_bind; [apply wp_count_violations_memoized| |by intros e <-].
  intros vn K3 _ <-. cbn [res_bind]. unfold positive_task.
  rewrite <- Eqn. cbn [res_bind].
  eapply wp_bind; [apply wp_lift| |by intros e <-].
  intros qp K4 _ <-. cbn [res_bind].
  eapply wp_bind; [apply wp_count_violations_memoized| |by intros e <-].
  intros vp K5 _ <-. cbn [res_bind]. constructor.
  apply pd_DataFrame_row.
Qed.

Lemma wp_partition_loop K partition dfs encoding_cnt :
  wp K (partition_loop get_nested_index partition dfs encoding_cnt)
    (λ r, agrees
            (λ a rows,
               a.1 = dfs ++ ((λ row, mkDataFrame get_nested_index [row]) <$> rows))
            r (example_rows partition)).
Proof.
  revert K dfs encoding_cnt.
  induction partition as [|example rest IH]; intros K dfs encoding_cnt.
  - constructor. cbn. by rewrite app_nil_r.
  - cbn [partition_loop example_rows].
    eapply wp_bind; [apply wp_vectorize_example| |].
    + intros a K' _ Ha. unfold agrees in Ha.
      destruct (example_row example) as [row|e]; [|done].
      cbn [res_bind]. eapply wp_mono; [apply IH|done|].
      intros r Hr. unfold agrees in *.
      destruct r as [a'|e]; destruct (example_rows rest) as [rows|e'];
        cbn [res_bind]; try done.
      rewrite Hr, Ha, <- app_assoc. reflexivity.
    + intros e He. unfold agrees in He.
      by destruct (example_row example) as [row|e'].
Qed.

(** Whatever the other workers do, a worker ends with the frame of its
    partition, or with the exception of the first example that fails. *)
Lemma wp_pair_partition_to_vec K partition encoding_cnt :
  wp K (pair_partition_to_vec partition encoding_cnt)
    (λ r, agrees (λ a df, a.1 = df) r (partition_frame partition)).
Proof.
  unfold pair_partition_to_vec, partition_frame.
  eapply wp_bind; [apply wp_partition_loop| |].
  - intros a K' _ Ha. unfold agrees in Ha.
    destruct (example_rows partition) as [rows|e]; [|done].
    cbn [res_bind]. rewrite Ha. cbn [app].
    eapply wp_bind; [apply wp_lift| |by intros e <-].
    intros df K'' _ <-. by constructor.
  - intros e He. unfold agrees in He.
    by destruct (example_rows partition) as [rows|e'].
Qed.
End Logic.

(** ** The pool under an arbitrary schedule *)

Section PoolFacts.
Context `{Draco}.

Lemma job_ok_mono outcome d d' t j :
  dom d ⊆ dom d' → job_ok outcome d t j → job_ok outcome d' t j.
Proof.
  intros Hd. destruct j as [t'|p|r]; cbn; [done| |done].
  intros (K & HK & Hwp). exists K. split; [by etrans|exact Hwp].
Qed.

Lemma jobs_update outcome d d' tasks jobs i t j :
  Forall2 (job_ok outcome d) tasks jobs →
  dom d ⊆ dom d' →
  tasks !! i = Some t →
  job_ok outcome d' t j →
  Forall2 (job_ok outcome d') tasks (<[i := j]> jobs).
Proof.
  intros Hj Hd Ht Hnew. rewrite <- (list_insert_id tasks i t Ht).
  apply Forall2_insert; [|exact Hnew].
  eapply Forall2_impl; [exact Hj|]. intros ? ?. by apply job_ok_mono.
Qed.

Lemma pool_step_inv func processes outcome tasks st st' :
  (∀ t encoding_cnt,
     wp ∅ (func t encoding_cnt) (λ r, agrees (λ a df, a.1 = df) r (outcome t))) →
  pool_inv outcome tasks st →
  pool_step func processes st st' →
  pool_inv outcome tasks st'.
Proof.
  intros Hfunc [Hc Hj] Hstep.
  destruct Hstep as [d jobs i t cnt Hi _|d jobs i a Hi|d jobs i e Hi
                    |d jobs i key k Hi|d jobs i key v k Hi
                    |d jobs i key k v Hi Hv|d jobs i key k Hi Hv
                    |d jobs i t k v Hi Hv|d jobs i t k e Hi He];
    unfold pool_inv; cbn [fst snd] in *;
    destruct (Forall2_lookup_r _ _ _ _ _ Hj Hi) as (t0 & Ht0 & Hok);
    cbn [job_ok] in Hok.
  - subst t0. split; [exact Hc|]. eapply jobs_update; eauto.
    exists ∅. split; [apply empty_subseteq|apply Hfunc].
  - destruct Hok as (K & HK & Hwp). inversion Hwp as [? ? ? HQ| | | | |]; subst.
    split; [exact Hc|]. eapply jobs_update; eauto. cbn.
    unfold agrees in HQ. destruct (outcome t0); [by f_equal|done].
  - destruct Hok as (K & HK & Hwp). inversion Hwp as [|? ? ? HQ | | | |]; subst.
    split; [exact Hc|]. eapply jobs_update; eauto. cbn.
    unfold agrees in HQ. destruct (outcome t0); [done|by f_equal].
  - destruct Hok as (K & HK & Hwp).
    inversion Hwp as [| |? ? ? ? Ht Hf| | |]; subst.
    split; [exact Hc|]. eapply jobs_update; eauto. cbn.
    destruct (d !! key) as [v|] eqn:E.
    + rewrite bool_decide_eq_true_2 by eauto. exists ({[key]} ∪ K).
      split; [|exact Ht]. apply union_least; [|exact HK].
      apply singleton_subseteq_l. by eapply elem_of_dom_2.
    + rewrite bool_decide_eq_false_2 by (intros [? ?]; congruence). by exists K.
  - destruct Hok as (K & HK & Hwp).
    inversion Hwp as [| | |? ? ? ? ? Hs Hk| |]; subst.
    split.
    + intros key' v' E. destruct (decide (key = key')) as [<-|Hne].
      * rewrite lookup_insert_eq in E. by injection E as <-.
      * rewrite lookup_insert_ne in E by exact Hne. by eapply Hc.
    + eapply jobs_update; eauto.
      * rewrite dom_insert_L. apply union_subseteq_r.
      * cbn. exists ({[key]} ∪ K). split; [|exact Hk].
        rewrite dom_insert_L. by apply union_mono_l.
  - destruct Hok as (K & HK & Hwp).
    inversion Hwp as [| | | |? ? ? ? Hin Hk|]; subst.
    split; [exact Hc|]. eapply jobs_update; eauto. cbn.
    exists K. split; [exact HK|]. apply Hk. by eapply Hc.
  - destruct Hok as (K & HK & Hwp).
    inversion Hwp as [| | | |? ? ? ? Hin Hk|]; subst.
    exfalso. apply (elem_of_weaken _ _ _ Hin), elem_of_dom in HK as [v E].
    congruence.
  - destruct Hok as (K & HK & Hwp).
    inversion Hwp as [| | | | |? ? ? ? Hk HQ]; subst.
    split; [exact Hc|]. eapply jobs_update; eauto. cbn.
    exists K. split; [exact HK|]. by apply Hk.
  - destruct Hok as (K & HK & Hwp).
    inversion Hwp as [| | | | |? ? ? ? Hk HQ]; subst.
    split; [exact Hc|]. eapply jobs_update; eauto. cbn.
    specialize (HQ e He). unfold agrees in HQ.
    destruct (outcome t0); [done|by f_equal].
Qed.

Lemma pool_steps_inv func processes outcome tasks st st' :
  (∀ t encoding_cnt,
     wp ∅ (func t encoding_cnt) (λ r, agrees (λ a df, a.1 = df) r (outcome t))) →
  pool_inv outcome tasks st →
  rtc (pool_step func processes) st st' →
  pool_inv outcome tasks st'.
Proof.
  intros Hfunc Hinv Hsteps. induction Hsteps as [|st1 st2 st3 Hstep _ IH];
    [exact Hinv|]. apply IH. by eapply pool_step_inv.
Qed.

Lemma pool_inv_init outcome tasks : pool_inv outcome tasks (∅, Pending <$> tasks).
Proof.
  split; cbn [fst snd]; [intros key v E; by rewrite lookup_empty in E|].
  apply Forall2_fmap_r, Forall_Forall2_diag, Forall_forall. by intros.
Qed.

(** Whatever the schedule, [pool.map] hands back the outcome of each task,
    or the exception that is the outcome of one of them. *)
Lemma pool_map_sched_sound func processes outcome tasks r :
  (∀ t encoding_cnt,
     wp ∅ (func t encoding_cnt) (λ r, agrees (λ a df, a.1 = df) r (outcome t))) →
  pool_map_sched func processes tasks r →
  match r with
  | Ok dfs => Forall2 (λ t df, outcome t = Ok df) tasks dfs
  | Raise e => ∃ t, t ∈ tasks ∧ outcome t = Raise e
  end.
Proof.
  intros Hfunc (d & jobs & Hsteps & Hres).
  pose proof (pool_steps_inv _ _ _ _ _ _ Hfunc (pool_inv_init _ _) Hsteps)
    as [_ Hj]. cbn [snd fst] in Hj.
  destruct Hres as [dfs|jobs e Hin].
  - rewrite Forall2_fmap_r in Hj. eapply Forall2_impl; [exact Hj|].
    intros t df Hok. cbn in Hok. by symmetry.
  - apply list_elem_of_lookup in Hin as [i Hi].
    destruct (Forall2_lookup_r _ _ _ _ _ Hj Hi) as (t & Ht & Hok).
    exists t. split; [by eapply list_elem_of_lookup_2|]. cbn in Hok. by symmetry.
Qed.
End PoolFacts.

(** ** Every schedule computes the same table *)

Section Determinism.
Context `{Draco}.
Import Partitioner PartitionerFacts.

Lemma example_rows_app l1 l2 :
  example_rows (l1 ++ l2)
  = res_bind (example_rows l1) (λ r1,
    res_bind (example_rows l2) (λ r2, Ok (r1 ++ r2))).
Proof.
  induction l1 as [|x l1 IH]; cbn [app example_rows res_bind].
  - by destruct (example_rows l2).
  - destruct (example_row x) as [row|e]; cbn [res_bind]; [|done].
    rewrite IH. destruct (example_rows l1) as [r1|e]; cbn [res_bind]; [|done].
    by destruct (example_rows l2).
Qed.

Lemma example_rows_length partition rows :
  example_rows partition = Ok rows → length rows = length partition.
Proof.
  revert rows. induction partition as [|x l IH]; intros rows; cbn.
  - by intros [= <-].
  - destruct (example_row x); [|done]. cbn.
    destruct (example_rows l) as [rows'|]; [|done]. cbn.
    intros [= <-]. cbn. f_equal. by apply IH.
Qed.

Lemma partition_frame_Ok t df :
  partition_frame t = Ok df →
  ∃ rows, example_rows t = Ok rows ∧ df = mkDataFrame get_nested_index rows.
Proof.
  unfold partition_frame. destruct (example_rows t) as [rows|e]; [|done].
  cbn [res_bind]. destruct rows as [|row rows]; [done|].
  rewrite pd_concat_single_rows by done. intros [= <-]. by eexists.
Qed.

Lemma partition_frame_nonempty t rows :
  t ≠ [] → example_rows t = Ok rows →
  partition_frame t = Ok (mkDataFrame get_nested_index rows).
Proof.
  intros Hne E. unfold partition_frame. rewrite E. cbn [res_bind].
  apply pd_concat_single_rows. intros ->.
  apply example_rows_length in E. by destruct t.
Qed.

Lemma frames_concat tasks dfs :
  Forall2 (λ t df, partition_frame t = Ok df) tasks dfs →
  ∃ rowss, example_rows (concat tasks) = Ok (concat rowss)
           ∧ dfs = mkDataFrame get_nested_index <$> rowss.
Proof.
  induction 1 as [|t df tasks dfs Ht _ (rowss & Hr & ->)].
  - by exists [].
  - apply partition_frame_Ok in Ht as (rows & Hrows & ->).
    exists (rows :: rowss). split; [|done]. cbn [concat].
    by rewrite example_rows_app, Hrows, Hr.
Qed.

Lemma example_rows_concat_elem tasks t :
  is_Ok (example_rows (concat tasks)) → t ∈ tasks → is_Ok (example_rows t).
Proof.
  induction tasks as [|t' tasks IH]; [by intros _ ?%elem_of_nil|].
  cbn [concat]. rewrite example_rows_app. intros [rows E] Hin.
  destruct (example_rows t') as [r1|] eqn:E1; [|done]. cbn in E.
  destruct (example_rows (concat tasks)) as [r2|] eqn:E2; [|done].
  apply elem_of_cons in Hin as [->|Hin]; [by eexists|].
  apply IH; [by eexists|exact Hin].
Qed.

Lemma example_rows_elem partition example :
  is_Ok (example_rows partition) → example ∈ partition →
  is_Ok (example_row example).
Proof.
  induction partition as [|x l IH]; [by intros _ ?%elem_of_nil|].
  cbn [example_rows]. intros [rows E] Hin.
  destruct (example_row x) as [row|] eqn:E1; [|done]. cbn in E.
  destruct (example_rows l) as [rows'|] eqn:E2; [|done].
  apply elem_of_cons in Hin as [->|Hin]; [by eexists|].
  apply IH; [by eexists|exact Hin].
Qed.

Lemma run_in_parallel_sched_empty func cpu_count r :
  run_in_parallel_sched func cpu_count [] r → r = Raise ValueError.
Proof.
  unfold run_in_parallel_sched. cbn [length]. rewrite splits_empty. cbn. done.
Qed.

Context (pure : solver_pure).

(** A table handed back by [pairs_to_vec], under any schedule and on any
    number of processors, is the table of the examples. *)
Lemma pairs_to_vec_sched_Ok cpu_count data T :
  pairs_to_vec_sched cpu_count data (Ok T) → expected_table data = Ok T.
Proof.
  unfold pairs_to_vec_sched, run_in_parallel_sched. cbv zeta.
  destruct (df_split data _) as [tasks|e] eqn:Es; [|done].
  apply df_split_inv in Es as (HP & Hl & Hc).
  intros (r' & Hsched & Hr).
  apply (pool_map_sched_sound _ _ partition_frame) in Hsched;
    [|intros; by apply wp_pair_partition_to_vec].
  destruct r' as [dfs|e]; [|done]. cbn [res_bind] in Hr.
  apply frames_concat in Hsched as (rowss & Hrows & ->).
  assert (rowss ≠ []) as Hne by (by intros ->).
  rewrite pd_concat_frames in Hr by exact Hne. cbn [res_bind] in Hr.
  injection Hr as ->. unfold expected_table. rewrite <- Hc, Hrows. done.
Qed.

(** A run that raises, on a machine with a processor, was given no example
    or an example that fails. *)
Lemma pairs_to_vec_sched_Raise cpu_count data e :
  1 ≤ cpu_count →
  pairs_to_vec_sched cpu_count data (Raise e) →
  data = [] ∨ is_Raise (expected_table data).
Proof.
  intros Hcpu. unfold pairs_to_vec_sched, run_in_parallel_sched. cbv zeta.
  destruct data as [|x data']; [by left|]. intros Hrun. right. revert Hrun.
  set (data := x :: data') in *.
  destruct (df_split data _) as [tasks|e'] eqn:Es.
  2:{ destruct (df_split_Ok data (splits cpu_count (length data))) as [? E].
      - apply splits_pos; [exact Hcpu|]. cbn. lia.
      - congruence. }
  pose proof (df_split_nonempty _ _ _ Es (splits_le_length _ _)) as Hne.
  apply df_split_inv in Es as (HP & Hl & Hc).
  intros (r' & Hsched & Hr).
  apply (pool_map_sched_sound _ _ partition_frame) in Hsched;
    [|intros; by apply wp_pair_partition_to_vec].
  unfold expected_table. rewrite <- Hc.
  destruct (example_rows (concat tasks)) as [rows|e'] eqn:Erows;
    [exfalso|by eexists].
  destruct r' as [dfs|e'].
  - cbn [res_bind] in Hr.
    pose proof (Forall2_length _ _ _ Hsched) as Hlen.
    apply frames_concat in Hsched as (rowss & Hrows & ->).
    destruct rowss as [|rows' rowss]; [|by rewrite pd_concat_frames in Hr].
    cbn in Hlen. lia.
  - destruct Hsched as (t & Hin & Ht).
    assert (is_Ok (example_rows t)) as [rows' E'].
    { eapply example_rows_concat_elem; [by eexists|exact Hin]. }
    rewrite (partition_frame_nonempty t rows') in Ht; [done| |exact E'].
    by eapply (proj1 (Forall_forall _ _) Hne).
Qed.
(** Once one schedule has produced a table, every run on every number of
    processors produces that table. *)
Lemma pairs_to_vec_sched_agree cpu1 cpu2 data T r2 :
  1 ≤ cpu2 →
  pairs_to_vec_sched cpu1 data (Ok T) →
  pairs_to_vec_sched cpu2 data r2 →
  r2 = Ok T.
Proof.
  intros Hcpu H1 H2. pose proof (pairs_to_vec_sched_Ok _ _ _ H1) as E1.
  destruct r2 as [T2|e].
  - apply pairs_to_vec_sched_Ok in H2. congruence.
  - apply pairs_to_vec_sched_Raise in H2 as [->|[e' E2]];
      [|congruence|exact Hcpu].
    by apply run_in_parallel_sched_empty in H1.
Qed.
End Determinism.

(** ** Running the tasks one after the other is a schedule of the pool *)

Section OneByOne.
Context `{Draco}.

Lemma exec_steps func processes (p : prog (DataFrame * nat)) σ r σ' jobs i :
  exec p σ = (r, σ') →
  jobs !! i = Some (Running p) →
  rtc (pool_step func processes) (processed_specs σ, jobs)
    (processed_specs σ', <[i := Done (res_bind r (λ a, Ok a.1))]> jobs).
Proof.
  revert σ jobs.
  induction p as [a|e|key k IH|key v k IH|key k IH|t k IH];
    intros σ jobs Hexec Hi; cbn [exec] in Hexec;
    assert (∀ j, <[i := j]> jobs !! i = Some j) as Hi'
      by (intros; apply list_lookup_insert_eq; by eapply lookup_lt_Some).
  - injection Hexec as <- <-. apply rtc_once. by apply step_return.
  - injection Hexec as <- <-. apply rtc_once. by apply step_throw.
  - eapply rtc_l; [by apply step_contains|].
    specialize (IH _ _ _ Hexec (Hi' _)).
    cbn [processed_specs] in IH. by rewrite list_insert_insert_eq in IH.
  - eapply rtc_l; [by apply step_setitem|].
    specialize (IH _ _ Hexec (Hi' _)).
    cbn [processed_specs] in IH. by rewrite list_insert_insert_eq in IH.
  - destruct (processed_specs σ !! key) as [v|] eqn:E.
    + eapply rtc_l; [by eapply step_getitem|].
      specialize (IH _ _ _ Hexec (Hi' _)).
      by rewrite list_insert_insert_eq in IH.
    + injection Hexec as <- <-. apply rtc_once. by eapply step_getitem_missing.
  - destruct (count_violations t) as [v|e] eqn:E.
    + eapply rtc_l; [by eapply step_count|].
      specialize (IH _ _ _ Hexec (Hi' _)).
      cbn [processed_specs] in IH. by rewrite list_insert_insert_eq in IH.
    + injection Hexec as <- <-. apply rtc_once. by eapply step_count_raise.
Qed.

Lemma running_app jobs1 jobs2 : running (jobs1 ++ jobs2) = running jobs1 + running jobs2.
Proof. unfold running. by rewrite filter_app, length_app. Qed.

Lemma running_pending tasks : running (Pending <$> tasks) = 0.
Proof. induction tasks as [|t tasks IH]; [done|exact IH]. Qed.

Lemma running_done dfs : running ((λ df, Done (Ok df)) <$> dfs) = 0.
Proof. induction dfs as [|t dfs IH]; [done|exact IH]. Qed.

Lemma pool_map_steps func processes tasks :
  1 ≤ processes →
  ∀ done_jobs encoding_cnt σ r σ',
    pool_map func tasks encoding_cnt σ = (r, σ') →
    running done_jobs = 0 →
    ∃ jobs',
      rtc (pool_step func processes)
        (processed_specs σ, done_jobs ++ (Pending <$> tasks))
        (processed_specs σ', done_jobs ++ jobs')
      ∧ match r with
        | Ok dfs => jobs' = (λ df, Done (Ok df)) <$> dfs
        | Raise e => Done (Raise e) ∈ jobs'
        end.
Proof.
  intros HW. induction tasks as [|t rest IH];
    intros done_jobs encoding_cnt σ r σ' Hmap Hdone; cbn [pool_map] in Hmap.
  - injection Hmap as <- <-. exists []. split; [apply rtc_refl|done].
  - destruct (exec (func t encoding_cnt) σ) as [r1 σ1] eqn:E1.
    assert (rtc (pool_step func processes)
              (processed_specs σ, done_jobs ++ (Pending <$> t :: rest))
              (processed_specs σ1,
               (done_jobs ++ [Done (res_bind r1 (λ a, Ok a.1))])
                 ++ (Pending <$> rest))) as Hfirst.
    { eapply rtc_l.
      - apply (step_start _ _ _ _ (length done_jobs) t encoding_cnt).
        + rewrite lookup_app_r, Nat.sub_diag by lia. done.
        + rewrite running_app, Hdone. cbn [fmap list_fmap].
          change (running (Pending t :: (Pending <$> rest)))
            with (running (Pending <$> rest)).
          rewrite running_pending. lia.
      - pose proof (exec_steps func processes _ _ _ _
                      (<[length done_jobs := Running (func t encoding_cnt)]>
                         (done_jobs ++ (Pending <$> t :: rest)))
                      (length done_jobs) E1) as Hs.
        rewrite list_insert_insert_eq in Hs.
        rewrite !insert_app_r_alt, !Nat.sub_diag in Hs by lia.
        rewrite insert_app_r_alt, Nat.sub_diag, <- app_assoc by lia.
        apply Hs. rewrite lookup_app_r, Nat.sub_diag by lia. done. }
    destruct r1 as [a|e].
    + destruct (pool_map func rest a.2 σ1) as [r2 σ2] eqn:E2.
      eapply (IH (done_jobs ++ [Done (Ok a.1)])) in E2 as (jobs' & Hsteps & Hres).
      2:{ rewrite running_app, Hdone. done. }
      exists (Done (Ok a.1) :: jobs'). split.
      * etrans; [exact Hfirst|]. cbn [res_bind].
        rewrite <- (app_assoc done_jobs [_] jobs') in Hsteps.
        destruct r2; injection Hmap as <- <-; exact Hsteps.
      * destruct r2 as [dfs|e]; injection Hmap as <- <-.
        -- by rewrite Hres.
        -- apply elem_of_cons. by right.
    + injection Hmap as <- <-. exists (Done (Raise e) :: (Pending <$> rest)).
      split; [|apply elem_of_cons; by left].
      rewrite <- app_assoc in Hfirst. exact Hfirst.
Qed.

(** The table computed by [run_in_parallel], task after task, is one of
    the results of the pool. *)
Lemma run_in_parallel_is_sched func cpu_count data encoding_cnt :
  run_in_parallel_sched func cpu_count data
    (run_in_parallel func cpu_count data encoding_cnt).
Proof.
  unfold run_in_parallel_sched, run_in_parallel, run_in_parallel_store. cbv zeta.
  destruct (df_split data _) as [tasks|e] eqn:Es; [|done].
  apply df_split_inv in Es as (HP & Hl & Hc).
  destruct (pool_map func tasks encoding_cnt empty_store) as [r σ] eqn:Em.
  assert (1 ≤ cpu_count `min` Partitioner.splits cpu_count (length data)) as HW.
  { assert (1 ≤ cpu_count); [|lia].
    destruct cpu_count; [|lia]. unfold Partitioner.splits in HP. cbn in HP. lia. }
  exists r. split.
  - destruct (pool_map_steps func _ tasks HW [] _ _ _ _ Em)
      as (jobs' & Hsteps & Hres); [done|].
    exists (processed_specs σ), jobs'. split; [exact Hsteps|].
    destruct r as [dfs|e]; [subst jobs'; constructor|by constructor].
  - destruct r as [dfs|e]; [|done]. cbn [res_bind].
    by destruct (pd_concat dfs).
Qed.
End OneByOne.

(** ** The run task after task does not depend on the partition *)

Section Flat.
Context `{Draco}.
Import Partitioner PartitionerFacts.

Lemma exec_rows_app l1 l2 σ :
  exec_rows (l1 ++ l2) σ
  = match exec_rows l1 σ with
    | (Ok rows1, σ1) =>
        match exec_rows l2 σ1 with
        | (Ok rows2, σ2) => (Ok (rows1 ++ rows2), σ2)
        | (Raise e, σ2) => (Raise e, σ2)
        end
    | (Raise e, σ1) => (Raise e, σ1)
    end.
Proof.
  revert σ. induction l1 as [|x l1 IH]; intros σ; cbn [app exec_rows].
  - by destruct (exec_rows l2 σ) as [[rows|e] σ'].
  - destruct (exec (vectorize_example _ x 0) σ) as [[r|e] σ1]; [|done].
    rewrite IH. destruct (exec_rows l1 σ1) as [[rows1|e] σ2]; [|done].
    destruct (exec_rows l2 σ2) as [[rows2|e] σ3]; [|done].
    by rewrite app_assoc.
Qed.

Lemma vectorize_example_frame example encoding_cnt σ r σ' :
  exec (vectorize_example get_nested_index example encoding_cnt) σ = (Ok r, σ') →
  r.1 = mkDataFrame get_nested_index (df_rows r.1) ∧ length (df_rows r.1) = 1.
Proof.
  intros E. apply vectorize_example_Ok in E as (_ & row & _ & ->). done.
Qed.

(** The loop, in terms of the rows. *)
Lemma partition_loop_rows partition dfs encoding_cnt σ :
  match exec (partition_loop get_nested_index partition dfs encoding_cnt) σ,
        exec_rows partition σ with
  | (Ok r, σ1), (Ok rows, σ2) =>
      σ1 = σ2
      ∧ r.1 = dfs ++ ((λ row, mkDataFrame get_nested_index [row]) <$> rows)
  | (Raise e1, σ1), (Raise e2, σ2) => σ1 = σ2 ∧ e1 = e2
  | _, _ => False
  end.
Proof.
  revert dfs encoding_cnt σ.
  induction partition as [|x l IH]; intros dfs encoding_cnt σ;
    cbn [partition_loop exec_rows].
  - cbn. split; [done|]. by rewrite app_nil_r.
  - rewrite exec_bind.
    rewrite (vectorize_example_reset _ x encoding_cnt 0).
    destruct (exec (vectorize_example _ x 0) σ) as [[r|e] σ1] eqn:E; [|done].
    apply vectorize_example_Ok in E as (_ & row & _ & Hr).
    specialize (IH (dfs ++ [r.1]) r.2 σ1).
    destruct (exec (partition_loop _ l _ _) σ1) as [[r'|e1] σ2];
      destruct (exec_rows l σ1) as [[rows|e2] σ3]; try done.
    destruct IH as [-> IH]. split; [done|].
    rewrite IH, Hr, <- app_assoc. done.
Qed.

(** A worker on a partition that is not empty, in terms of the rows. *)
Lemma pair_partition_to_vec_rows partition encoding_cnt σ :
  partition ≠ [] →
  match exec (pair_partition_to_vec partition encoding_cnt) σ,
        exec_rows partition σ with
  | (Ok r, σ1), (Ok rows, σ2) =>
      σ1 = σ2 ∧ r.1 = mkDataFrame get_nested_index rows
  | (Raise e1, σ1), (Raise e2, σ2) => σ1 = σ2 ∧ e1 = e2
  | _, _ => False
  end.
Proof.
  intros Hne. unfold pair_partition_to_vec. rewrite exec_bind.
  pose proof (partition_loop_rows partition [] encoding_cnt σ) as Hl.
  destruct (exec (partition_loop _ partition _ _) σ) as [[r|e1] σ1];
    destruct (exec_rows partition σ) as [[rows|e2] σ2] eqn:Er; try done.
  destruct Hl as [-> Hr]. rewrite exec_bind, exec_lift, Hr. cbn [app].
  assert (rows ≠ []) as Hrows.
  { intros ->. destruct partition as [|x l]; [done|]. cbn in Er.
    destruct (exec (vectorize_example _ x 0) σ) as [[r0|e] σ0] eqn:E0; [|done].
    apply vectorize_example_frame in E0 as [_ Hlen].
    destruct (exec_rows l σ0) as [[rows'|e] σ3]; [|done].
    injection Er as Er _. destruct (df_rows r0.1); done. }
  rewrite pd_concat_single_rows by exact Hrows. done.
Qed.

(** The map over the partitions, in terms of the rows of all the
    examples. *)
Lemma pool_map_rows tasks encoding_cnt σ :
  Forall (λ t, t ≠ []) tasks →
  match pool_map pair_partition_to_vec tasks encoding_cnt σ,
        exec_rows (concat tasks) σ with
  | (Ok dfs, σ1), (Ok rows, σ2) =>
      σ1 = σ2
      ∧ ∃ rowss, dfs = mkDataFrame get_nested_index <$> rowss
                 ∧ rows = concat rowss
                 ∧ length rowss = length tasks
  | (Raise e1, σ1), (Raise e2, σ2) => σ1 = σ2 ∧ e1 = e2
  | _, _ => False
  end.
Proof.
  intros Hne. revert encoding_cnt σ.
  induction Hne as [|t tasks Ht _ IH]; intros encoding_cnt σ;
    cbn [pool_map concat].
  - cbn. split; [done|]. by exists [].
  - rewrite exec_rows_app.
    pose proof (pair_partition_to_vec_rows t encoding_cnt σ Ht) as Hw.
    destruct (exec (pair_partition_to_vec t encoding_cnt) σ) as [[r|e1] σ1];
      destruct (exec_rows t σ) as [[rows|e2] σ2]; try done.
    destruct Hw as [-> Hr]. specialize (IH r.2 σ2).
    destruct (pool_map _ tasks r.2 σ2) as [[dfs|e1] σ3];
      destruct (exec_rows (concat tasks) σ2) as [[rows'|e2] σ4]; try done.
    destruct IH as (-> & rowss & -> & -> & Hlen). split; [done|].
    exists (rows :: rowss). rewrite Hr. cbn. by rewrite Hlen.
Qed.

(** [run_in_parallel] on a list that is not empty: the loop over the whole
    list, then the sort. Neither the number of processors nor the counter
    of the process enters. *)
Lemma run_in_parallel_store_flat cpu_count data encoding_cnt :
  1 ≤ cpu_count →
  data ≠ [] →
  run_in_parallel_store pair_partition_to_vec cpu_count data encoding_cnt
  = table_of_rows (exec_rows (items data) empty_store).
Proof.
  intros Hcpu Hdata. unfold run_in_parallel_store.
  assert (1 ≤ length data) as HN by (destruct data; [done|cbn; lia]).
  destruct (df_split_Ok data (splits cpu_count (length data))) as [tasks Es];
    [by apply splits_pos|].
  rewrite Es.
  pose proof (df_split_nonempty _ _ _ Es (splits_le_length _ _)) as Hne.
  apply df_split_inv in Es as (HP & Hl & Hc).
  pose proof (pool_map_rows tasks encoding_cnt empty_store Hne) as Hm.
  rewrite Hc in Hm.
  destruct (pool_map _ tasks encoding_cnt empty_store) as [[dfs|e1] σ1];
    destruct (exec_rows (items data) empty_store) as [[rows|e2] σ2]; try done.
  - destruct Hm as (-> & rowss & -> & -> & Hlen). cbn [table_of_rows].
    rewrite pd_concat_frames; [done|].
    intros ->. cbn in Hlen. lia.
  - destruct Hm as [-> ->]. done.
Qed.

(** Two runs task after task on the same examples end alike, table or
    exception, and leave the same dictionary, whatever the numbers of
    processors and the counters. *)
Lemma run_in_parallel_store_any_cpu cpu1 cpu2 data cnt1 cnt2 :
  1 ≤ cpu1 → 1 ≤ cpu2 →
  run_in_parallel_store pair_partition_to_vec cpu1 data cnt1
  = run_in_parallel_store pair_partition_to_vec cpu2 data cnt2.
Proof.
  intros H1 H2. destruct data as [|x data].
  - by rewrite !run_in_parallel_store_empty.
  - by rewrite !run_in_parallel_store_flat.
Qed.
End Flat.

(** ** The loader of the unlabeled corpus *)

Section LoaderFacts.
Context `{Draco}.

Lemma loaded_shape_mono dc dc' u : dc ⊆ dc' → loaded_shape dc u → loaded_shape dc' u.
Proof.
  intros Hsub (Hd & l & r & url & d & Hl & Hr & Hu & Hc & Ht).
  split; [exact Hd|]. exists l, r, url, d.
  repeat split; try done. by eapply lookup_weaken.
Qed.

Lemma acquire_data_Ok url dc d dc' :
  acquire_data url dc = Ok (d, dc') → dc ⊆ dc' ∧ dc' !! url = Some d.
Proof.
  unfold acquire_data. destruct (dc !! url) as [d0|] eqn:E.
  - by intros [= <- <-].
  - destruct (Data_from_json (data_path url)) as [d0|]; [|done].
    cbn. intros [= <- <-]. split; [by apply insert_subseteq|].
    apply lookup_insert_eq.
Qed.

Lemma load_pair_Ok st pair st' :
  load_pair st pair = Ok st' →
  Forall (loaded_shape (data_cache st)) (raw_data st) →
  data_cache st ⊆ data_cache st'
  ∧ Forall (loaded_shape (data_cache st')) (raw_data st').
Proof.
  unfold load_pair. destruct pair as [l r].
  destruct (decide (l = r)); [done|].
  destruct (Json_data_url l) as [url_left|] eqn:El; [|done]. cbn [res_bind].
  destruct (Json_data_url r) as [url_right|]; [|done]. cbn [res_bind].
  destruct (decide (url_left = url_right)); [|done].
  destruct (acquire_data url_left (data_cache st)) as [[d dc']|] eqn:Ea; [|done].
  apply acquire_data_Ok in Ea as [Hsub Hd].
  cbn. intros [= <-] Hinv. cbn. split; [exact Hsub|].
  apply Forall_app. split.
  - eapply Forall_impl; [exact Hinv|]. intros u. by apply loaded_shape_mono.
  - constructor; [|constructor]. split; [done|].
    by exists l, r, url_left, d.
Qed.

Lemma load_pairs_Ok pairs st st' :
  load_pairs st pairs = Ok st' →
  Forall (loaded_shape (data_cache st)) (raw_data st) →
  Forall (loaded_shape (data_cache st')) (raw_data st').
Proof.
  revert st. induction pairs as [|p rest IH]; intros st; cbn [load_pairs].
  - by intros [= <-].
  - destruct (load_pair st p) as [st1|] eqn:E1; [|done]. cbn [res_bind].
    intros E2 Hinv. apply (IH st1 E2).
    by apply (load_pair_Ok _ _ _ E1).
Qed.
End LoaderFacts.

(** ** The counters of the pool *)

Section Counters.
Context `{Draco}.

(** The pool with counters is the pool: its steps are those of
    [pool_step], and every step of [pool_step] is one of its steps. *)
Lemma pool_step_counted_erase func processes s s' :
  pool_step_counted func processes s s' → pool_step func processes s.1 s'.1.
Proof. destruct 1; cbn [fst]; econstructor; eassumption. Qed.

Lemma pool_step_counted_total func processes st st' g :
  pool_step func processes st st' →
  ∃ g', pool_step_counted func processes (st, g) (st', g').
Proof. destruct g as [m c]. destruct 1; eexists; econstructor; eassumption. Qed.

Lemma pool_steps_counted_erase func processes s s' :
  rtc (pool_step_counted func processes) s s' →
  rtc (pool_step func processes) s.1 s'.1.
Proof.
  induction 1 as [|s1 s2 s3 Hstep _ IH]; [done|].
  eapply rtc_l; [by eapply pool_step_counted_erase|exact IH].
Qed.

Lemma pool_steps_counted_total func processes st st' g :
  rtc (pool_step func processes) st st' →
  ∃ g', rtc (pool_step_counted func processes) (st, g) (st', g').
Proof.
  intros Hsteps. revert g.
  induction Hsteps as [|st1 st2 st3 Hstep _ IH]; intros g.
  - by exists g.
  - destruct (pool_step_counted_total _ _ _ _ g Hstep) as [g1 H1].
    destruct (IH g1) as [g' H']. exists g'. by eapply rtc_l.
Qed.

Lemma ledger_mono {A} P m c m' c' (p : prog A) :
  ledger P m c p → m ≤ m' → c ≤ c' → ledger P m' c' p.
Proof.
  intros Hl. revert m' c'.
  induction Hl as [m c a|m c e|m c key k _ IH1 _ IH2|m c key v k _ IH
                   |m c key k _ IH|m c t k Ht _ IH]; intros m' c' Hm Hc.
  - constructor.
  - constructor.
  - constructor; [apply IH1; lia|apply IH2; lia].
  - destruct c' as [|c']; [lia|]. constructor. apply IH; lia.
  - constructor. intros v. apply IH; lia.
  - destruct m' as [|m']; [lia|]. constructor; [exact Ht|].
    intros v. apply IH; lia.
Qed.

Lemma ledger_bind {A B} P m c (p : prog A) (f : A → prog B) :
  ledger P m c p → (∀ a, ledger P 0 0 (f a)) → ledger P m c (bind p f).
Proof.
  intros Hl Hf.
  induction Hl as [m c a|m c e|m c key k _ IH1 _ IH2|m c key v k _ IH
                   |m c key k _ IH|m c t k Ht _ IH]; cbn [bind].
  - eapply ledger_mono; [apply Hf|lia|lia].
  - constructor.
  - by constructor.
  - by constructor.
  - by constructor.
  - by constructor.
Qed.

Lemma ledger_lift {A} P m c (r : res A) : ledger P m c (lift r).
Proof. destruct r; constructor. Qed.

Lemma ledger_count_violations_memoized P t :
  P t → ledger P 0 0 (count_violations_memoized t).
Proof.
  intros Ht. unfold count_violations_memoized.
  apply ledger_bind; [apply ledger_lift|]. intros key.
  constructor; cbn [negb bind].
  - constructor. intros v. constructor.
  - constructor; [exact Ht|]. intros v. constructor. constructor.
    intros v'. constructor.
Qed.

Lemma ledger_vectorize_example P cols example encoding_cnt :
  builds P example → ledger P 0 0 (vectorize_example cols example encoding_cnt).
Proof.
  intros Hb. unfold vectorize_example.
  destruct (resolve example) as [ex|e] eqn:Er; cbn [lift bind]; [|constructor].
  apply ledger_bind; [apply ledger_lift|]. intros qn.
  apply ledger_bind; [apply ledger_count_violations_memoized; by apply Hb|].
  intros vn.
  apply ledger_bind; [apply ledger_lift|]. intros qp.
  apply ledger_bind; [apply ledger_count_violations_memoized; by apply Hb|].
  intros vp. constructor.
Qed.

Lemma ledger_partition_loop P cols partition dfs encoding_cnt :
  Forall (builds P) partition →
  ledger P 0 0 (partition_loop cols partition dfs encoding_cnt).
Proof.
  intros Hp. revert dfs encoding_cnt.
  induction Hp as [|example rest Hb _ IH]; intros dfs encoding_cnt;
    cbn [partition_loop]; [constructor|].
  apply ledger_bind; [by apply ledger_vectorize_example|]. intros r. apply IH.
Qed.

Lemma ledger_pair_partition_to_vec P partition encoding_cnt :
  Forall (builds P) partition →
  ledger P 0 0 (pair_partition_to_vec partition encoding_cnt).
Proof.
  intros Hp. unfold pair_partition_to_vec. cbv zeta.
  apply ledger_bind; [by apply ledger_partition_loop|]. intros r.
  apply ledger_bind; [apply ledger_lift|]. intros df. constructor.
Qed.

(** A worker alone: the calls it adds to the log are on tasks that its
    program allows. *)
Lemma exec_ledger {A} P m c (p : prog A) σ r σ' :
  ledger P m c p → exec p σ = (r, σ') →
  ∃ new, solver_calls σ' = solver_calls σ ++ new ∧ Forall P new.
Proof.
  intros Hl. revert σ.
  induction Hl as [m c a|m c e|m c key k _ IH1 _ IH2|m c key v k _ IH
                   |m c key k _ IH|m c t k Ht _ IH]; intros σ; cbn [exec].
  - intros [= <- <-]. exists []. by rewrite app_nil_r.
  - intros [= <- <-]. exists []. by rewrite app_nil_r.
  - destruct (bool_decide _); intros Hexec;
      [apply IH1 in Hexec|apply IH2 in Hexec]; exact Hexec.
  - intros Hexec. apply IH in Hexec. exact Hexec.
  - destruct (processed_specs σ !! key) as [v|].
    + apply IH.
    + intros [= <- <-]. exists []. by rewrite app_nil_r.
  - destruct (count_violations t) as [v|e].
    + intros Hexec. apply IH in Hexec as (new & E & Hnew). cbn in E.
      exists (t :: new). split; [by rewrite E, <- app_assoc|by constructor].
    + intros [= <- <-]. cbn. exists [t]. split; [done|by constructor].
Qed.

Lemma sum_list_insert (l : list nat) i x y :
  l !! i = Some x → sum_list (<[i := y]> l) + x = sum_list l + y.
Proof.
  revert i. induction l as [|z l IH]; intros [|i]; simpl; try done.
  - intros [= ->]. lia.
  - intros E. specialize (IH _ E). lia.
Qed.

Lemma credits_update P func credits jobs i credit credit' j' :
  Forall2 (job_ledger P func) credits jobs →
  credits !! i = Some credit →
  job_ledger P func credit' j' →
  Forall2 (job_ledger P func) (<[i := credit']> credits) (<[i := j']> jobs)
  ∧ sum_list (fst <$> <[i := credit']> credits) + credit.1
    = sum_list (fst <$> credits) + credit'.1
  ∧ sum_list (snd <$> <[i := credit']> credits) + credit.2
    = sum_list (snd <$> credits) + credit'.2.
Proof.
  intros Hall Hi Hj. split; [by apply Forall2_insert|].
  rewrite !list_fmap_insert.
  split; apply sum_list_insert; by rewrite list_lookup_fmap, Hi.
Qed.

Lemma pool_step_counted_inv P func processes s s' :
  pool_step_counted func processes s s' →
  ledger_inv P func s → ledger_inv P func s'.
Proof.
  intros Hstep (credits & Hall & Hstored & Hcalled & HP).
  destruct Hstep as [d jobs i t encoding_cnt g Hi Hrun|d jobs i a g Hi
                     |d jobs i e g Hi|d jobs i key k misses calls Hi
                     |d jobs i key v k g Hi|d jobs i key k v g Hi Hv
                     |d jobs i key k g Hi Hv|d jobs i t k v misses calls Hi Hv
                     |d jobs i t k e misses calls Hi Hv];
    cbn [fst snd] in *;
    destruct (Forall2_lookup_r _ _ _ _ _ Hall Hi) as ([m c] & Hc & Hj);
    cbn [job_ledger fst snd] in Hj.
  - destruct (credits_update P func credits jobs i (m, c) (m, c)
                (Running (func t encoding_cnt)) Hall Hc) as (Hall' & Hm & Hs).
    { cbn. eapply ledger_mono; [apply Hj|lia|lia]. }
    exists (<[i := (m, c)]> credits). cbn [fst snd] in *.
    split; [exact Hall'|]. split; [lia|]. split; [lia|exact HP].
  - destruct (credits_update P func credits jobs i (m, c) (m, c)
                (Done (Ok a.1)) Hall Hc I) as (Hall' & Hm & Hs).
    exists (<[i := (m, c)]> credits). cbn [fst snd] in *.
    split; [exact Hall'|]. split; [lia|]. split; [lia|exact HP].
  - destruct (credits_update P func credits jobs i (m, c) (m, c)
                (Done (Raise e)) Hall Hc I) as (Hall' & Hm & Hs).
    exists (<[i := (m, c)]> credits). cbn [fst snd] in *.
    split; [exact Hall'|]. split; [lia|]. split; [lia|exact HP].
  - inversion Hj as [| |? ? ? ? Ht Hf| | |]; subst.
    destruct (bool_decide (is_Some (d !! key))).
    + destruct (credits_update P func credits jobs i (m, c) (m, c)
                  (Running (k true)) Hall Hc Ht) as (Hall' & Hm & Hs).
      exists (<[i := (m, c)]> credits). cbn [fst snd] in *.
      split; [exact Hall'|]. split; [lia|]. split; [lia|exact HP].
    + destruct (credits_update P func credits jobs i (m, c) (S m, c)
                  (Running (k false)) Hall Hc Hf) as (Hall' & Hm & Hs).
      exists (<[i := (S m, c)]> credits). cbn [fst snd] in *.
      split; [exact Hall'|]. split; [lia|]. split; [lia|exact HP].
  - inversion Hj as [| | |? c0 ? ? ? Hk| |]; subst.
    destruct (credits_update P func credits jobs i (m, S c0) (m, c0)
                (Running k) Hall Hc Hk) as (Hall' & Hm & Hs).
    exists (<[i := (m, c0)]> credits). cbn [fst snd] in *.
    split; [exact Hall'|].
    assert (size (<[key := v]> d) ≤ S (size d)) as Hsize.
    { destruct (d !! key) eqn:E.
      - rewrite map_size_insert_Some by eauto. lia.
      - rewrite map_size_insert_None by exact E. lia. }
    split; [lia|]. split; [lia|exact HP].
  - inversion Hj as [| | | |? ? ? ? Hk|]; subst.
    destruct (credits_update P func credits jobs i (m, c) (m, c)
                (Running (k v)) Hall Hc (Hk v)) as (Hall' & Hm & Hs).
    exists (<[i := (m, c)]> credits). cbn [fst snd] in *.
    split; [exact Hall'|]. split; [lia|]. split; [lia|exact HP].
  - destruct (credits_update P func credits jobs i (m, c) (m, c)
                (Done (Raise KeyError)) Hall Hc I) as (Hall' & Hm & Hs).
    exists (<[i := (m, c)]> credits). cbn [fst snd] in *.
    split; [exact Hall'|]. split; [lia|]. split; [lia|exact HP].
  - inversion Hj as [| | | | |m0 ? ? ? Ht Hk]; subst.
    destruct (credits_update P func credits jobs i (S m0, c) (m0, S c)
                (Running (k v)) Hall Hc (Hk v)) as (Hall' & Hm & Hs).
    exists (<[i := (m0, S c)]> credits). cbn [fst snd] in *.
    rewrite length_app. cbn [length].
    split; [exact Hall'|]. split; [lia|]. split; [lia|].
    apply Forall_app. split; [exact HP|]. by constructor.
  - inversion Hj as [| | | | |m0 ? ? ? Ht Hk]; subst.
    destruct (credits_update P func credits jobs i (S m0, c) (m0, c)
                (Done (Raise e)) Hall Hc I) as (Hall' & Hm & Hs).
    exists (<[i := (m0, c)]> credits). cbn [fst snd] in *.
    rewrite length_app. cbn [length].
    split; [exact Hall'|]. split; [lia|]. split; [lia|].
    apply Forall_app. split; [exact HP|]. by constructor.
Qed.

Lemma pool_steps_counted_inv P func processes s s' :
  rtc (pool_step_counted func processes) s s' →
  ledger_inv P func s → ledger_inv P func s'.
Proof.
  induction 1 as [|s1 s2 s3 Hstep _ IH]; [done|].
  intros Hinv. apply IH. by eapply pool_step_counted_inv.
Qed.

Lemma ledger_inv_init P func tasks :
  Forall (λ t, ∀ encoding_cnt, ledger P 0 0 (func t encoding_cnt)) tasks →
  ledger_inv P func (pool_init tasks).
Proof.
  intros Htasks. exists ((λ _, (0, 0)) <$> tasks). unfold pool_init. cbn [fst snd].
  split; [|split; [|split]].
  - induction Htasks; cbn; constructor; done.
  - rewrite map_size_empty. cbn. clear. induction tasks; cbn; lia.
  - cbn. clear. induction tasks; cbn; lia.
  - constructor.
Qed.

(** In every state that the pool reaches while it runs
    [pair_partition_to_vec], whatever the schedule: at most one vector
    stored for each call of the solver, at most one call for each miss, and
    calls only on tasks built for the examples. *)
Lemma pool_counters P processes tasks s :
  Forall (Forall (builds P)) tasks →
  rtc (pool_step_counted pair_partition_to_vec processes) (pool_init tasks) s →
  size s.1.1 ≤ length s.2.2 ∧ length s.2.2 ≤ s.2.1 ∧ Forall P s.2.2.
Proof.
  intros Htasks Hsteps.
  destruct (pool_steps_counted_inv P _ _ _ _ Hsteps)
    as (credits & _ & Hstored & Hcalled & HP).
  { apply ledger_inv_init. eapply Forall_impl; [exact Htasks|].
    intros t Ht encoding_cnt. by apply ledger_pair_partition_to_vec. }
  split; [lia|]. split; [lia|exact HP].
Qed.

Lemma builds_True example : builds (λ _, True) example.
Proof. by intros ex q _. Qed.
End Counters.

(** ** The rows of two examples with a common key *)

Section Memo.
Context `{Draco}.

Lemma example_rows_row partition example rows :
  example_rows partition = Ok rows → example ∈ partition →
  ∃ row, example_row example = Ok row ∧ row ∈ rows.
Proof.
  revert rows. induction partition as [|x l IH]; intros rows;
    [by intros _ ?%elem_of_nil|].
  cbn [example_rows].
  destruct (example_row x) as [row|] eqn:E1; [|done]. cbn [res_bind].
  destruct (example_rows l) as [rows'|] eqn:E2; [|done]. cbn [res_bind].
  intros [= <-] Hin. apply elem_of_cons in Hin as [->|Hin].
  - exists row. split; [exact E1|]. apply elem_of_cons. by left.
  - destruct (IH rows' eq_refl Hin) as (row' & E' & Hin').
    exists row'. split; [exact E'|]. apply elem_of_cons. by right.
Qed.

Lemma solve_Ok t v :
  solve t = Ok v → ∃ key, Task_to_asp t = Ok key ∧ count_violations t = Ok v.
Proof.
  unfold solve. destruct (Task_to_asp t) as [key|]; [|done]. cbn [res_bind].
  intros E. by exists key.
Qed.

Lemma solved_functional :
  solver_pure → ∀ key v v', solved key v → solved key v' → v = v'.
Proof.
  intros pure key v v' (t & Ek & Ev) (t' & Ek' & Ev').
  rewrite (pure t t' key Ek Ek') in Ev. congruence.
Qed.

(** The table of a list of examples holds the row of each, built from the
    answers of the solver on its two tasks. *)
Lemma expected_table_row data T e :
  expected_table data = Ok T → e ∈ data → row_in solved T e.
Proof.
  unfold expected_table.
  destruct (example_rows (items data)) as [rows|] eqn:Erows; [|done].
  cbn [res_bind]. intros [= <-] Hin.
  destruct (example_rows_row _ (ItNdarray (to_ndarray e)) _ Erows)
    as (row & Erow & Hrow).
  { unfold items. by do 2 apply list_elem_of_fmap_2. }
  unfold example_row in Erow. rewrite resolve_ndarray in Erow.
  cbn [res_bind] in Erow.
  destruct (negative_task (as_posneg e)) as [tn|] eqn:Etn; [|done].
  cbn [res_bind] in Erow.
  destruct (solve tn) as [vn|] eqn:Evn; [|done]. cbn [res_bind] in Erow.
  destruct (positive_task (as_posneg e)) as [tp|] eqn:Etp; [|done].
  cbn [res_bind] in Erow.
  destruct (solve tp) as [vp|] eqn:Evp; [|done]. cbn [res_bind] in Erow.
  injection Erow as <-.
  apply solve_Ok in Evn as (kn & Ekn & Hvn).
  apply solve_Ok in Evp as (kp & Ekp & Hvp).
  exists tn, tp, kn, kp, vn, vp.
  split; [done|]. split; [done|]. split; [done|]. split; [done|].
  split; [by exists tn|]. split; [by exists tp|].
  cbn [df_rows]. rewrite merge_sort_Permutation.
  by rewrite <- as_posneg_pair_id.
Qed.

(** A table returned by a run task after task holds the row of each
    example, built from what the dictionary holds at the end. *)
Lemma run_in_parallel_store_row_in cpu_count data encoding_cnt T σ e :
  run_in_parallel_store pair_partition_to_vec cpu_count data encoding_cnt
    = (Ok T, σ) →
  e ∈ data →
  row_in (λ key v, processed_specs σ !! key = Some v) T e.
Proof.
  intros Hrun Hin.
  destruct (run_in_parallel_store_row _ _ _ _ _ _ Hrun Hin)
    as (row & Hrow & ex & tn & tp & kn & kp & vn & vp
        & Hx & Htn & Htp & Hkn & Hkp & Hvn & Hvp & ->).
  rewrite resolve_ndarray in Hx. injection Hx as <-.
  rewrite as_posneg_pair_id in Hrow.
  by exists tn, tp, kn, kp, vn, vp.
Qed.

Lemma memo_rows_intro (R : string → gmap string Z → Prop) T e1 e2 :
  (∀ key v v', R key v → R key v' → v = v') →
  row_in R T e1 → row_in R T e2 → memo_rows T e1 e2.
Proof.
  intros Hfun (tn1 & tp1 & kn1 & kp1 & vn1 & vp1
               & Htn1 & Htp1 & Hkn1 & Hkp1 & Hvn1 & Hvp1 & Hrow1)
              (tn2 & tp2 & kn2 & kp2 & vn2 & vp2
               & Htn2 & Htp2 & Hkn2 & Hkp2 & Hvn2 & Hvp2 & Hrow2).
  assert (∀ t1 t2,
            negative_task (as_posneg e1) = Ok t1 →
            negative_task (as_posneg e2) = Ok t2 →
            Task_to_asp t1 = Task_to_asp t2 → vn1 = vn2) as Hneg.
  { intros t1 t2 E1 E2 Hk.
    assert (t1 = tn1) as -> by congruence. assert (t2 = tn2) as -> by congruence.
    assert (kn1 = kn2) as -> by congruence. by eapply Hfun. }
  exists (example_pair_id e1, feature_row (as_posneg e1) vn1 vp1),
         (example_pair_id e2, feature_row (as_posneg e2) vn2 vp2).
  cbn [fst snd]. rewrite !feature_row_negative, !feature_row_positive.
  split; [exact Hrow1|]. split; [exact Hrow2|]. split; [done|]. split; [done|].
  split; [intros Hne E; by injection E|]. split; [|split; [|split]].
  - intros t1 t2 E1 E2 Hk. by rewrite (Hneg t1 t2 E1 E2 Hk).
  - intros t1 t2 E1 E2 Hk.
    assert (t1 = tp1) as -> by congruence. assert (t2 = tp2) as -> by congruence.
    assert (kp1 = kp2) as -> by congruence. by rewrite (Hfun _ _ _ Hvp1 Hvp2).
  - intros t1 t2 E1 E2 Hk.
    assert (t1 = tn1) as -> by congruence. assert (t2 = tp2) as -> by congruence.
    assert (kn1 = kp2) as -> by congruence. by rewrite (Hfun _ _ _ Hvn1 Hvp2).
  - intros (Hd & Ht & Hn). rewrite (Hneg tn1 tn2 Htn1 Htn2); [done|].
    f_equal. unfold negative_task in Htn1, Htn2.
    rewrite Hd, Ht, Hn in Htn1. congruence.
Qed.
End Memo.

(** ** The worker on the examples of the unlabeled corpus *)

Section UnlabeledWorker.
Context `{Draco}.

Lemma loaded_builds dc u :
  loaded_shape dc u →
  builds (unlabeled_task dc) (ItNdarray (to_ndarray (ExUnlabeled u))).
Proof.
  intros (Hdata & l & r & url & d & _ & _ & _ & Hd & Htask) ex q [= <-].
  cbn. split; [exact Hdata|]. by exists url, d.
Qed.

Lemma unlabeled_builds u d :
  u_data u = PyNone → u_task u = PyData d →
  builds (λ t, task_data t = PyNone ∧ task_task t = PyData d)
    (ItNdarray (to_ndarray (ExUnlabeled u))).
Proof. intros Hdata Htask ex q [= <-]. by cbn. Qed.

Lemma df_split_builds P data n tasks :
  Forall (λ e, builds P (ItNdarray (to_ndarray e))) data →
  df_split data n = Ok tasks →
  Forall (Forall (builds P)) tasks.
Proof.
  intros Hdata Es. apply df_split_inv in Es as (_ & _ & Hc).
  apply Forall_concat. rewrite Hc. unfold items.
  by do 2 apply Forall_fmap.
Qed.

Lemma pool_map_calls P tasks encoding_cnt σ r σ' :
  Forall (Forall (builds P)) tasks →
  pool_map pair_partition_to_vec tasks encoding_cnt σ = (r, σ') →
  Forall P (solver_calls σ) → Forall P (solver_calls σ').
Proof.
  intros Htasks. revert encoding_cnt σ r σ'.
  induction Htasks as [|t rest Ht _ IH]; intros encoding_cnt σ r σ'; cbn [pool_map].
  - by intros [= <- <-].
  - destruct (exec (pair_partition_to_vec t encoding_cnt) σ) as [[r1|e] σ1] eqn:E1;
      apply (exec_ledger P 0 0) in E1 as (new & E & Hnew);
      try (by apply ledger_pair_partition_to_vec).
    + destruct (pool_map _ rest r1.2 σ1) as [[dfs|e] σ2] eqn:E2;
        intros [= <- <-] Hσ; eapply IH; try exact E2;
        rewrite E; by apply Forall_app.
    + intros [= <- <-] Hσ. rewrite E. by apply Forall_app.
Qed.

Lemma run_in_parallel_store_calls P cpu_count data encoding_cnt r σ :
  Forall (λ e, builds P (ItNdarray (to_ndarray e))) data →
  run_in_parallel_store pair_partition_to_vec cpu_count data encoding_cnt = (r, σ) →
  Forall P (solver_calls σ).
Proof.
  intros Hdata. unfold run_in_parallel_store.
  destruct (df_split data _) as [tasks|e] eqn:Es;
    [|intros [= <- <-]; constructor].
  pose proof (df_split_builds P _ _ _ Hdata Es) as Htasks.
  destruct (pool_map _ tasks encoding_cnt empty_store) as [[dfs|e] σ1] eqn:Em;
    apply (pool_map_calls P _ _ _ _ _ Htasks) in Em; try constructor.
  - destruct (pd_concat dfs); by intros [= <- <-].
  - by intros [= <- <-].
Qed.

(** A run that returns a table has called the solver. *)
Lemma run_in_parallel_store_called cpu_count data encoding_cnt T σ :
  run_in_parallel_store pair_partition_to_vec cpu_count data encoding_cnt
    = (Ok T, σ) →
  solver_calls σ ≠ [].
Proof.
  intros Hrun Hnil.
  pose proof (run_in_parallel_store_Ok _ _ _ _ _ Hrun) as (Hne & _ & [Hs _] & _).
  destruct data as [|e data]; [done|].
  destruct (run_in_parallel_store_row _ _ _ _ _ (e) Hrun)
    as (row & _ & ex & tn & tp & kn & kp & vn & vp & _ & _ & _ & _ & _ & Hvn & _).
  { apply elem_of_cons. by left. }
  rewrite Hnil in Hs. cbn in Hs. apply map_size_empty_iff in Hs.
  rewrite Hs, lookup_empty in Hvn. done.
Qed.

(** The loop body on an unlabeled example, with the two tasks it builds. *)
Lemma vectorize_example_unlabeled columns u d encoding_cnt :
  u_data u = PyNone → u_task u = PyData d →
  vectorize_example columns (ItNdarray (to_ndarray (ExUnlabeled u))) encoding_cnt
  = (ql <- lift (Query_from_vegalite (left u) 0) ;;
     neg_feature_vec <-
       count_violations_memoized (mkTask PyNone ql.1 (PyData d)) ;;
     qr <- lift (Query_from_vegalite (right u) ql.2) ;;
     pos_feature_vec <-
       count_violations_memoized (mkTask PyNone qr.1 (PyData d)) ;;
     Ret (pd_DataFrame
            (row_specs (as_posneg (ExUnlabeled u)) neg_feature_vec pos_feature_vec)
            columns (u_pair_id u), qr.2)).
Proof.
  intros Hdata Htask. destruct u as [id dat tsk src l r].
  cbn in Hdata, Htask. subst. reflexivity.
Qed.

(** One iteration returns a frame as soon as the two payloads parse, the
    two tasks have a key and the solver answers on them. *)
Lemma vectorize_example_returns columns example ex qn qp encoding_cnt σ :
  resolve example = Ok ex →
  Query_from_vegalite (negative ex) 0 = Ok qn →
  Query_from_vegalite (positive ex) qn.2 = Ok qp →
  is_Ok (Task_to_asp (mkTask (data ex) qn.1 (task ex))) →
  is_Ok (count_violations (mkTask (data ex) qn.1 (task ex))) →
  is_Ok (Task_to_asp (mkTask (data ex) qp.1 (task ex))) →
  is_Ok (count_violations (mkTask (data ex) qp.1 (task ex))) →
  ∃ r σ', exec (vectorize_example columns example encoding_cnt) σ = (Ok r, σ').
Proof.
  intros Er Eqn Eqp [kn Ekn] [vn Evn] [kp Ekp] [vp Evp].
  unfold vectorize_example. rewrite exec_bind, exec_lift, Er.
  rewrite exec_bind, exec_lift, Eqn. rewrite exec_bind.
  rewrite exec_count_violations_memoized, Ekn, Evn.
  destruct (processed_specs σ !! kn) as [vn'|];
    rewrite exec_bind, exec_lift, Eqp, exec_bind;
    rewrite exec_count_violations_memoized, Ekp, Evp;
    cbn [processed_specs];
    match goal with
    | |- context [match ?d !! kp with _ => _ end] => destruct (d !! kp)
    end; cbn [exec]; by eexists _, _.
Qed.
End UnlabeledWorker.

(** ** Building a schedule of the pool by hand *)

Section Schedules.
Context `{Draco}.

Lemma run_in_parallel_sched_intro func cpu_count data tasks r' :
  df_split data (Partitioner.splits cpu_count (length data)) = Ok tasks →
  pool_map_sched func
    (Nat.min cpu_count (Partitioner.splits cpu_count (length data))) tasks r' →
  run_in_parallel_sched func cpu_count data
    (res_bind r' (λ dfs, res_bind (pd_concat dfs) (λ df, Ok (sort_index df)))).
Proof.
  intros Es Hsched. unfold run_in_parallel_sched. cbv zeta. rewrite Es.
  by exists r'.
Qed.
End Schedules.

(** * The claims *)

Section Claims.
Context `{Draco}.
Import Partitioner PartitionerFacts.

(** C2, as amended. For a list of [N >= 1] examples on a machine with at
    least one processor, the partitioner cuts the list into
    [P = min(cpu_count * 20, ceil(N / 10))] contiguous, order-preserving,
    non-empty partitions; [P >= 1] without any floor being applied, [P = 1]
    when [N < 10], and the pool has [W = min(cpu_count, P)] processes. *)
Theorem partitioner_bounds {A} (cpu_count : nat) (data : list A) :
  1 ≤ cpu_count →
  1 ≤ length data →
  let N := length data in
  let P := splits cpu_count N in
  P = Nat.min (cpu_count * 20) (ceil_div N 10)
  ∧ (ceil_div N 10 * 10 < N + 10 ∧ N ≤ ceil_div N 10 * 10)
  ∧ 1 ≤ P
  ∧ (N < 10 → P = 1)
  ∧ processes cpu_count N = Nat.min cpu_count P
  ∧ ∃ parts,
      array_split data P = Ok parts
      ∧ length parts = P
      ∧ concat parts = data
      ∧ Forall (λ part, part ≠ []) parts.
Proof.
  intros Hcpu HN N P.
  split; [reflexivity|]. split; [apply ceil_div_10_spec|].
  split; [by apply splits_pos|]. split.
  { intros Hlt. unfold P, splits. rewrite ceil_div_10_small by lia. lia. }
  split; [reflexivity|].
  destruct (array_split_Ok data P) as [parts E]; [by apply splits_pos|].
  exists parts. split; [exact E|].
  pose proof (array_split_inv _ _ _ E) as (_ & Hl & Hc).
  split; [exact Hl|]. split; [exact Hc|].
  eapply array_split_nonempty; [exact E|apply splits_le_length].
Qed.

(** C3, as amended. On an empty input the number of partitions is 0, the
    split rejects it, and the run ends with that [ValueError]: no
    partition is processed and no table, empty or not, is returned; this
    holds for the run task after task and for every schedule of the pool. *)
Theorem empty_input_raises func cpu_count encoding_cnt :
  splits cpu_count 0 = 0
  ∧ df_split [] (splits cpu_count 0) = Raise ValueError
  ∧ run_in_parallel_store func cpu_count [] encoding_cnt
    = (Raise ValueError, empty_store)
  ∧ pairs_to_vec cpu_count [] encoding_cnt = Raise ValueError
  ∧ ∀ r, run_in_parallel_sched func cpu_count [] r → r = Raise ValueError.
Proof.
  split; [apply splits_empty|].
  split; [by rewrite splits_empty|].
  split; [apply run_in_parallel_store_empty|].
  split.
  { unfold pairs_to_vec, run_in_parallel.
    by rewrite run_in_parallel_store_empty. }
  apply run_in_parallel_sched_empty.
Qed.

(** C1. Two runs of [pairs_to_vec] on the same examples, on machines with
    different numbers of processors (hence different numbers of
    partitions and of worker processes) and with any value of the encoding
    counter in the worker processes, return the same table and log the
    same hash. With the tasks run one after the other this holds as it
    stands: the two runs end alike, table or exception. For the pool under
    an arbitrary schedule (of which the run task after task is one) it
    holds under the contract of the solver, whose result depends on a task
    through the canonical serialisation only: one run returns a table
    exactly when the other returns that table, which is the one described
    example by example by [expected_table]. The loop body never reads the
    value the counter had on entry. *)
Theorem determinism_across_partitions
    (hash_row : string * list cell → Z) (cpu1 cpu2 : nat) (data : list Example) :
  1 ≤ cpu1 →
  1 ≤ cpu2 →
  (∀ cnt1 cnt2,
     pairs_to_vec cpu1 data cnt1 = pairs_to_vec cpu2 data cnt2
     ∧ (∀ T1 T2,
          pairs_to_vec cpu1 data cnt1 = Ok T1 →
          pairs_to_vec cpu2 data cnt2 = Ok T2 →
          T1 = T2 ∧ dataframe_hash hash_row T1 = dataframe_hash hash_row T2)
     ∧ pairs_to_vec_sched cpu1 data (pairs_to_vec cpu1 data cnt1))
  ∧ (solver_pure →
     ∀ r1 r2,
       pairs_to_vec_sched cpu1 data r1 →
       pairs_to_vec_sched cpu2 data r2 →
       (∀ T, r1 = Ok T ↔ r2 = Ok T)
       ∧ (∀ T1 T2, r1 = Ok T1 → r2 = Ok T2 →
            T1 = T2
            ∧ dataframe_hash hash_row T1 = dataframe_hash hash_row T2
            ∧ expected_table data = Ok T1))
  ∧ (∀ columns example cnt cnt',
       vectorize_example columns example cnt
       = vectorize_example columns example cnt').
Proof.
  intros Hcpu1 Hcpu2. split; [|split].
  - intros cnt1 cnt2.
    assert (pairs_to_vec cpu1 data cnt1 = pairs_to_vec cpu2 data cnt2) as E.
    { unfold pairs_to_vec, run_in_parallel.
      by rewrite (run_in_parallel_store_any_cpu cpu1 cpu2 data cnt1 cnt2). }
    split; [exact E|]. split.
    + intros T1 T2 E1 E2. assert (T1 = T2) as <- by congruence. done.
    + apply run_in_parallel_is_sched.
  - intros pure.
    assert (∀ r1 r2,
              pairs_to_vec_sched cpu1 data r1 →
              pairs_to_vec_sched cpu2 data r2 →
              ∀ T, r1 = Ok T ↔ r2 = Ok T) as Hagree.
    { intros r1 r2 H1 H2 T. split; intros ->.
      - by eapply (pairs_to_vec_sched_agree pure cpu1 cpu2).
      - by eapply (pairs_to_vec_sched_agree pure cpu2 cpu1). }
    intros r1 r2 H1 H2. split; [by apply Hagree|].
    intros T1 T2 -> ->.
    assert (T1 = T2) as <-.
    { pose proof (proj1 (Hagree _ _ H1 H2 T1) eq_refl). congruence. }
    split; [done|]. split; [done|]. by eapply pairs_to_vec_sched_Ok.
  - reflexivity.
Qed.

(** C5. Once [count_violations_memoized] has returned a vector for a task,
    a call for any task with the same serialisation returns that vector
    and leaves the store as it is (no miss, no call of the solver), be it
    at once or after any further work of a worker, and whatever the solver
    would do on the second task, failing included. *)
Theorem cache_resolution_idempotent t1 σ v σ1 :
  exec (count_violations_memoized t1) σ = (Ok v, σ1) →
  ∀ t2,
    Task_to_asp t2 = Task_to_asp t1 →
    exec (count_violations_memoized t2) σ1 = (Ok v, σ1)
    ∧ ∀ partition encoding_cnt r σ2,
        exec (pair_partition_to_vec partition encoding_cnt) σ1 = (r, σ2) →
        exec (count_violations_memoized t2) σ2 = (Ok v, σ2).
Proof.
  intros Hfirst t2 Hkey.
  apply count_violations_memoized_Ok in Hfirst as (_ & key & Ek & Hv).
  split.
  - rewrite exec_count_violations_memoized, Hkey, Ek, Hv. reflexivity.
  - intros partition encoding_cnt r σ2 Hwork.
    apply pair_partition_to_vec_ext in Hwork as (Hsub & _).
    rewrite exec_count_violations_memoized, Hkey, Ek.
    by rewrite (lookup_weaken _ _ _ _ Hv Hsub).
Qed.

(** C4. Task after task, a run of [pairs_to_vec] calls the solver at most
    as often as a key is missed, and when it returns a table every call
    has filled one new key of the dictionary. In the pool, under every
    schedule and in every state the pool reaches, at most one vector is
    stored for each call and at most one call is made for each miss; that
    each key is computed once is not so there (two workers can miss one
    key, and both call the solver). The pool with these two counters is
    the pool. In the returned table the rows of two examples carry the
    same cells wherever a task of the one and a task of the other have the
    same serialisation; in particular two examples with the same [data],
    [task] and [negative] fields have the same negative cells, in two rows
    that differ when the identifiers do. Task after task this holds as it
    stands; for the pool under an arbitrary schedule it holds under the
    contract of the solver, whose result depends on a task through the
    serialisation only, and the table is then the one described example by
    example by [expected_table]. *)
Theorem memoization_correct cpu_count data :
  (∀ encoding_cnt r σ,
     run_in_parallel_store pair_partition_to_vec cpu_count data encoding_cnt
       = (r, σ) →
     length (solver_calls σ) ≤ cache_misses σ
     ∧ (is_Ok r → length (solver_calls σ) = size (processed_specs σ))
     ∧ ∀ T e1 e2, r = Ok T → e1 ∈ data → e2 ∈ data → memo_rows T e1 e2)
  ∧ (∀ processes tasks d jobs misses calls,
       rtc (pool_step_counted pair_partition_to_vec processes)
         (pool_init tasks) ((d, jobs), (misses, calls)) →
       size d ≤ length calls ∧ length calls ≤ misses)
  ∧ (∀ processes tasks d jobs,
       rtc (pool_step pair_partition_to_vec processes)
         (∅, Pending <$> tasks) (d, jobs)
       ↔ ∃ misses calls,
           rtc (pool_step_counted pair_partition_to_vec processes)
             (pool_init tasks) ((d, jobs), (misses, calls)))
  ∧ (solver_pure →
     ∀ T, pairs_to_vec_sched cpu_count data (Ok T) →
          expected_table data = Ok T
          ∧ ∀ e1 e2, e1 ∈ data → e2 ∈ data → memo_rows T e1 e2).
Proof.
  split; [|split; [|split]].
  - intros encoding_cnt r σ Hrun. split.
    { apply run_in_parallel_store_counted in Hrun. unfold counted in Hrun. lia. }
    split.
    { intros [T ->].
      apply run_in_parallel_store_Ok in Hrun as (_ & _ & [Hs _] & _).
      by symmetry. }
    intros T e1 e2 -> Hin1 Hin2.
    apply (memo_rows_intro (λ key v, processed_specs σ !! key = Some v)).
    + intros key v v' E1 E2. congruence.
    + by eapply run_in_parallel_store_row_in.
    + by eapply run_in_parallel_store_row_in.
  - intros processes tasks d jobs misses calls Hsteps.
    assert (Forall (Forall (builds (λ _, True))) tasks) as Htasks.
    { apply Forall_forall. intros t _. apply Forall_forall. intros example _.
      apply builds_True. }
    destruct (pool_counters _ _ _ _ Htasks Hsteps) as (Hstored & Hcalled & _).
    by split.
  - intros processes tasks d jobs. split.
    + intros Hsteps.
      destruct (pool_steps_counted_total _ _ _ _ (0, []) Hsteps)
        as [[misses calls] Hcounted].
      by exists misses, calls.
    + intros (misses & calls & Hcounted).
      exact (pool_steps_counted_erase _ _ _ _ Hcounted).
  - intros pure T Hsched.
    pose proof (pairs_to_vec_sched_Ok pure _ _ _ Hsched) as Htable.
    split; [exact Htable|]. intros e1 e2 Hin1 Hin2.
    apply (memo_rows_intro solved).
    + by apply solved_functional.
    + by eapply expected_table_row.
    + by eapply expected_table_row.
Qed.

(** C6. A worker that returns hands back one row per example of its
    partition, in the order of the partition, labelled by the identifier
    of the example. A table returned by [pairs_to_vec] has as many rows as
    there are examples, its labels being their identifiers reordered. The
    callers compare the two lengths and raise an [AssertionError] on a
    mismatch: [get_labeled_data] and [get_unlabeled_data] only return
    lists and tables of the same length. *)
Theorem row_count_invariant :
  (∀ partition encoding_cnt σ r σ',
     exec (pair_partition_to_vec partition encoding_cnt) σ = (Ok r, σ') →
     Forall2 (λ example row, ∃ ex, resolve example = Ok ex ∧ row.1 = pair_id ex)
       partition (df_rows r.1))
  ∧ (∀ cpu_count data encoding_cnt T,
       pairs_to_vec cpu_count data encoding_cnt = Ok T →
       df_len T = length data ∧ df_index T ≡ₚ example_pair_id <$> data)
  ∧ (∀ loaded pickled,
       length loaded ≠ df_len pickled →
       get_labeled_data loaded pickled = Raise AssertionError)
  ∧ (∀ loaded pickled specs vecs,
       get_labeled_data loaded pickled = Ok (specs, vecs) →
       length specs = df_len vecs)
  ∧ (∀ cpu_count files encoding_cnt specs vecs,
       get_unlabeled_data cpu_count files encoding_cnt = Ok (specs, vecs) →
       length specs = df_len vecs).
Proof.
  split; [|split; [|split; [|split]]].
  - intros partition encoding_cnt σ r σ' Hexec.
    apply pair_partition_to_vec_Ok in Hexec as (_ & rows & Hrows & ->).
    cbn [df_rows]. eapply Forall2_impl; [exact Hrows|].
    intros example row. apply vectorized_row_label.
  - intros cpu_count data encoding_cnt T. unfold pairs_to_vec, run_in_parallel.
    destruct (run_in_parallel_store _ _ _ _) as [r σ] eqn:Hrun.
    cbn [fst]. intros ->.
    apply run_in_parallel_store_index in Hrun as [Hperm Hlen]. by split.
  - intros loaded pickled Hne. unfold get_labeled_data, _get_pos_neg_data.
    cbv zeta. destruct (decide _) as [E|_]; [|done].
    exfalso. apply Hne. rewrite E. unfold df_len, fillna. cbn [df_rows].
    apply length_fmap.
  - intros loaded pickled specs vecs. unfold get_labeled_data. cbv zeta.
    destruct (decide _) as [E|_]; [|done]. by intros [= <- <-].
  - intros cpu_count files encoding_cnt specs vecs. unfold get_unlabeled_data.
    destruct (load_unlabeled_specs files) as [specs'|]; [|done]. cbn [res_bind].
    destruct (pairs_to_vec _ _ _) as [vecs'|]; [|done]. cbn [res_bind].
    destruct (decide _) as [E|_]; [|done]. by intros [= <- <-].
Qed.

(** C7. A run of [pairs_to_vec] in which the payload of some example does
    not parse, or in which a call of the solver raised, ends with an
    exception and returns no table; a table, when there is one, has the
    rows of all the examples. In the pool, a task that raised makes
    [pool.map] raise; and under the contract of the solver an example that
    fails makes every schedule end with an exception. *)
Theorem fail_fast cpu_count data encoding_cnt r σ :
  run_in_parallel_store pair_partition_to_vec cpu_count data encoding_cnt = (r, σ) →
  ((∃ e, e ∈ data
         ∧ (is_Raise (negative_task (as_posneg e))
            ∨ is_Raise (positive_task (as_posneg e)))) →
   is_Raise r)
  ∧ ((∃ t, t ∈ solver_calls σ ∧ is_Raise (count_violations t)) → is_Raise r)
  ∧ (is_Raise r → ∀ T, r ≠ Ok T)
  ∧ (∀ T, r = Ok T → df_len T = length data)
  ∧ (∀ jobs r', pool_result jobs r' → (∃ e, Done (Raise e) ∈ jobs) → is_Raise r')
  ∧ (solver_pure →
     ∀ r', pairs_to_vec_sched cpu_count data r' →
           (∃ e, e ∈ data ∧ is_Raise (example_row (ItNdarray (to_ndarray e)))) →
           is_Raise r').
Proof.
  intros Hrun. split; [|split; [|split; [|split; [|split]]]].
  - intros (e & Hin & Hfail). destruct r as [T|x]; [exfalso|by eexists].
    destruct (run_in_parallel_store_row _ _ _ _ _ _ Hrun Hin)
      as (row & _ & ex & tn & tp & kn & kp & vn & vp & Hx & Htn & Htp & _).
    rewrite resolve_ndarray in Hx. injection Hx as <-.
    destruct Hfail as [[x E]|[x E]]; congruence.
  - intros (t & Hin & Hfail). destruct r as [T|x]; [exfalso|by eexists].
    apply run_in_parallel_store_Ok in Hrun as (_ & _ & [_ Hcalls] & _).
    eapply is_Raise_not_Ok; [exact Hfail|].
    by eapply (proj1 (Forall_forall _ _) Hcalls).
  - intros [x ->] T. discriminate.
  - intros T ->. by apply run_in_parallel_store_index in Hrun as [_ Hlen].
  - intros jobs r' Hres (e & Hin). destruct Hres as [dfs|jobs x _]; [|by eexists].
    apply list_elem_of_fmap in Hin as (df & Hdf & _). discriminate.
  - intros pure r' Hsched (e & Hin & Hfail).
    destruct r' as [T|x]; [exfalso|by eexists].
    apply (pairs_to_vec_sched_Ok pure) in Hsched. unfold expected_table in Hsched.
    destruct (example_rows (items data)) as [rows|] eqn:Erows; [|done].
    eapply is_Raise_not_Ok; [exact Hfail|].
    eapply example_rows_elem; [by eexists|].
    unfold items. by do 2 apply list_elem_of_fmap_2.
Qed.

(** C8, as amended. In a table returned by [pairs_to_vec] the columns are
    those of [get_nested_index] (the features under [negative], then
    under [positive], then [source] and [task]), every row has a cell for
    each column, the labels are in ascending order, and the row of an
    example, labelled by its identifier, holds the counts of the vector of
    its negative task under [negative], those of its positive task under
    [positive], and its [source] and [task] fields. A feature that a
    vector does not mention is a missing value in this table; it is 0 only
    in the table that [_get_pos_neg_data] hands back, which replaces the
    missing values of the stored table. *)
Theorem feature_table_layout cpu_count data encoding_cnt T σ :
  run_in_parallel_store pair_partition_to_vec cpu_count data encoding_cnt
    = (Ok T, σ) →
  df_columns T
    = (pair "negative" <$> get_feature_names)
      ++ (pair "positive" <$> get_feature_names)
      ++ [("source", ""); ("task", "")]
  ∧ Forall (λ row, length row.2 = length (df_columns T)) (df_rows T)
  ∧ Sorted str_le (df_index T)
  ∧ (∀ e, e ∈ data →
       ∃ row tn tp kn kp vn vp,
         row ∈ df_rows T ∧ row.1 = example_pair_id e
         ∧ negative_task (as_posneg e) = Ok tn ∧ Task_to_asp tn = Ok kn
         ∧ processed_specs σ !! kn = Some vn ∧ solved kn vn
         ∧ positive_task (as_posneg e) = Ok tp ∧ Task_to_asp tp = Ok kp
         ∧ processed_specs σ !! kp = Some vp ∧ solved kp vp
         ∧ row.2 = (count_cell vn <$> get_feature_names)
                   ++ (count_cell vp <$> get_feature_names)
                   ++ [CObj (source (as_posneg e)); CObj (task (as_posneg e))])
  ∧ (∀ vec feature,
       vec !! feature = None →
       count_cell vec feature = NaN
       ∧ fillna_cell (count_cell vec feature) = CInt 0)
  ∧ (∀ vec feature n,
       vec !! feature = Some n →
       count_cell vec feature = CInt n
       ∧ fillna_cell (count_cell vec feature) = CInt n)
  ∧ df_columns (_get_pos_neg_data T) = df_columns T
  ∧ df_rows (_get_pos_neg_data T)
    = (λ row : string * list cell, (row.1, fillna_cell <$> row.2)) <$> df_rows T.
Proof.
  intros Hrun.
  pose proof (run_in_parallel_store_columns _ _ _ _ _ Hrun) as [Hcols Hlen].
  split; [by rewrite Hcols, get_nested_index_eq|]. split; [exact Hlen|].
  split; [by eapply run_in_parallel_store_sorted|]. split.
  { intros e Hin.
    pose proof (run_in_parallel_store_cache_ok _ _ _ _ _ Hrun) as Hok.
    destruct (run_in_parallel_store_row _ _ _ _ _ _ Hrun Hin)
      as (row & Hrow & ex & tn & tp & kn & kp & vn & vp
          & Hx & Htn & Htp & Hkn & Hkp & Hvn & Hvp & ->).
    rewrite resolve_ndarray in Hx. injection Hx as <-.
    exists (pair_id (as_posneg e), feature_row (as_posneg e) vn vp),
      tn, tp, kn, kp, vn, vp.
    cbn [fst snd]. rewrite as_posneg_pair_id in *.
    repeat split; try done; by eapply Hok. }
  split.
  { intros vec feature E. unfold count_cell. by rewrite E. }
  split.
  { intros vec feature n E. unfold count_cell. by rewrite E. }
  done.
Qed.

(** C9. An array row is rebuilt by position as a [PosNegExample] whatever
    the tuple it came from: for an unlabeled example the [left] payload
    sits in the field [negative] and the [right] payload in [positive]
    (the tuple itself, not turned into an array, has no attribute
    [negative]). So in a table returned by [pairs_to_vec] the row of an
    unlabeled example carries under [negative] the counts the dictionary
    holds for the task of its left payload (parsed with the counter at 0)
    and under [positive] those for the task of its right payload; these
    are results of the solver, and under its contract the results for
    these very tasks. *)
Theorem ndarray_rebuilt_as_posneg :
  (∀ e, resolve (ItNdarray (to_ndarray e)) = Ok (as_posneg e))
  ∧ (∀ p, as_posneg (ExPosNeg p) = p)
  ∧ (∀ u, as_posneg (ExUnlabeled u)
          = mkPosNeg (u_pair_id u) (u_data u) (u_task u) (u_source u)
              (left u) (right u))
  ∧ (∀ u, resolve (ItExample (ExUnlabeled u)) = Raise AttributeError)
  ∧ (∀ cpu_count data encoding_cnt T σ u,
       run_in_parallel_store pair_partition_to_vec cpu_count data encoding_cnt
         = (Ok T, σ) →
       ExUnlabeled u ∈ data →
       ∃ row ql qr kl kr vl vr,
         row ∈ df_rows T ∧ row.1 = u_pair_id u
         ∧ Query_from_vegalite (left u) 0 = Ok ql
         ∧ Task_to_asp (mkTask (u_data u) ql.1 (u_task u)) = Ok kl
         ∧ processed_specs σ !! kl = Some vl ∧ solved kl vl
         ∧ negative_cells row.2 = count_cell vl <$> get_feature_names
         ∧ Query_from_vegalite (right u) ql.2 = Ok qr
         ∧ Task_to_asp (mkTask (u_data u) qr.1 (u_task u)) = Ok kr
         ∧ processed_specs σ !! kr = Some vr ∧ solved kr vr
         ∧ positive_cells row.2 = count_cell vr <$> get_feature_names
         ∧ (solver_pure →
            count_violations (mkTask (u_data u) ql.1 (u_task u)) = Ok vl
            ∧ count_violations (mkTask (u_data u) qr.1 (u_task u)) = Ok vr)).
Proof.
  split; [reflexivity|]. split; [by intros []|]. split; [reflexivity|].
  split; [reflexivity|].
  intros cpu_count data encoding_cnt T σ u Hrun Hin.
  pose proof (run_in_parallel_store_cache_ok _ _ _ _ _ Hrun) as Hok.
  destruct (run_in_parallel_store_row _ _ _ _ _ _ Hrun Hin)
    as (row & Hrow & ex & tn & tp & kn & kp & vn & vp
        & Hx & Htn & Htp & Hkn & Hkp & Hvn & Hvp & ->).
  rewrite resolve_ndarray in Hx. injection Hx as <-.
  unfold negative_task, positive_task in Htn, Htp. cbn in Htn, Htp.
  destruct (Query_from_vegalite (left u) 0) as [ql|] eqn:Eql; [|done].
  cbn in Htn, Htp. injection Htn as <-.
  destruct (Query_from_vegalite (right u) ql.2) as [qr|] eqn:Eqr; [|done].
  cbn in Htp. injection Htp as <-.
  exists (u_pair_id u, feature_row (as_posneg (ExUnlabeled u)) vn vp),
    ql, qr, kn, kp, vn, vp.
  cbn [fst snd]. rewrite feature_row_negative, feature_row_positive.
  pose proof (Hok _ _ Hvn) as Hsn. pose proof (Hok _ _ Hvp) as Hsp.
  repeat match goal with |- _ ∧ _ => split; [done|] end.
  intros pure. split.
  - destruct Hsn as (t' & Ek & Ev). by rewrite (pure _ t' kn Hkn Ek).
  - destruct Hsp as (t' & Ek & Ev). by rewrite (pure _ t' kp Hkp Ek).
Qed.

(** C10. Every example built by [load_unlabeled_specs] has [None] in its
    [data] field and, in its [task] field, the data object that the cache
    of the loader holds for the URL of its left specification. For such an
    example the loop body of the worker is the program that resolves the
    task [(None, query of the left payload, data object)] and then the
    task [(None, query of the right payload, data object)] and builds the
    row from the two vectors. Run on any state of the dictionary, one
    iteration calls the solver on tasks of this form only, a frame it
    returns is the one row of the example, with the data object itself in
    the cell of the column [task], and it does return a frame once the two
    payloads parse, the two tasks have a key and the solver answers on
    them. A run of [pairs_to_vec] over the loaded examples calls the
    solver on such tasks only, whether it returns or raises; a table it
    returns has one row per example, each with the data object of the
    example in the column [task], and the run has then called the solver.
    In the pool, however the examples are split and under every
    schedule, the solver is called on such tasks only. *)
Theorem unlabeled_examples_shape files st :
  load_unlabeled_specs_state files = Ok st →
  load_unlabeled_specs files = Ok (raw_data st)
  ∧ Forall (loaded_shape (data_cache st)) (raw_data st)
  ∧ (∀ u d,
       u ∈ raw_data st →
       u_task u = PyData d →
       u_data u = PyNone
       ∧ (∀ t, negative_task (as_posneg (ExUnlabeled u)) = Ok t
               ∨ positive_task (as_posneg (ExUnlabeled u)) = Ok t →
               task_data t = PyNone ∧ task_task t = PyData d)
       ∧ (∀ vn vp,
            task_cell (feature_row (as_posneg (ExUnlabeled u)) vn vp)
            = Some (CObj (PyData d)))
       ∧ (∀ columns encoding_cnt,
            vectorize_example columns (ItNdarray (to_ndarray (ExUnlabeled u)))
              encoding_cnt
            = (ql <- lift (Query_from_vegalite (left u) 0) ;;
               neg_feature_vec <-
                 count_violations_memoized (mkTask PyNone ql.1 (PyData d)) ;;
               qr <- lift (Query_from_vegalite (right u) ql.2) ;;
               pos_feature_vec <-
                 count_violations_memoized (mkTask PyNone qr.1 (PyData d)) ;;
               Ret (pd_DataFrame
                      (row_specs (as_posneg (ExUnlabeled u))
                         neg_feature_vec pos_feature_vec)
                      columns (u_pair_id u), qr.2)))
       ∧ (∀ encoding_cnt σ r σ',
            exec (vectorize_example get_nested_index
                    (ItNdarray (to_ndarray (ExUnlabeled u))) encoding_cnt) σ
              = (r, σ') →
            (∃ new, solver_calls σ' = solver_calls σ ++ new
                    ∧ Forall (λ t, task_data t = PyNone ∧ task_task t = PyData d)
                        new)
            ∧ ∀ df encoding_cnt',
                r = Ok (df, encoding_cnt') →
                ∃ cells, df_rows df = [(u_pair_id u, cells)]
                         ∧ task_cell cells = Some (CObj (PyData d)))
       ∧ (∀ encoding_cnt σ ql qr,
            Query_from_vegalite (left u) 0 = Ok ql →
            Query_from_vegalite (right u) ql.2 = Ok qr →
            is_Ok (Task_to_asp (mkTask PyNone ql.1 (PyData d))) →
            is_Ok (count_violations (mkTask PyNone ql.1 (PyData d))) →
            is_Ok (Task_to_asp (mkTask PyNone qr.1 (PyData d))) →
            is_Ok (count_violations (mkTask PyNone qr.1 (PyData d))) →
            ∃ df encoding_cnt' σ',
              exec (vectorize_example get_nested_index
                      (ItNdarray (to_ndarray (ExUnlabeled u))) encoding_cnt) σ
                = (Ok (df, encoding_cnt'), σ'))
       ∧ (∀ cpu_count encoding_cnt T σ,
            run_in_parallel_store pair_partition_to_vec cpu_count
              (ExUnlabeled <$> raw_data st) encoding_cnt = (Ok T, σ) →
            ∃ row, row ∈ df_rows T ∧ row.1 = u_pair_id u
                   ∧ task_cell row.2 = Some (CObj (PyData d))))
  ∧ (∀ cpu_count encoding_cnt r σ,
       run_in_parallel_store pair_partition_to_vec cpu_count
         (ExUnlabeled <$> raw_data st) encoding_cnt = (r, σ) →
       Forall (unlabeled_task (data_cache st)) (solver_calls σ)
       ∧ ∀ T, r = Ok T →
              df_len T = length (raw_data st) ∧ solver_calls σ ≠ [])
  ∧ (∀ splits processes tasks d jobs misses calls,
       df_split (ExUnlabeled <$> raw_data st) splits = Ok tasks →
       rtc (pool_step_counted pair_partition_to_vec processes)
         (pool_init tasks) ((d, jobs), (misses, calls)) →
       Forall (unlabeled_task (data_cache st)) calls).
Proof.
  intros Hload. split.
  { unfold load_unlabeled_specs. by rewrite Hload. }
  assert (Forall (loaded_shape (data_cache st)) (raw_data st)) as Hshape.
  { eapply load_pairs_Ok; [exact Hload|]. constructor. }
  assert (Forall (λ e, builds (unlabeled_task (data_cache st))
                         (ItNdarray (to_ndarray e)))
            (ExUnlabeled <$> raw_data st)) as Hbuilds.
  { apply Forall_fmap. eapply Forall_impl; [exact Hshape|].
    intros u. apply loaded_builds. }
  split; [exact Hshape|]. split; [|split].
  - intros u d Hin Htask.
    pose proof (proj1 (Forall_forall _ _) Hshape u Hin) as (Hdata & _).
    split; [exact Hdata|]. split; [|split; [|split; [|split; [|split; [|]]]]].
    + intros t [Ht|Ht]; unfold negative_task, positive_task in Ht; cbn in Ht.
      * destruct (Query_from_vegalite (left u) 0) as [ql|]; [|done].
        cbn in Ht. injection Ht as <-. by cbn.
      * destruct (Query_from_vegalite (left u) 0) as [ql|]; [|done]. cbn in Ht.
        destruct (Query_from_vegalite (right u) ql.2) as [qr|]; [|done].
        cbn in Ht. injection Ht as <-. by cbn.
    + intros vn vp. rewrite feature_row_task. cbn. by rewrite Htask.
    + intros columns encoding_cnt. by apply vectorize_example_unlabeled.
    + intros encoding_cnt σ r σ' Hexec. split.
      * eapply (exec_ledger _ 0 0); [|exact Hexec].
        apply ledger_vectorize_example. by apply unlabeled_builds.
      * intros df encoding_cnt' ->.
        apply vectorize_example_Ok in Hexec as (_ & row & Hrow & Hdf).
        cbn [fst] in Hdf. subst df.
        destruct Hrow as (ex & tn & tp & kn & kp & vn & vp
                          & Hx & _ & _ & _ & _ & _ & _ & ->).
        rewrite resolve_ndarray in Hx. injection Hx as <-.
        eexists. split; [reflexivity|].
        rewrite feature_row_task. cbn. by rewrite Htask.
    + intros encoding_cnt σ ql qr Eql Eqr Hkl Hvl Hkr Hvr.
      destruct (vectorize_example_returns get_nested_index
                  (ItNdarray (to_ndarray (ExUnlabeled u)))
                  (as_posneg (ExUnlabeled u)) ql qr encoding_cnt σ)
        as ([df encoding_cnt'] & σ' & Hexec);
        try (cbn; rewrite ?Hdata, ?Htask; done).
      by exists df, encoding_cnt', σ'.
    + intros cpu_count encoding_cnt T σ Hrun.
      assert (ExUnlabeled u ∈ ExUnlabeled <$> raw_data st) as Hin'
        by (by apply list_elem_of_fmap_2).
      destruct (run_in_parallel_store_row _ _ _ _ _ _ Hrun Hin')
        as (row & Hrow & ex & tn & tp & kn & kp & vn & vp
            & Hx & _ & _ & _ & _ & _ & _ & ->).
      rewrite resolve_ndarray in Hx. injection Hx as <-.
      eexists. split; [exact Hrow|]. cbn [fst snd]. split; [done|].
      rewrite feature_row_task. cbn. by rewrite Htask.
  - intros cpu_count encoding_cnt r σ Hrun. split.
    + by eapply run_in_parallel_store_calls.
    + intros T ->. split.
      * apply run_in_parallel_store_index in Hrun as [_ Hlen].
        by rewrite Hlen, length_fmap.
      * by eapply run_in_parallel_store_called.
  - intros splits processes tasks d jobs misses calls Es Hsteps.
    pose proof (df_split_builds _ _ _ _ Hbuilds Es) as Htasks.
    by destruct (pool_counters _ _ _ _ Htasks Hsteps) as (_ & _ & Hcalls).
Qed.
End Claims.

(** * The claims on the small instance *)

Section ToyFacts.
Import Toy.

Lemma toy_solver_pure : solver_pure (H := draco).
Proof.
  intros t1 t2 key E1 E2. change (solver t1 = solver t2).
  change (to_asp t1 = Ok key) in E1. change (to_asp t2 = Ok key) in E2.
  unfold solver. by rewrite E1, E2.
Qed.

(** The moody solver breaks the contract: the same key, two answers. *)
Lemma toy_moody_not_pure : ¬ solver_pure (H := moody).
Proof.
  intros pure.
  specialize (pure (mkTask (PyData 7) [("e0", "x")] (PyStr "summary"))
                   (mkTask (PyData 7) [("e0", "x")] (PyStr "value"))
                   _ eq_refl eq_refl).
  vm_compute in pure. discriminate pure.
Qed.

(** The fickle solver breaks it too, and returns on both tasks. *)
Lemma toy_fickle_not_pure : ¬ solver_pure (H := fickle).
Proof.
  intros pure.
  specialize (pure (mkTask (PyData 7) [("e0", "x")] (PyStr "summary"))
                   (mkTask (PyData 7) [("e0", "x")] (PyStr "value"))
                   _ eq_refl eq_refl).
  vm_compute in pure. discriminate pure.
Qed.

(** Two workers race for one key: both miss it, both call the solver, and
    one vector is stored. *)
Lemma toy_race :
  ∃ tasks d jobs calls,
    df_split (H := draco) eleven_examples
      (Partitioner.splits 2 (length eleven_examples)) = Ok tasks
    ∧ rtc (pool_step_counted (H := draco) pair_partition_to_vec 2)
        (pool_init tasks) ((d, jobs), (2, calls))
    ∧ size d = 1 ∧ length calls = 2.
Proof.
  pose (tasks := match df_split (H := draco) eleven_examples 2 with
                 | Ok tasks => tasks
                 | Raise _ => []
                 end).
  assert (df_split (H := draco) eleven_examples
            (Partitioner.splits 2 (length eleven_examples)) = Ok tasks) as Es
    by (vm_compute; reflexivity).
  exists tasks. eexists _, _, _. split; [exact Es|]. split.
  - unfold pool_init.
    eapply rtc_l.
    { eapply counted_start with (i := 0) (encoding_cnt := 0);
        [reflexivity|exact (le_S _ _ (le_n 1))]. }
    eapply rtc_l.
    { eapply counted_start with (i := 1) (encoding_cnt := 0);
        [reflexivity|exact (le_n 2)]. }
    eapply rtc_l; [eapply counted_contains with (i := 0); reflexivity|].
    eapply rtc_l; [eapply counted_contains with (i := 1); reflexivity|].
    eapply rtc_l; [eapply counted_count with (i := 0); reflexivity|].
    eapply rtc_l; [eapply counted_count with (i := 1); reflexivity|].
    eapply rtc_l; [eapply counted_setitem with (i := 0); reflexivity|].
    eapply rtc_l; [eapply counted_setitem with (i := 1); reflexivity|].
    apply rtc_refl.
  - split; reflexivity.
Qed.

(** Without the contract of the solver the pool can hand back a table in
    which two rows with one negative key carry different negative cells.
    On two processors the eleven examples make two tasks. The first worker
    misses the key and is overtaken: the second worker runs its task to the
    end and stores what the fickle solver says for the task type [value];
    the first worker then calls the solver for the task type [summary],
    overwrites the entry and goes on with it. Run task after task, the
    same examples get the same negative cells. *)
Lemma toy_contract_needed :
  let e0 := posneg "m-0" "summary" ["x"] ["x"; "y"] in
  let e6 := posneg "m-6" "value" ["x"] ["x"; "y"] in
  ∃ T T' t0 t6,
    pairs_to_vec_sched (H := fickle) 2 eleven_examples (Ok T)
    ∧ e0 ∈ eleven_examples ∧ e6 ∈ eleven_examples
    ∧ negative_task (H := fickle) (as_posneg (H := fickle) e0) = Ok t0
    ∧ negative_task (H := fickle) (as_posneg (H := fickle) e6) = Ok t6
    ∧ Task_to_asp (Draco := fickle) t0 = Task_to_asp (Draco := fickle) t6
    ∧ df_rows T !! 0
      = Some ("m-0", [CInt 1; NaN; CInt 100; NaN; CObj (PyStr "manual");
                      CObj (PyStr "summary")])
    ∧ df_rows T !! 7
      = Some ("m-6", [CInt 100; NaN; CInt 100; NaN; CObj (PyStr "manual");
                      CObj (PyStr "value")])
    ∧ ¬ memo_rows (H := fickle) T e0 e6
    ∧ pairs_to_vec (H := fickle) 2 eleven_examples 0 = Ok T'
    ∧ df_rows T' !! 0
      = Some ("m-0", [CInt 1; NaN; CInt 2; NaN; CObj (PyStr "manual");
                      CObj (PyStr "summary")])
    ∧ df_rows T' !! 7
      = Some ("m-6", [CInt 1; NaN; CInt 2; NaN; CObj (PyStr "manual");
                      CObj (PyStr "value")]).
Proof.
  intros e0 e6.
  pose (tasks := match df_split (H := fickle) eleven_examples 2 with
                 | Ok tasks => tasks
                 | Raise _ => []
                 end).
  assert (df_split (H := fickle) eleven_examples
            (Partitioner.splits 2 (length eleven_examples)) = Ok tasks) as Es
    by (vm_compute; reflexivity).
  pose (t0 := tasks !!! 0). pose (t1 := tasks !!! 1).
  pose (p1 := pair_partition_to_vec (H := fickle) t1 0).
  pose (out1 := match exec p1 empty_store with
                | (Ok a, σ) => (a, σ)
                | (Raise _, σ) => ((mkDataFrame [] [], 0), σ)
                end).
  assert (exec p1 empty_store = (Ok out1.1, out1.2)) as E1
    by (vm_compute; reflexivity).
  pose (p0 := match pair_partition_to_vec (H := fickle) t0 0 with
              | Contains _ k => k false
              | _ => Throw KeyError
              end).
  pose (out0 := match exec p0 out1.2 with
                | (Ok a, σ) => (a, σ)
                | (Raise _, σ) => ((mkDataFrame [] [], 0), σ)
                end).
  assert (exec p0 out1.2 = (Ok out0.1, out0.2)) as E0
    by (vm_compute; reflexivity).
  pose (T := match pd_concat [out0.1.1; out1.1.1] with
             | Ok df => sort_index df
             | Raise _ => mkDataFrame [] []
             end).
  pose (T' := match pairs_to_vec (H := fickle) 2 eleven_examples 0 with
              | Ok df => df
              | Raise _ => mkDataFrame [] []
              end).
  exists T, T', (mkTask (PyData 7) [("e0", "x")] (PyStr "summary")),
    (mkTask (PyData 7) [("e0", "x")] (PyStr "value")).
  assert (df_rows T !! 0
          = Some ("m-0", [CInt 1; NaN; CInt 100; NaN; CObj (PyStr "manual");
                          CObj (PyStr "summary")])) as Hrow0
    by (vm_compute; reflexivity).
  assert (df_rows T !! 7
          = Some ("m-6", [CInt 100; NaN; CInt 100; NaN; CObj (PyStr "manual");
                          CObj (PyStr "value")])) as Hrow6
    by (vm_compute; reflexivity).
  split; [|split; [|split; [|split; [|split; [|split; [|split; [|split; [|split; [|split; [|split]]]]]]]]]].
  - apply (run_in_parallel_sched_intro (H := fickle) _ 2 _ tasks
             (Ok [out0.1.1; out1.1.1]) Es).
    eexists _, _. split.
    + eapply rtc_l.
      { eapply step_start with (i := 0) (encoding_cnt := 0);
          [reflexivity|exact (le_S _ _ (le_n 1))]. }
      eapply rtc_l; [eapply step_contains with (i := 0); reflexivity|].
      eapply rtc_l.
      { eapply step_start with (i := 1) (encoding_cnt := 0);
          [reflexivity|exact (le_n 2)]. }
      eapply rtc_trans.
      { eapply (exec_steps _ _ p1 empty_store _ _ _ 1 E1). reflexivity. }
      eapply rtc_trans.
      { eapply (exec_steps _ _ p0 out1.2 _ _ _ 0 E0). reflexivity. }
      apply rtc_refl.
    + apply (pool_all_done [out0.1.1; out1.1.1]).
  - apply (list_elem_of_lookup_2 _ 0). reflexivity.
  - apply (list_elem_of_lookup_2 _ 6). reflexivity.
  - reflexivity.
  - reflexivity.
  - reflexivity.
  - exact Hrow0.
  - exact Hrow6.
  - intros (row1 & row2 & Hin1 & Hin2 & Hid1 & Hid2 & _ & Hneg & _).
    specialize (Hneg _ _ eq_refl eq_refl eq_refl).
    assert (∀ row : string * list (Model.cell nat spec),
              row ∈ df_rows T →
              (row.1 = "m-0" → negative_cells (H := fickle) row.2 = [CInt 1; NaN])
              ∧ (row.1 = "m-6" → negative_cells (H := fickle) row.2 = [CInt 100; NaN]))
      as Hrows.
    { assert (df_rows T
              = match pd_concat [out0.1.1; out1.1.1] with
                | Ok df => df_rows (sort_index df)
                | Raise _ => []
                end) as -> by reflexivity.
      vm_compute. intros row Hin.
      repeat (apply elem_of_cons in Hin as [->|Hin];
              [split; intros Hid; first [reflexivity|discriminate Hid]|]).
      exact (False_ind _ (proj1 (elem_of_nil _) Hin)). }
    pose proof (proj1 (Hrows row1 Hin1) Hid1) as H1.
    pose proof (proj2 (Hrows row2 Hin2) Hid2) as H2.
    pose proof (eq_trans (eq_sym H1) (eq_trans Hneg H2)) as Hcells.
    discriminate Hcells.
  - vm_compute. reflexivity.
  - vm_compute. reflexivity.
  - vm_compute. reflexivity.
Qed.

Example toy_partition_counts :
  Partitioner.splits 1 (length many_examples) = 20
  ∧ Partitioner.splits 2 (length many_examples) = 21
  ∧ Partitioner.processes 1 201 = 1 ∧ Partitioner.processes 2 201 = 2.
Proof. vm_compute. done. Qed.

Example toy_many_examples_table :
  ∃ T, pairs_to_vec (H := draco) 1 many_examples 5 = Ok T
       ∧ pairs_to_vec (H := draco) 2 many_examples 0 = Ok T
       ∧ df_len T = 201.
Proof. eexists. split; [vm_compute; reflexivity|]. by vm_compute. Qed.
End ToyFacts.

(** Witness of C1: one processor against two, 20 partitions against 21. *)
Lemma determinism_across_partitions_witness :
  1 ≤ 1 ∧ 1 ≤ 2
  ∧ pairs_to_vec (H := Toy.draco) 1 Toy.many_examples 5
    = pairs_to_vec (H := Toy.draco) 2 Toy.many_examples 0
  ∧ ∀ r1 r2,
      pairs_to_vec_sched (H := Toy.draco) 1 Toy.many_examples r1 →
      pairs_to_vec_sched (H := Toy.draco) 2 Toy.many_examples r2 →
      ∀ T, r1 = Ok T ↔ r2 = Ok T.
Proof.
  split; [lia|]. split; [lia|].
  destruct (determinism_across_partitions (H := Toy.draco)
              (λ row, Z.of_nat (String.length row.1)) 1 2 Toy.many_examples)
    as (Hrun & Hsched & _); [lia|lia|].
  split; [apply (Hrun 5 0)|].
  intros r1 r2 H1 H2. apply (Hsched toy_solver_pure r1 r2 H1 H2).
Defined.

(** C2 as stated fails on the empty list: no floor is applied. *)
Lemma partitioner_floor_counterexample :
  Partitioner.splits 8 (length (@nil nat)) = 0
  ∧ ¬ (1 ≤ Partitioner.splits 8 (length (@nil nat)))
  ∧ Partitioner.array_split (@nil nat) (Partitioner.splits 8 (length (@nil nat)))
    = Raise ValueError.
Proof. split; [reflexivity|]. split; [vm_compute; lia|reflexivity]. Qed.

(** Witness of C2: 25 examples on 4 processors make 3 partitions. *)
Lemma partitioner_bounds_witness :
  1 ≤ 4 ∧ 1 ≤ length (seq 0 25)
  ∧ Partitioner.splits 4 (length (seq 0 25)) = 3
  ∧ ∃ parts,
      Partitioner.array_split (seq 0 25) (Partitioner.splits 4 (length (seq 0 25)))
        = Ok parts
      ∧ length parts = Partitioner.splits 4 (length (seq 0 25))
      ∧ concat parts = seq 0 25
      ∧ Forall (λ part, part ≠ []) parts.
Proof.
  split; [lia|]. split; [cbn; lia|]. split; [reflexivity|].
  apply (partitioner_bounds 4 (seq 0 25)); cbn; lia.
Defined.

(** C3 as stated fails: the empty input yields no table at all. *)
Lemma empty_input_counterexample :
  pairs_to_vec (H := Toy.draco) 8 [] 0 = Raise ValueError
  ∧ ¬ ∃ T, pairs_to_vec (H := Toy.draco) 8 [] 0 = Ok T
           ∧ df_len T = 0
           ∧ df_columns T = get_nested_index (H := Toy.draco).
Proof. split; [reflexivity|]. intros (T & E & _). discriminate E. Qed.

(** Witness of C4. Task after task on one processor: four resolutions,
    three keys, three calls. In the pool on two processors: the state in
    which two workers have raced for one key, two misses and two calls for
    one stored vector. Under the contract, which the toy solver meets, the
    rows of any two of the eleven examples agree in every table the pool
    hands back. *)
Lemma memoization_correct_witness :
  (∃ r σ,
     run_in_parallel_store (H := Toy.draco) pair_partition_to_vec 1
       Toy.two_examples 0 = (r, σ)
     ∧ length (solver_calls σ) = 3
     ∧ length (solver_calls σ) ≤ cache_misses σ
     ∧ (is_Ok r → length (solver_calls σ) = size (processed_specs σ)))
  ∧ (∃ tasks d jobs calls,
       df_split (H := Toy.draco) Toy.eleven_examples
         (Partitioner.splits 2 (length Toy.eleven_examples)) = Ok tasks
       ∧ rtc (pool_step_counted (H := Toy.draco) pair_partition_to_vec 2)
           (pool_init tasks) ((d, jobs), (2, calls))
       ∧ size d = 1 ∧ length calls = 2
       ∧ size d ≤ length calls ∧ length calls ≤ 2
       ∧ rtc (pool_step (H := Toy.draco) pair_partition_to_vec 2)
           (∅, Pending <$> tasks) (d, jobs))
  ∧ (∀ T, pairs_to_vec_sched (H := Toy.draco) 2 Toy.eleven_examples (Ok T) →
          expected_table (H := Toy.draco) Toy.eleven_examples = Ok T
          ∧ ∀ e1 e2, e1 ∈ Toy.eleven_examples → e2 ∈ Toy.eleven_examples →
                     memo_rows (H := Toy.draco) T e1 e2).
Proof.
  split; [|split].
  - destruct (run_in_parallel_store (H := Toy.draco) pair_partition_to_vec 1
                Toy.two_examples 0) as [r σ] eqn:E.
    exists r, σ. split; [reflexivity|]. split.
    + vm_compute in E. injection E as _ <-. reflexivity.
    + destruct (memoization_correct (H := Toy.draco) 1 Toy.two_examples)
        as (Hseq & _).
      destruct (Hseq 0 r σ E) as (Hle & Hsz & _). by split.
  - destruct toy_race as (tasks & d & jobs & calls & Es & Hsteps & Hd & Hc).
    exists tasks, d, jobs, calls.
    destruct (memoization_correct (H := Toy.draco) 2 Toy.eleven_examples)
      as (_ & Hpool & Hsame & _).
    destruct (Hpool 2 tasks d jobs 2 calls Hsteps) as [Hstored Hcalled].
    repeat (split; [assumption|]).
    apply (proj2 (Hsame 2 tasks d jobs)). by exists 2, calls.
  - exact (proj2 (proj2 (proj2
             (memoization_correct (H := Toy.draco) 2 Toy.eleven_examples)))
             toy_solver_pure).
Defined.

(** Witness of C5: the second task has the key of the first and a task type
    on which the moody solver fails; the cached vector is returned. *)
Lemma cache_resolution_idempotent_witness :
  let t1 : Task nat Toy.spec Toy.query :=
    mkTask (PyData 7) [("e0", "x")] (PyStr "summary") in
  let t2 : Task nat Toy.spec Toy.query :=
    mkTask (PyData 7) [("e0", "x")] (PyStr "value") in
  let σ1 := (exec (count_violations_memoized (H := Toy.moody) t1) empty_store).2 in
  exec (count_violations_memoized (H := Toy.moody) t1) empty_store
    = (Ok {[ "a" := 1%Z ]}, σ1)
  ∧ Task_to_asp (Draco := Toy.moody) t2 = Task_to_asp (Draco := Toy.moody) t1
  ∧ count_violations (Draco := Toy.moody) t2 = Raise (OtherError "ComputeError")
  ∧ exec (count_violations_memoized (H := Toy.moody) t2) σ1
    = (Ok {[ "a" := 1%Z ]}, σ1).
Proof.
  intros t1 t2 σ1.
  assert (exec (count_violations_memoized (H := Toy.moody) t1) empty_store
          = (Ok {[ "a" := 1%Z ]}, σ1)) as E by (vm_compute; reflexivity).
  split; [exact E|]. split; [reflexivity|]. split; [reflexivity|].
  apply (cache_resolution_idempotent (H := Toy.moody) t1 empty_store _ σ1 E t2).
  reflexivity.
Defined.

(** Witness of C6 on the unlabeled corpus: three pairs, three rows. *)
Lemma row_count_invariant_witness :
  ∃ specs vecs,
    get_unlabeled_data (H := Toy.draco) 2 Toy.corpus 0 = Ok (specs, vecs)
    ∧ length specs = 3 ∧ length specs = df_len vecs.
Proof.
  destruct (get_unlabeled_data (H := Toy.draco) 2 Toy.corpus 0)
    as [[specs vecs]|e] eqn:E.
  - exists specs, vecs. split; [reflexivity|]. split.
    + vm_compute in E. injection E as <- _. reflexivity.
    + exact (proj2 (proj2 (proj2 (proj2 (row_count_invariant (H := Toy.draco)))))
               2 Toy.corpus 0 specs vecs E).
  - exfalso. vm_compute in E. discriminate E.
Defined.

(** Witness of C7: the positive payload of the second example does not
    parse; the run raises. *)
Lemma fail_fast_witness :
  let bad := [Toy.posneg "m-0" "summary" ["x"] ["y"];
              Toy.posneg "m-1" "summary" ["x"] ["?"]] in
  ∃ r σ,
    run_in_parallel_store (H := Toy.draco) pair_partition_to_vec 2 bad 0 = (r, σ)
    ∧ is_Raise r.
Proof.
  intros bad.
  destruct (run_in_parallel_store (H := Toy.draco) pair_partition_to_vec 2 bad 0)
    as [r σ] eqn:E.
  exists r, σ. split; [reflexivity|].
  apply (proj1 (fail_fast (H := Toy.draco) 2 bad 0 r σ E)).
  exists (Toy.posneg "m-1" "summary" ["x"] ["?"]). split.
  - apply elem_of_cons. right. apply elem_of_cons. by left.
  - right. vm_compute. by eexists.
Defined.

(** C8 as stated fails: the solver reports no count for the feature [b],
    and the table of [pairs_to_vec] has a missing value there, not 0. *)
Lemma missing_feature_counterexample :
  ∃ T cells,
    pairs_to_vec (H := Toy.draco) 1 Toy.two_examples 0 = Ok T
    ∧ df_columns T !! 1 = Some ("negative", "b")
    ∧ df_rows T !! 0 = Some ("m-0", cells)
    ∧ cells !! 1 = Some NaN
    ∧ cells !! 1 ≠ Some (CInt 0).
Proof.
  eexists _, _. split; [vm_compute; reflexivity|].
  split; [reflexivity|]. split; [reflexivity|]. split; [reflexivity|discriminate].
Qed.

(** Witness of C8: the table of the two examples. *)
Lemma feature_table_layout_witness :
  ∃ T σ,
    run_in_parallel_store (H := Toy.draco) pair_partition_to_vec 1
      Toy.two_examples 0 = (Ok T, σ)
    ∧ df_index T = ["m-0"; "m-1"]
    ∧ Sorted str_le (df_index T)
    ∧ Forall (λ row, length row.2 = length (df_columns T)) (df_rows T).
Proof.
  destruct (run_in_parallel_store (H := Toy.draco) pair_partition_to_vec 1
              Toy.two_examples 0) as [[T|e] σ] eqn:E.
  - exists T, σ. split; [reflexivity|]. split.
    + vm_compute in E. injection E as <- _. reflexivity.
    + destruct (feature_table_layout (H := Toy.draco) _ _ _ _ _ E)
        as (_ & Hlen & Hsorted & _).
      by split.
  - exfalso. vm_compute in E. discriminate E.
Defined.

(** Witness of C9: an unlabeled example, left [x], right [y] and [z]. *)
Lemma ndarray_rebuilt_as_posneg_witness :
  let u := mkUnlabeled (Data := nat) (Json := Toy.spec) "h-0" PyNone (PyData 7)
             (PyStr "halden")
             (PyJson ("cars.json", ["x"])) (PyJson ("cars.json", ["y"; "z"])) in
  let e := as_posneg (H := Toy.draco) (ExUnlabeled u) in
  negative e = left u
  ∧ positive e = right u
  ∧ resolve (H := Toy.draco) (ItNdarray (to_ndarray (ExUnlabeled u))) = Ok e
  ∧ ∃ T, pairs_to_vec (H := Toy.draco) 1 [ExUnlabeled u] 0 = Ok T
         ∧ df_rows T
           = [("h-0", [CInt 1; NaN; CInt 2; NaN; CObj (PyStr "halden");
                       CObj (PyData 7)])].
Proof.
  intros u e.
  pose proof (ndarray_rebuilt_as_posneg (H := Toy.draco)) as (Hres & _ & Hun & _).
  split; [unfold e; by rewrite Hun|]. split; [unfold e; by rewrite Hun|].
  split; [apply Hres|].
  eexists. split; [vm_compute; reflexivity|reflexivity].
Defined.

(** Witness of C10: the corpus of one group of three specifications, loaded
    and then vectorised. Three pairs, three rows with the data object in
    the column [task], and four calls of the solver, each on a task without
    a schema. *)
Lemma unlabeled_examples_shape_witness :
  ∃ st T σ,
    load_unlabeled_specs_state (H := Toy.draco) Toy.corpus = Ok st
    ∧ length (raw_data st) = 3
    ∧ Forall (loaded_shape (data_cache st)) (raw_data st)
    ∧ Forall (λ u, u_data u = PyNone ∧ u_task u = PyData 14) (raw_data st)
    ∧ run_in_parallel_store (H := Toy.draco) pair_partition_to_vec 1
        (ExUnlabeled <$> raw_data st) 0 = (Ok T, σ)
    ∧ df_len T = 3
    ∧ df_index T = ["halden-0"; "halden-1"; "halden-2"]
    ∧ Forall (λ row, task_cell (H := Toy.draco) row.2 = Some (CObj (PyData 14)))
        (df_rows T)
    ∧ length (solver_calls σ) = 4
    ∧ solver_calls σ ≠ []
    ∧ Forall (unlabeled_task (H := Toy.draco) (data_cache st)) (solver_calls σ)
    ∧ Forall (λ t, task_data t = PyNone ∧ task_task t = PyData 14)
        (solver_calls σ).
Proof.
  pose (st := match load_unlabeled_specs_state (H := Toy.draco) Toy.corpus with
              | Ok st => st
              | Raise _ => mkLoader ∅ [] 0
              end).
  assert (load_unlabeled_specs_state (H := Toy.draco) Toy.corpus = Ok st) as E
    by (vm_compute; reflexivity).
  pose (out := match run_in_parallel_store (H := Toy.draco) pair_partition_to_vec
                       1 (ExUnlabeled <$> raw_data st) 0 with
               | (Ok T, σ) => (T, σ)
               | (Raise _, σ) => (mkDataFrame [] [], σ)
               end).
  assert (run_in_parallel_store (H := Toy.draco) pair_partition_to_vec 1
            (ExUnlabeled <$> raw_data st) 0 = (Ok out.1, out.2)) as Erun
    by (vm_compute; reflexivity).
  destruct (unlabeled_examples_shape (H := Toy.draco) _ _ E)
    as (_ & Hshape & _ & Hrun & _).
  destruct (Hrun 1 0 _ _ Erun) as (Hcalls & Htable).
  destruct (Htable _ eq_refl) as (Hlen & Hcalled).
  exists st, out.1, out.2.
  split; [exact E|]. split; [reflexivity|]. split; [exact Hshape|].
  split; [vm_compute; repeat constructor|]. split; [exact Erun|].
  split; [by rewrite Hlen|]. split; [vm_compute; reflexivity|].
  split; [vm_compute; repeat constructor|].
  split; [vm_compute; reflexivity|]. split; [exact Hcalled|].
  split; [exact Hcalls|]. vm_compute. repeat constructor.
Defined.

(** * Further properties of the module *)

(** ** Order of labels and sorted tables *)

#[global] Instance str_le_trans : Transitive str_le.
Proof.
  intros a b c. unfold str_le. rewrite <- !Is_true_true.
  apply (transitivity (R := String.le)).
Qed.

Section Order.
Context {Data Json : Type}.

#[global] Instance row_le_trans : Transitive (row_le (Data := Data) (Json := Json)).
Proof. intros r1 r2 r3. unfold row_le. apply str_le_trans. Qed.

(** Rows with pairwise distinct labels have one sorted arrangement. *)
Lemma sorted_rows_unique (l1 l2 : list (string * list (Model.cell Data Json))) :
  NoDup (fst <$> l1) →
  Sorted row_le l1 → Sorted row_le l2 → l1 ≡ₚ l2 → l1 = l2.
Proof.
  intros Hnd H1 H2 Hp. apply (Sorted_unique_strong row_le); try done.
  intros x1 x2 Hx1 Hx2 Hle Hge.
  assert (x1.1 = x2.1) as Hlabel by (by apply str_le_antisym).
  rewrite <- Hp in Hx2. clear -Hnd Hx1 Hx2 Hlabel.
  induction l1 as [|y l IH]; [by apply elem_of_nil in Hx1|].
  cbn in Hnd. apply NoDup_cons in Hnd as [Hy Hnd].
  apply elem_of_cons in Hx1 as [->|Hx1]; apply elem_of_cons in Hx2 as [->|Hx2];
    try done.
  - exfalso. apply Hy. rewrite Hlabel. by apply list_elem_of_fmap_2.
  - exfalso. apply Hy. rewrite <- Hlabel. by apply list_elem_of_fmap_2.
  - by apply IH.
Qed.

Lemma merge_sort_rows_perm (l1 l2 : list (string * list (Model.cell Data Json))) :
  NoDup (fst <$> l1) → l1 ≡ₚ l2 →
  merge_sort row_le l1 = merge_sort row_le l2.
Proof.
  intros Hnd Hp. apply sorted_rows_unique.
  - by rewrite merge_sort_Permutation.
  - apply Sorted_merge_sort; apply _.
  - apply Sorted_merge_sort; apply _.
  - by rewrite !merge_sort_Permutation.
Qed.

Lemma Sorted_rows_of_labels (l : list (string * list (Model.cell Data Json))) :
  Sorted str_le (fst <$> l) → Sorted row_le l.
Proof.
  induction l as [|x l IH]; [constructor|].
  cbn. intros Hs. apply Sorted_inv in Hs as [Hs Hhd].
  constructor; [by apply IH|].
  destruct l as [|y l]; constructor. by apply HdRel_inv in Hhd.
Qed.

Lemma merge_sort_rows_sorted (l : list (string * list (Model.cell Data Json))) :
  NoDup (fst <$> l) → Sorted str_le (fst <$> l) → merge_sort row_le l = l.
Proof.
  intros Hnd Hs. symmetry. apply sorted_rows_unique.
  - exact Hnd.
  - by apply Sorted_rows_of_labels.
  - apply Sorted_merge_sort; apply _.
  - by rewrite merge_sort_Permutation.
Qed.
End Order.

(** ** The loader of the unlabeled corpus: identifiers, checks, data sets *)

Section Combinations.
Context {A : Type}.

Lemma elem_of_combinations2 (l : list A) x y :
  (x, y) ∈ combinations2 l ↔
  ∃ i j, i < j ∧ l !! i = Some x ∧ l !! j = Some y.
Proof.
  induction l as [|a l IH]; cbn [combinations2].
  - split; [by intros ?%elem_of_nil|]. by intros (i & j & _ & ? & _).
  - rewrite elem_of_app, list_elem_of_fmap, IH. split.
    + intros [(z & [= -> ->] & Hz)|(i & j & Hij & Hi & Hj)].
      * apply list_elem_of_lookup in Hz as [j Hj]. exists 0, (S j).
        split; [lia|]. by split.
      * exists (S i), (S j). split; [lia|]. by split.
    + intros (i & j & Hij & Hi & Hj). destruct j as [|j]; [lia|].
      cbn in Hj. destruct i as [|i].
      * left. cbn in Hi. injection Hi as ->. exists y. split; [done|].
        by eapply list_elem_of_lookup_2.
      * right. exists i, j. split; [lia|]. by split.
Qed.

Lemma combinations2_length (l : list A) :
  2 * length (combinations2 l) = length l * (length l - 1).
Proof.
  induction l as [|a l IH]; [done|].
  cbn [combinations2 length]. rewrite length_app, length_fmap.
  replace (S (length l) - 1) with (length l) by lia.
  destruct (length l) as [|n]; [cbn in *; lia|].
  replace (S n - 1) with n in IH by lia. nia.
Qed.

Lemma combinations2_NoDup (l : list A) :
  (∀ x y, (x, y) ∈ combinations2 l → x ≠ y) → NoDup l.
Proof.
  intros Hne. apply NoDup_alt. intros i j x Hi Hj.
  destruct (Nat.lt_trichotomy i j) as [Hlt|[->|Hlt]]; [exfalso|done|exfalso].
  - apply (Hne x x); [|done]. apply elem_of_combinations2. by exists i, j.
  - apply (Hne x x); [|done]. apply elem_of_combinations2. by exists j, i.
Qed.
End Combinations.

Section Unlabeled.
Context `{Draco}.

Lemma halden_ids_NoDup n : NoDup (halden_ids n).
Proof.
  unfold halden_ids. apply NoDup_fmap_2; [|apply NoDup_seq].
  intros i j E. apply (inj (String.app "halden-")) in E.
  by apply (inj pretty) in E.
Qed.

Lemma cache_read_empty : cache_read ∅.
Proof. intros url d E. by rewrite lookup_empty in E. Qed.

Lemma acquire_data_read url dc d dc' :
  acquire_data url dc = Ok (d, dc') → cache_read dc → cache_read dc'.
Proof.
  unfold acquire_data. destruct (dc !! url) as [d0|] eqn:E.
  - by intros [= <- <-].
  - destruct (Data_from_json (data_path url)) as [d0|] eqn:Ed; [|done].
    cbn. intros [= <- <-] Hc url' d'.
    destruct (decide (url = url')) as [<-|Hne].
    + rewrite lookup_insert_eq. intros [= <-]. by exists d0.
    + rewrite lookup_insert_ne by done. apply Hc.
Qed.

(** What one pass through the body of the innermost loop does. *)
Lemma load_pair_inv st l r st' :
  load_pair st (l, r) = Ok st' →
  l ≠ r
  ∧ ∃ url d,
      Json_data_url l = Ok url ∧ Json_data_url r = Ok url
      ∧ acquire_data url (data_cache st) = Ok (d, data_cache st')
      ∧ raw_data st'
        = raw_data st
          ++ [mkUnlabeled ("halden-" +:+ pretty (cnt st)) PyNone (PyData d)
                (PyStr "halden") (PyJson l) (PyJson r)]
      ∧ cnt st' = cnt st + 1.
Proof.
  unfold load_pair. destruct (decide (l = r)) as [|Hne]; [done|].
  destruct (Json_data_url l) as [url_left|] eqn:El; [|done]. cbn [res_bind].
  destruct (Json_data_url r) as [url_right|] eqn:Er; [|done]. cbn [res_bind].
  destruct (decide (url_left = url_right)) as [<-|]; [|done].
  destruct (acquire_data url_left (data_cache st)) as [[d dc']|] eqn:Ea; [|done].
  cbn. intros [= <-]. split; [exact Hne|]. by exists url_left, d.
Qed.

(** The state of the loader after a list of pairs. *)
Lemma load_pairs_inv pairs st st' :
  load_pairs st pairs = Ok st' →
  cnt st' = cnt st + length pairs
  ∧ (∃ new, raw_data st' = raw_data st ++ new
            ∧ u_pair_id <$> new
              = (λ k, "halden-" +:+ pretty k) <$> seq (cnt st) (length pairs)
            ∧ (λ u, (left u, right u)) <$> new
              = (λ p : Json * Json, (PyJson p.1, PyJson p.2)) <$> pairs
            ∧ Forall (λ u, u_data u = PyNone ∧ u_source u = PyStr "halden") new)
  ∧ Forall (λ p : Json * Json,
              p.1 ≠ p.2
              ∧ ∃ url, Json_data_url p.1 = Ok url ∧ Json_data_url p.2 = Ok url
                       ∧ is_Some (data_cache st' !! url)) pairs
  ∧ data_cache st ⊆ data_cache st'
  ∧ (cache_read (data_cache st) → cache_read (data_cache st')).
Proof.
  revert st. induction pairs as [|[l r] rest IH]; intros st; cbn [load_pairs].
  - intros [= <-]. split; [cbn; lia|]. split.
    { exists []. by rewrite app_nil_r. }
    split; [constructor|]. by split.
  - destruct (load_pair st (l, r)) as [st1|] eqn:E1; [|done]. cbn [res_bind].
    intros E2. apply load_pair_inv in E1 as (Hne & url & d & Hl & Hr & Ha & Hraw & Hcnt).
    apply IH in E2 as (Hcnt' & (new & Hraw' & Hids & Hlr & Hsh) & Hall & Hsub & Hread).
    pose proof (acquire_data_Ok _ _ _ _ Ha) as [Hsub1 Hd].
    split; [cbn; lia|]. split.
    { eexists (_ :: new). split; [by rewrite Hraw', Hraw, <- app_assoc|].
      cbn [fmap list_fmap length seq u_pair_id left right fst snd].
      rewrite Hcnt, Nat.add_1_r in Hids.
      split; [by f_equal|]. split; [by f_equal|]. by constructor. }
    split.
    { constructor; [|exact Hall]. split; [exact Hne|]. exists url.
      split; [exact Hl|]. split; [exact Hr|]. exists d.
      by eapply lookup_weaken. }
    split; [by etrans|].
    intros Hc. apply Hread. by eapply acquire_data_read.
Qed.

Lemma all_pairs_groups files :
  all_pairs files = all_groups files ≫= combinations2.
Proof.
  unfold all_pairs, all_groups.
  induction files as [|content files IH]; [done|].
  rewrite !bind_cons, bind_app, IH. f_equal.
  induction content as [|entry content IHc]; [done|].
  by rewrite !bind_cons, bind_app, IHc.
Qed.

Lemma elem_of_all_pairs files pair :
  pair ∈ all_pairs files
  ↔ ∃ group, group ∈ all_groups files ∧ pair ∈ combinations2 group.
Proof.
  rewrite all_pairs_groups, list_elem_of_bind. split.
  - intros (group & Hp & Hg). by exists group.
  - intros (group & Hg & Hp). by exists group.
Qed.

Lemma all_pairs_length files :
  2 * length (all_pairs files)
  = sum_list ((λ group : list Json, length group * (length group - 1))
                <$> all_groups files).
Proof.
  rewrite all_pairs_groups.
  induction (all_groups files) as [|group groups IH]; [done|].
  rewrite bind_cons, length_app, fmap_cons. cbn [sum_list sum_list_with].
  by rewrite Nat.mul_add_distr_l, IH, (combinations2_length group).
Qed.

Lemma load_unlabeled_specs_inv files raw :
  load_unlabeled_specs files = Ok raw →
  ∃ st, load_pairs (mkLoader ∅ [] 0) (all_pairs files) = Ok st ∧ raw = raw_data st.
Proof.
  unfold load_unlabeled_specs, load_unlabeled_specs_state.
  destruct (load_pairs _ _) as [st|]; [|done]. cbn. intros [= <-]. by exists st.
Qed.

(** A pair of two different specifications that name one URL whose data
    set can be read is loaded; a pair of the same specification twice
    fails in the message of the first assertion. *)
Lemma load_pair_reads st l r :
  l ≠ r →
  (∃ url d0, Json_data_url l = Ok url ∧ Json_data_url r = Ok url
             ∧ Data_from_json (data_path url) = Ok d0) →
  is_Ok (load_pair st (l, r)).
Proof.
  intros Hne (url & d0 & Hl & Hr & Hd). unfold load_pair.
  rewrite decide_False by done. rewrite Hl, Hr. cbn [res_bind].
  rewrite decide_True by done. unfold acquire_data.
  destruct (data_cache st !! url); cbn [res_bind]; [by eexists|].
  rewrite Hd. cbn [res_bind]. by eexists.
Qed.

Lemma load_pair_same st l :
  load_pair st (l, l) = Raise (OtherError "NameError").
Proof. unfold load_pair. by rewrite decide_True. Qed.

Lemma load_pairs_reads pairs st :
  Forall (λ p : Json * Json,
            ∃ url d0, Json_data_url p.1 = Ok url ∧ Json_data_url p.2 = Ok url
                      ∧ Data_from_json (data_path url) = Ok d0) pairs →
  (Forall (λ p : Json * Json, p.1 ≠ p.2) pairs → is_Ok (load_pairs st pairs))
  ∧ (¬ Forall (λ p : Json * Json, p.1 ≠ p.2) pairs →
     load_pairs st pairs = Raise (OtherError "NameError")).
Proof.
  intros Hreads. revert st.
  induction Hreads as [|[l r] pairs Hp _ IH]; intros st; cbn [load_pairs].
  - split; [by eexists|]. intros Hno. destruct Hno. constructor.
  - cbn [fst snd] in Hp. destruct (decide (l = r)) as [->|Hne].
    + rewrite load_pair_same. cbn [res_bind]. split; [|done].
      intros [Hlr _]%Forall_cons. by destruct Hlr.
    + destruct (load_pair_reads st l r Hne Hp) as [st1 ->]. cbn [res_bind].
      destruct (IH st1) as [IHok IHno]. split.
      * intros [_ Hrest]%Forall_cons. by apply IHok.
      * intros Hno. apply IHno. intros Hrest. apply Hno. by constructor.
Qed.

Lemma all_pairs_reads files :
  Forall group_reads (all_groups files) →
  Forall (λ p : Json * Json,
            ∃ url d0, Json_data_url p.1 = Ok url ∧ Json_data_url p.2 = Ok url
                      ∧ Data_from_json (data_path url) = Ok d0) (all_pairs files).
Proof.
  intros Hgroups. apply Forall_forall. intros [l r] Hin.
  apply elem_of_all_pairs in Hin as (group & Hgroup & Hpair).
  destruct (proj1 (Forall_forall _ _) Hgroups group Hgroup)
    as (url & d0 & Hurl & Hd).
  apply elem_of_combinations2 in Hpair as (i & j & _ & Hi & Hj).
  exists url, d0. cbn [fst snd].
  split; [|split; [|done]];
    eapply (proj1 (Forall_forall _ _) Hurl); by eapply list_elem_of_lookup_2.
Qed.

Lemma all_pairs_distinct files :
  Forall (λ p : Json * Json, p.1 ≠ p.2) (all_pairs files)
  ↔ Forall NoDup (all_groups files).
Proof.
  rewrite !Forall_forall. split.
  - intros Hne group Hgroup. apply combinations2_NoDup. intros x y Hxy.
    apply (Hne (x, y)), elem_of_all_pairs. by exists group.
  - intros Hnd [l r] (group & Hgroup & Hpair)%elem_of_all_pairs. cbn.
    apply elem_of_combinations2 in Hpair as (i & j & Hij & Hi & Hj).
    intros ->. pose proof (NoDup_lookup _ _ _ _ (Hnd group Hgroup) Hi Hj). lia.
Qed.

Lemma load_unlabeled_specs_ids files raw :
  load_unlabeled_specs files = Ok raw →
  u_pair_id <$> raw = halden_ids (length raw)
  ∧ length raw = length (all_pairs files).
Proof.
  intros (st & Hload & ->)%load_unlabeled_specs_inv.
  apply load_pairs_inv in Hload as (_ & (new & Hraw & Hids & Hlr & _) & _).
  cbn [raw_data cnt app] in Hraw, Hids. rewrite Hraw.
  assert (length new = length (all_pairs files)) as Hlen.
  { apply (f_equal length) in Hlr. by rewrite !length_fmap in Hlr. }
  by rewrite Hlen.
Qed.
End Unlabeled.

(** ** The table as a function of the examples *)

Section TableFacts.
Context `{Draco}.
Import Partitioner PartitionerFacts.

Lemma example_rows_perm l1 l2 rows1 :
  l1 ≡ₚ l2 → example_rows l1 = Ok rows1 →
  ∃ rows2, example_rows l2 = Ok rows2 ∧ rows1 ≡ₚ rows2.
Proof.
  intros Hp. revert rows1.
  induction Hp as [|x l1 l2 _ IH|x y l|l1 l2 l3 _ IH1 _ IH2]; intros rows1;
    cbn [example_rows].
  - intros [= <-]. by exists [].
  - destruct (example_row x) as [row|]; [|done]. cbn [res_bind].
    destruct (example_rows l1) as [rows|] eqn:E; [|done]. cbn [res_bind].
    intros [= <-]. destruct (IH rows eq_refl) as (rows2 & -> & Hp).
    exists (row :: rows2). split; [done|]. by constructor.
  - destruct (example_row y) as [rowy|]; [|done]. cbn [res_bind].
    destruct (example_row x) as [rowx|]; [|done]. cbn [res_bind].
    destruct (example_rows l) as [rows|]; [|done]. cbn [res_bind].
    intros [= <-]. exists (rowx :: rowy :: rows). split; [done|]. constructor.
  - intros E1. destruct (IH1 _ E1) as (rows2 & E2 & Hp12).
    destruct (IH2 _ E2) as (rows3 & E3 & Hp23).
    exists rows3. split; [done|]. by etrans.
Qed.

Lemma example_rows_labels data rows :
  example_rows (items data) = Ok rows →
  fst <$> rows = example_pair_id <$> data.
Proof.
  unfold items. revert rows. induction data as [|e data IH]; intros rows.
  - by intros [= <-].
  - rewrite !fmap_cons. cbn [example_rows].
    unfold example_row at 1. rewrite resolve_ndarray. cbn [res_bind].
    destruct (negative_task _) as [tn|]; [|done]. cbn [res_bind].
    destruct (solve tn) as [vn|]; [|done]. cbn [res_bind].
    destruct (positive_task _) as [tp|]; [|done]. cbn [res_bind].
    destruct (solve tp) as [vp|]; [|done]. cbn [res_bind].
    destruct (example_rows _) as [rows'|]; [|done].
    cbn [res_bind]. intros [= <-]. rewrite !fmap_cons. cbn [fst].
    rewrite as_posneg_pair_id.
    f_equal. by apply IH.
Qed.

(** The table of a list of examples with pairwise distinct identifiers is
    the table of any rearrangement of the list. *)
Lemma expected_table_perm data1 data2 T :
  data1 ≡ₚ data2 →
  NoDup (example_pair_id <$> data1) →
  expected_table data1 = Ok T → expected_table data2 = Ok T.
Proof.
  intros Hp Hnd. unfold expected_table.
  destruct (example_rows (items data1)) as [rows1|] eqn:E1; [|done].
  cbn [res_bind]. intros [= <-].
  destruct (example_rows_perm (items data1) (items data2) rows1)
    as (rows2 & -> & Hrows); [|exact E1|].
  { unfold items. by do 2 apply fmap_Permutation. }
  cbn [res_bind]. do 2 f_equal. symmetry. apply merge_sort_rows_perm; [|done].
  by rewrite (example_rows_labels _ _ E1).
Qed.

(** The table of two lists put together is the sorted concatenation of
    their tables. *)
Lemma expected_table_app data1 data2 T1 T2 :
  NoDup (example_pair_id <$> (data1 ++ data2)) →
  expected_table data1 = Ok T1 → expected_table data2 = Ok T2 →
  ∃ T, pd_concat [T1; T2] = Ok T
       ∧ expected_table (data1 ++ data2) = Ok (sort_index T).
Proof.
  intros Hnd. unfold expected_table.
  destruct (example_rows (items data1)) as [rows1|] eqn:E1; [|done].
  destruct (example_rows (items data2)) as [rows2|] eqn:E2; [|done].
  cbn [res_bind]. intros [= <-] [= <-]. eexists. split; [reflexivity|].
  unfold items. rewrite !fmap_app. fold (items data1) (items data2).
  rewrite example_rows_app, E1, E2. cbn [res_bind].
  unfold sort_index. cbn [df_columns df_rows fmap list_fmap concat].
  rewrite app_nil_r. do 2 f_equal. apply merge_sort_rows_perm.
  - rewrite fmap_app, (example_rows_labels _ _ E1), (example_rows_labels _ _ E2).
    by rewrite <- fmap_app.
  - by rewrite !merge_sort_Permutation.
Qed.

(** A returned table is the sort of rows labelled, in order, by the
    identifiers of the examples. *)
Lemma run_in_parallel_store_rows cpu_count data encoding_cnt T σ :
  run_in_parallel_store pair_partition_to_vec cpu_count data encoding_cnt
    = (Ok T, σ) →
  ∃ rows, fst <$> rows = example_pair_id <$> data
          ∧ T = mkDataFrame get_nested_index (merge_sort row_le rows).
Proof.
  intros Hrun. apply run_in_parallel_store_Ok in Hrun as (_ & _ & _ & rows & Hrows & ->).
  exists rows. split; [|done]. by eapply vectorized_rows_labels.
Qed.

Lemma pairs_to_vec_rows cpu_count data encoding_cnt T :
  pairs_to_vec cpu_count data encoding_cnt = Ok T →
  ∃ rows, fst <$> rows = example_pair_id <$> data
          ∧ T = mkDataFrame get_nested_index (merge_sort row_le rows).
Proof.
  unfold pairs_to_vec, run_in_parallel.
  destruct (run_in_parallel_store _ _ _ _) as [r σ] eqn:Hrun. cbn [fst].
  intros ->. by eapply run_in_parallel_store_rows.
Qed.

Lemma pairs_to_vec_index cpu_count data encoding_cnt T :
  pairs_to_vec cpu_count data encoding_cnt = Ok T →
  df_index T ≡ₚ example_pair_id <$> data
  ∧ df_len T = length data
  ∧ Sorted str_le (df_index T).
Proof.
  unfold pairs_to_vec, run_in_parallel.
  destruct (run_in_parallel_store _ _ _ _) as [r σ] eqn:Hrun. cbn [fst].
  intros ->. pose proof (run_in_parallel_store_index _ _ _ _ _ Hrun) as [Hp Hl].
  split; [exact Hp|]. split; [exact Hl|].
  by eapply run_in_parallel_store_sorted.
Qed.

(** The identifiers [halden-k] in the order of the table. *)
Lemma halden_ids_lookup n k :
  k < n → halden_ids n !! k = Some ("halden-" +:+ pretty k).
Proof.
  intros Hk. unfold halden_ids. rewrite list_lookup_fmap, lookup_seq_lt by done.
  done.
Qed.

Lemma halden_ids_sorted n : n ≤ 10 → Sorted str_le (halden_ids n).
Proof.
  intros Hn. apply StronglySorted_Sorted.
  apply (StronglySorted_app_1_l _ _
           ((λ k, "halden-" +:+ pretty k) <$> seq n (10 - n))).
  unfold halden_ids. rewrite <- fmap_app, <- seq_app.
  replace (n + (10 - n)) with 10 by lia.
  apply (Sorted_StronglySorted str_le).
  apply (bool_decide_unpack _). vm_compute. exact I.
Qed.

Lemma halden_ids_unsorted n : 11 ≤ n → ¬ Sorted str_le (halden_ids n).
Proof.
  intros Hn Hs. apply (Sorted_StronglySorted str_le) in Hs.
  rewrite <- (take_drop 3 (halden_ids n)) in Hs.
  assert (str_le "halden-2" "halden-10") as Hle; [|by vm_compute in Hle].
  eapply (StronglySorted_app_1_elem_of str_le); [exact Hs| |].
  - apply (list_elem_of_lookup_2 _ 2). rewrite lookup_take_lt by lia.
    by rewrite halden_ids_lookup by lia.
  - apply (list_elem_of_lookup_2 _ 7). rewrite lookup_drop.
    by rewrite halden_ids_lookup by lia.
Qed.
End TableFacts.

(** ** The loader of the labeled corpus *)

Section Dashes.

Lemma pretty_N_go_no_dash x s :
  has_dash s = false → has_dash (pretty_N_go x s) = false.
Proof.
  revert s. induction (N.lt_wf_0 x) as [x _ IH]; intros s Hs.
  assert (x = 0 ∨ 0 < x)%N as [->|Hx] by lia.
  - by rewrite pretty_N_go_0.
  - rewrite pretty_N_go_step by done. apply IH.
    { by apply N.div_lt. }
    cbn [has_dash]. rewrite Hs, orb_false_r.
    apply bool_decide_eq_false. unfold pretty_N_char. by repeat case_match.
Qed.

Lemma pretty_nat_no_dash (n : nat) : has_dash (pretty n) = false.
Proof.
  unfold pretty, pretty_nat, pretty, pretty_N.
  destruct (decide _); [done|]. by apply pretty_N_go_no_dash.
Qed.

Lemma append_nil_l s : "" +:+ s = s.
Proof. reflexivity. Qed.

Lemma append_cons c a b : String c a +:+ b = String c (a +:+ b).
Proof. reflexivity. Qed.

Lemma has_dash_app a b : has_dash (a +:+ String "-" b) = true.
Proof.
  induction a as [|c a IH]; [done|].
  rewrite append_cons. cbn [has_dash]. rewrite IH. apply orb_true_r.
Qed.

(** The text before the last dash and the text after it determine each
    other's place. *)
Lemma dash_split s1 s2 d1 d2 :
  has_dash d1 = false → has_dash d2 = false →
  s1 +:+ "-" +:+ d1 = s2 +:+ "-" +:+ d2 → s1 = s2 ∧ d1 = d2.
Proof.
  intros H1 H2. revert s2. induction s1 as [|c s1 IH]; intros [|c' s2] E;
    rewrite ?append_nil_l, ?append_cons, ?append_nil_l in E.
  - by injection E.
  - exfalso. injection E as _ E. rewrite E in H1.
    by rewrite (has_dash_app s2 d2) in H1.
  - exfalso. injection E as _ E. rewrite <- E in H2.
    by rewrite (has_dash_app s1 d1) in H2.
  - injection E as -> E. destruct (IH _ E) as [-> ->]. done.
Qed.

Lemma file_id_inj src1 src2 (i j : nat) :
  src1 +:+ "-" +:+ pretty i = src2 +:+ "-" +:+ pretty j → src1 = src2 ∧ i = j.
Proof.
  intros E. apply dash_split in E as [-> E]; try apply pretty_nat_no_dash.
  split; [done|]. by apply (inj pretty) in E.
Qed.

Lemma file_ids_NoDup src n : NoDup (file_ids src n).
Proof.
  unfold file_ids. apply NoDup_fmap_2; [|apply NoDup_seq].
  intros i j E. by apply file_id_inj in E as [_ ->].
Qed.

Lemma elem_of_file_ids src n id :
  id ∈ file_ids src n ↔ ∃ i, i < n ∧ id = src +:+ "-" +:+ pretty i.
Proof.
  unfold file_ids. rewrite list_elem_of_fmap. split.
  - intros (i & -> & Hi). apply elem_of_seq in Hi. exists i. split; [lia|done].
  - intros (i & Hi & ->). exists i. split; [done|]. apply elem_of_seq. lia.
Qed.
End Dashes.

Section Labeled.
Context `{Schema}.

Lemma getitem_Ok {A} (o : option A) a : getitem o = Ok a ↔ o = Some a.
Proof. destruct o; cbn; split; congruence. Qed.

(** What the body of the loop makes of a row. *)
Lemma load_row_Ok json_data i row example :
  load_row json_data i row = Ok example →
  ∃ src, file_source json_data = Some src
         ∧ pair_id example = src +:+ "-" +:+ pretty i
         ∧ source example = PyStr src
         ∧ task example = get (row_task row)
         ∧ row_negative row = Some (negative example)
         ∧ row_positive row = Some (positive example)
         ∧ ∃ objs fields spec_schema,
             row_fields row = Some objs
             ∧ map_res Field_from_obj objs = Ok fields
             ∧ Data_init fields (get (row_num_rows row)) = Ok spec_schema
             ∧ data example = PyData spec_schema.
Proof.
  unfold load_row.
  destruct (row_fields row) as [objs|]; [|done]. cbn [getitem res_bind].
  destruct (map_res _ objs) as [fields|] eqn:Ef; [|done]. cbn [res_bind].
  destruct (Data_init _ _) as [spec_schema|] eqn:Ed; [|done]. cbn [res_bind].
  destruct (file_source json_data) as [src|]; [|done]. cbn [getitem res_bind].
  destruct (row_negative row) as [neg|]; [|done]. cbn [getitem res_bind].
  destruct (row_positive row) as [pos|]; [|done]. cbn [getitem res_bind].
  intros [= <-]. exists src. cbn. repeat split; try done.
  by exists objs, fields, spec_schema.
Qed.

Lemma load_row_is_Ok json_data i row :
  is_Ok (load_row json_data i row)
  ↔ row_loads row ∧ is_Some (file_source json_data).
Proof.
  unfold load_row, row_loads. split.
  - intros [example E].
    destruct (row_fields row) as [objs|]; [|done]. cbn [getitem res_bind] in E.
    destruct (map_res _ objs) as [fields|] eqn:Ef; [|done].
    cbn [res_bind] in E.
    destruct (Data_init _ _) as [spec_schema|] eqn:Ed; [|done].
    cbn [res_bind] in E.
    destruct (file_source json_data) as [src|]; [|done].
    cbn [getitem res_bind] in E.
    destruct (row_negative row) as [neg|]; [|done]. cbn [getitem res_bind] in E.
    destruct (row_positive row) as [pos|]; [|done].
    split; [|by eexists]. split; [|by split; eexists].
    exists objs. split; [done|]. exists fields. split; [done|].
    rewrite Ed. by eexists.
  - intros [((objs & Ho & fields & Ef & [d Ed]) & [neg En] & [pos Ep]) [src Es]].
    rewrite Ho. cbn [getitem res_bind]. rewrite Ef. cbn [res_bind].
    rewrite Ed. cbn [res_bind]. rewrite Es. cbn [getitem res_bind].
    rewrite En. cbn [getitem res_bind]. rewrite Ep. cbn [getitem res_bind].
    by eexists.
Qed.

(** The loop over the rows of a file, from the row numbered [i] on. *)
Lemma load_rows_Ok json_data rows i raw_data raw_data' :
  load_rows json_data rows i raw_data = Ok raw_data' →
  ∃ new, raw_data' = raw_data ++ new
         ∧ Forall2 (λ k example, ∃ row, rows !! k = Some row
                      ∧ load_row json_data (i + k) row = Ok example)
             (seq 0 (length rows)) new.
Proof.
  revert i raw_data. induction rows as [|row rows IH]; intros i raw_data;
    cbn [load_rows].
  - intros [= <-]. exists []. split; [by rewrite app_nil_r|constructor].
  - destruct (load_row json_data i row) as [example|] eqn:E; [|done].
    cbn [res_bind]. intros (new & -> & Hnew)%IH.
    exists (example :: new). split; [by rewrite <- app_assoc|].
    cbn [length seq]. constructor.
    + exists row. split; [done|]. by rewrite Nat.add_0_r.
    + rewrite <- fmap_S_seq. apply Forall2_fmap_l.
      eapply Forall2_impl; [exact Hnew|]. intros k ex (row' & Hk & Hex).
      exists row'. split; [done|]. by replace (i + S k) with (i + 1 + k) by lia.
Qed.

Lemma load_rows_is_Ok json_data rows i raw_data :
  is_Ok (load_rows json_data rows i raw_data)
  ↔ Forall row_loads rows ∧ (rows ≠ [] → is_Some (file_source json_data)).
Proof.
  revert i raw_data. induction rows as [|row rows IH]; intros i raw_data;
    cbn [load_rows].
  - split; [|by eexists]. intros _. split; [constructor|done].
  - split.
    + intros [raw' E].
      destruct (load_row json_data i row) as [example|] eqn:E1; [|done].
      cbn [res_bind] in E.
      assert (is_Ok (load_row json_data i row)) as [Hrow Hsrc]%load_row_is_Ok
        by (by eexists).
      assert (is_Ok (load_rows json_data rows (i + 1) (raw_data ++ [example])))
        as [Hrows _]%IH by (by eexists).
      split; [by constructor|done].
    + intros [[Hrow Hrows]%Forall_cons Hsrc].
      assert (is_Ok (load_row json_data i row)) as [example ->].
      { apply load_row_is_Ok. split; [done|]. by apply Hsrc. }
      cbn [res_bind]. apply IH. split; [done|]. intros _. by apply Hsrc.
Qed.

Lemma load_files_Ok paths raw_data raw_data' :
  load_files paths raw_data = Ok raw_data' →
  ∃ files newss,
    paths = Ok <$> files
    ∧ raw_data' = raw_data ++ concat newss
    ∧ Forall2 loaded_from files newss.
Proof.
  revert raw_data. induction paths as [|opened paths IH]; intros raw_data;
    cbn [load_files].
  - intros [= <-]. exists [], []. by rewrite app_nil_r.
  - unfold load_file at 1. destruct opened as [f|]; [|done]. cbn [res_bind].
    destruct (file_data f) as [rows|] eqn:Ed; [|done]. cbn [getitem res_bind].
    destruct (load_rows f rows 0 raw_data) as [raw1|] eqn:E1; [|done].
    cbn [res_bind]. intros (files & newss & -> & -> & Hall)%IH.
    apply load_rows_Ok in E1 as (new & -> & Hnew).
    exists (f :: files), (new :: newss). split; [done|].
    split; [by rewrite <- app_assoc|]. constructor; [|done].
    unfold loaded_from, file_rows. by rewrite Ed.
Qed.

Lemma load_files_is_Ok paths raw_data :
  is_Ok (load_files paths raw_data) ↔ Forall file_loads paths.
Proof.
  revert raw_data. induction paths as [|opened paths IH]; intros raw_data;
    cbn [load_files].
  - split; [constructor|by eexists].
  - unfold load_file at 1. split.
    + intros [raw' E]. destruct opened as [f|]; [|done]. cbn [res_bind] in E.
      destruct (file_data f) as [rows|] eqn:Ed; [|done].
      cbn [getitem res_bind] in E.
      destruct (load_rows f rows 0 raw_data) as [raw1|] eqn:E1; [|done].
      cbn [res_bind] in E.
      assert (is_Ok (load_rows f rows 0 raw_data)) as [Hrows Hsrc]%load_rows_is_Ok
        by (by eexists).
      constructor; [by exists f, rows|]. apply (IH raw1). by eexists.
    + intros [(f & rows & -> & Hd & Hrows & Hsrc) Hrest]%Forall_cons.
      cbn [res_bind]. rewrite Hd. cbn [getitem res_bind].
      assert (is_Ok (load_rows f rows 0 raw_data)) as [raw1 ->]
        by (by apply load_rows_is_Ok).
      cbn [res_bind]. by apply IH.
Qed.

Lemma Forall2_fmap_eq {A B C} (g : B → C) (h : A → C) ks new :
  Forall2 (λ k example, g example = h k) ks new → g <$> new = h <$> ks.
Proof. induction 1 as [|k ex ks new E _ IH]; [done|]. cbn. by rewrite E, IH. Qed.

Lemma loaded_from_ids f new :
  loaded_from f new →
  pair_id <$> new = file_ids (file_src f) (length (file_rows f))
  ∧ source <$> new = replicate (length (file_rows f)) (PyStr (file_src f))
  ∧ length new = length (file_rows f).
Proof.
  unfold loaded_from, file_ids. intros Hall. split; [|split].
  - apply Forall2_fmap_eq. eapply Forall2_impl; [exact Hall|].
    intros k ex (row & _ & (src & Hsrc & Hid & _)%load_row_Ok).
    unfold file_src. by rewrite Hsrc.
  - trans ((λ _ : nat, PyStr (Data := Data) (Json := Json) (file_src f))
             <$> seq 0 (length (file_rows f))).
    2:{ rewrite (const_fmap _ _ (PyStr (file_src f))) by done.
        by rewrite length_seq. }
    apply Forall2_fmap_eq. eapply Forall2_impl; [exact Hall|].
    intros k ex (row & _ & (src & Hsrc & _ & Hs & _)%load_row_Ok).
    unfold file_src. by rewrite Hsrc.
  - apply Forall2_length in Hall. by rewrite length_seq in Hall.
Qed.

Lemma load_files_ids paths raw :
  load_files paths [] = Ok raw →
  ∃ files,
    paths = Ok <$> files
    ∧ pair_id <$> raw
      = files ≫= (λ f, file_ids (file_src f) (length (file_rows f)))
    ∧ source <$> raw
      = files ≫= (λ f, replicate (length (file_rows f)) (PyStr (file_src f)))
    ∧ length raw = sum_list ((λ f, length (file_rows f)) <$> files).
Proof.
  intros (files & newss & -> & -> & Hall)%load_files_Ok. exists files.
  split; [done|]. cbn [app]. clear -Hall.
  induction Hall as [|f new files newss (Hid & Hsrc & Hlen)%loaded_from_ids _
                       (IH1 & IH2 & IH3)]; [done|].
  cbn [concat]. rewrite !fmap_app, !bind_cons, length_app, fmap_cons.
  cbn [sum_list sum_list_with]. by rewrite Hid, Hsrc, Hlen, IH1, IH2, IH3.
Qed.

(** Files without rows contribute no identifier. *)
Lemma file_ids_bind_filter (files : list LabeledFile) :
  files ≫= (λ f, file_ids (file_src f) (length (file_rows f)))
  = filter (λ f, file_rows f ≠ []) files
      ≫= (λ f, file_ids (file_src f) (length (file_rows f))).
Proof.
  induction files as [|f files IH]; [done|].
  rewrite bind_cons, filter_cons. destruct (decide _) as [Hne|He].
  - by rewrite bind_cons, IH.
  - rewrite IH. destruct (file_rows f); [done|]. by destruct He.
Qed.

Lemma NoDup_fmap_elem_inj {A B} (f : A → B) (l : list A) x y :
  NoDup (f <$> l) → x ∈ l → y ∈ l → f x = f y → x = y.
Proof.
  induction l as [|a l IH]; [by intros _ ?%elem_of_nil|].
  cbn. intros [Ha Hnd]%NoDup_cons [->|Hx]%elem_of_cons [->|Hy]%elem_of_cons E;
    try done.
  - exfalso. apply Ha. rewrite E. by apply list_elem_of_fmap_2.
  - exfalso. apply Ha. rewrite <- E. by apply list_elem_of_fmap_2.
  - by apply IH.
Qed.

(** The identifiers of the examples are pairwise distinct exactly when the
    files that have rows have pairwise distinct sources. *)
Lemma file_ids_NoDup_iff (files : list LabeledFile) :
  NoDup (files ≫= (λ f, file_ids (file_src f) (length (file_rows f))))
  ↔ NoDup (file_src <$> filter (λ f, file_rows f ≠ []) files).
Proof.
  rewrite file_ids_bind_filter.
  assert (Forall (λ f, file_rows f ≠ []) (filter (λ f, file_rows f ≠ []) files))
    as Hne.
  { apply Forall_forall. intros f Hf. by apply list_elem_of_filter in Hf as [? _]. }
  revert Hne. generalize (filter (λ f, file_rows f ≠ []) files).
  clear files. intros files Hne. split.
  - induction Hne as [|f files Hf Hne IH]; [constructor|].
    rewrite bind_cons, fmap_cons. intros (_ & Hdisj & Hrest)%NoDup_app.
    constructor; [|by apply IH].
    intros (g & Hsrc & Hg)%list_elem_of_fmap.
    apply (Hdisj (file_src f +:+ "-" +:+ pretty 0)).
    + apply elem_of_file_ids. exists 0. split; [|done].
      destruct (file_rows f); [done|cbn; lia].
    + apply list_elem_of_bind. exists g. split; [|done].
      apply elem_of_file_ids. exists 0. rewrite Hsrc. split; [|done].
      pose proof (proj1 (Forall_forall _ _) Hne g Hg) as Hgne.
      cbn beta in Hgne. destruct (file_rows g); [done|cbn; lia].
  - intros Hnd. apply NoDup_bind.
    + intros f1 f2 id Hf1 Hf2 (i & _ & ->)%elem_of_file_ids (j & _ & E)%elem_of_file_ids.
      apply file_id_inj in E as [E _]. by eapply NoDup_fmap_elem_inj.
    + intros f _. apply file_ids_NoDup.
    + by eapply NoDup_fmap_1.
Qed.
End Labeled.

(** ** The stored table: [_get_pos_neg_data] *)

Section Filled.
Context {Data Json : Type}.

Lemma fillna_cell_filled (c : Model.cell Data Json) :
  is_missing (fillna_cell c) = false.
Proof. by destruct c as [|n|[]]. Qed.

Lemma fillna_cell_idemp (c : Model.cell Data Json) :
  fillna_cell (fillna_cell c) = fillna_cell c.
Proof. by destruct c as [|n|[]]. Qed.

Lemma fillna_cell_present (c : Model.cell Data Json) :
  is_missing c = false → fillna_cell c = c.
Proof. by destruct c as [|n|[]]. Qed.

Lemma fillna_index (df : Model.DataFrame Data Json) :
  df_index (fillna df) = df_index df.
Proof.
  unfold df_index, fillna. cbn [df_rows]. rewrite <- list_fmap_compose.
  by apply list_fmap_ext.
Qed.

Lemma fillna_idemp (df : Model.DataFrame Data Json) :
  fillna (fillna df) = fillna df.
Proof.
  unfold fillna. cbn [df_rows df_columns]. f_equal.
  rewrite <- list_fmap_compose. apply list_fmap_ext. intros i [label cells] _.
  cbn. f_equal. rewrite <- list_fmap_compose. apply list_fmap_ext.
  intros j c _. apply fillna_cell_idemp.
Qed.

Lemma fillna_filled (df : Model.DataFrame Data Json) :
  Forall (λ row, Forall (λ c, is_missing c = false) row.2) (df_rows (fillna df)).
Proof.
  unfold fillna. cbn [df_rows]. apply Forall_fmap, Forall_forall.
  intros [label cells] _. cbn. apply Forall_fmap, Forall_forall.
  intros c _. apply fillna_cell_filled.
Qed.
End Filled.

(** ** The sizes of the partitions *)

Section PartitionSizes.
Import Partitioner PartitionerFacts.

Lemma slices_lengths {A} (ary : list A) (szs : list nat) (d : nat) :
  d + sum_list szs ≤ length ary →
  length <$> ((λ i, slice ary (nth i (d :: cumsum_from d szs) 0)
                              (nth (i + 1) (d :: cumsum_from d szs) 0))
                <$> seq 0 (length szs))
  = szs.
Proof.
  revert d. induction szs as [|s szs IH]; intros d Hlen; [reflexivity|].
  cbn [length]. rewrite <- cons_seq, <- fmap_S_seq.
  rewrite fmap_cons, <- list_fmap_compose. unfold compose.
  cbn [cumsum_from sum_list_with] in *.
  cbn [nth Nat.add]. change (d + (s + sum_list szs) ≤ length ary) in Hlen.
  rewrite fmap_cons. f_equal.
  - unfold slice. replace (d + s - d) with s by lia.
    rewrite length_take, length_drop. lia.
  - specialize (IH (d + s) ltac:(lia)). cbn [nth Nat.add] in IH. exact IH.
Qed.

(** The sections of [np.array_split]: the first [N mod P] have one element
    more than the others. *)
Lemma array_split_lengths {A} (ary : list A) P parts :
  array_split ary P = Ok parts →
  length <$> parts
  = replicate (length ary mod P) (length ary / P + 1)
    ++ replicate (P - length ary mod P) (length ary / P).
Proof.
  unfold array_split. destruct (Nat.leb_spec P 0) as [|HP]; [discriminate|].
  intros E. apply Ok_inj in E. subst parts.
  unfold cumsum. cbn [cumsum_from]. change (0 + 0) with 0.
  pose proof (slices_lengths ary
    (replicate (length ary mod P) (length ary / P + 1)
       ++ replicate (P - length ary mod P) (length ary / P)) 0) as E.
  rewrite section_sizes_length in E by exact HP. apply E.
  rewrite section_sizes_sum by exact HP. lia.
Qed.

Lemma section_sizes_bounds N P :
  Forall (λ s, N / P ≤ s ≤ N / P + 1)
    (replicate (N mod P) (N / P + 1) ++ replicate (P - N mod P) (N / P)).
Proof. apply Forall_app. split; apply Forall_replicate; lia. Qed.

Lemma section_sizes_ten N P :
  1 ≤ P → N ≤ 10 * P →
  Forall (λ s, s ≤ 10)
    (replicate (N mod P) (N / P + 1) ++ replicate (P - N mod P) (N / P)).
Proof.
  intros HP HN.
  pose proof (Nat.div_mod_eq N P) as E.
  pose proof (Nat.mod_upper_bound N P ltac:(lia)) as B.
  assert (N / P ≤ 10) as Hq by (apply Nat.Div0.div_le_upper_bound; lia).
  apply Forall_app. split.
  - destruct (N mod P) as [|r] eqn:Er; [constructor|].
    apply Forall_replicate. nia.
  - apply Forall_replicate. lia.
Qed.
End PartitionSizes.

(** ** The names of the features and the columns *)

Section Features.
Context `{Draco}.

Lemma substring_append_l a b : String.substring 0 (String.length a) (a +:+ b) = a.
Proof.
  induction a as [|c a IH]; cbn [String.length].
  - rewrite append_nil_l. by destruct b.
  - rewrite append_cons. cbn [String.substring]. by rewrite IH.
Qed.

Lemma length_append a b :
  String.length (a +:+ b) = String.length a + String.length b.
Proof.
  induction a as [|c a IH]; [done|].
  rewrite append_cons. cbn [String.length]. by rewrite IH.
Qed.

(** Cutting the suffix [_weight] off a name that ends with it. *)
Lemma drop_suffix_weight f :
  drop_suffix (String.length "_weight") (f +:+ "_weight") = f.
Proof.
  unfold drop_suffix. rewrite length_append.
  replace (String.length f + String.length "_weight" - String.length "_weight")
    with (String.length f) by lia.
  apply substring_append_l.
Qed.

Lemma get_feature_names_perm :
  get_feature_names
  ≡ₚ drop_suffix (String.length "_weight") <$> current_weights_keys.
Proof. unfold get_feature_names. apply merge_sort_Permutation. Qed.

Lemma get_feature_names_sorted : Sorted str_le get_feature_names.
Proof. unfold get_feature_names. apply Sorted_merge_sort; apply _. Qed.

Lemma get_nested_index_length :
  length get_nested_index = 2 * length current_weights_keys + 2.
Proof.
  rewrite get_nested_index_eq, !length_app, !length_fmap.
  rewrite get_feature_names_perm, length_fmap. cbn. lia.
Qed.

Lemma get_nested_index_NoDup : NoDup get_feature_names → NoDup get_nested_index.
Proof.
  intros Hnd. rewrite get_nested_index_eq.
  pose proof (pair_left_inj "negative"). pose proof (pair_left_inj "positive").
  apply NoDup_app. split; [|split].
  - by apply NoDup_fmap_2.
  - intros c (f & -> & _)%list_elem_of_fmap
      [(f' & [=] & _)%list_elem_of_fmap|Hc]%elem_of_app.
    apply elem_of_cons in Hc as [[=]|Hc].
    apply elem_of_cons in Hc as [[=]|Hc]. by apply elem_of_nil in Hc.
  - apply NoDup_app. split; [|split].
    + by apply NoDup_fmap_2.
    + intros c (f & -> & _)%list_elem_of_fmap Hc.
      apply elem_of_cons in Hc as [[=]|Hc].
      apply elem_of_cons in Hc as [[=]|Hc]. by apply elem_of_nil in Hc.
    + apply NoDup_cons. split; [|apply NoDup_singleton].
      intros Hc. by apply list_elem_of_singleton in Hc.
Qed.
End Features.

(** ** The cost of a run *)

Section Cost.
Context `{Draco}.
Import Partitioner PartitionerFacts.

Lemma grown_by_refl n σ : grown_by n σ σ.
Proof. unfold grown_by. lia. Qed.

Lemma grown_by_trans n m σ1 σ2 σ3 :
  grown_by n σ1 σ2 → grown_by m σ2 σ3 → grown_by (n + m) σ1 σ3.
Proof. unfold grown_by. lia. Qed.

Lemma grown_by_le n m σ σ' : n ≤ m → grown_by n σ σ' → grown_by m σ σ'.
Proof. unfold grown_by. lia. Qed.

Lemma count_violations_memoized_cost t σ r σ' :
  exec (count_violations_memoized t) σ = (r, σ') → grown_by 1 σ σ'.
Proof.
  rewrite exec_count_violations_memoized.
  destruct (Task_to_asp t) as [key|e];
    [|intros [= <- <-]; apply grown_by_refl].
  destruct (processed_specs σ !! key) as [v|] eqn:E;
    [intros [= <- <-]; apply grown_by_refl|].
  destruct (count_violations t) as [v|e]; intros [= <- <-];
    unfold grown_by; cbn [cache_misses solver_calls processed_specs];
    rewrite length_app; cbn [length].
  - rewrite map_size_insert_None by done. lia.
  - lia.
Qed.

Lemma vectorize_example_cost cols example encoding_cnt σ r σ' :
  exec (vectorize_example cols example encoding_cnt) σ = (r, σ') →
  grown_by 2 σ σ'.
Proof.
  unfold vectorize_example. rewrite exec_bind, exec_lift.
  destruct (resolve example) as [ex|e];
    [|intros [= <- <-]; apply grown_by_refl].
  rewrite exec_bind, exec_lift.
  destruct (Query_from_vegalite (negative ex) 0) as [qn|e];
    [|intros [= <- <-]; apply grown_by_refl].
  rewrite exec_bind.
  destruct (exec (count_violations_memoized _) σ) as [[vn|e] σ1] eqn:E1;
    apply count_violations_memoized_cost in E1.
  2:{ intros [= <- <-]. eapply grown_by_le; [|exact E1]. lia. }
  rewrite exec_bind, exec_lift.
  destruct (Query_from_vegalite (positive ex) qn.2) as [qp|e].
  2:{ intros [= <- <-]. eapply grown_by_le; [|exact E1]. lia. }
  rewrite exec_bind.
  destruct (exec (count_violations_memoized _) σ1) as [[vp|e] σ2] eqn:E2;
    apply count_violations_memoized_cost in E2;
    cbn [exec]; intros [= <- <-]; by apply (grown_by_trans 1 1 _ σ1).
Qed.

Lemma exec_rows_cost examples σ r σ' :
  exec_rows examples σ = (r, σ') → grown_by (2 * length examples) σ σ'.
Proof.
  revert σ r σ'. induction examples as [|x l IH]; intros σ r σ';
    cbn [exec_rows length].
  - intros [= <- <-]. apply grown_by_refl.
  - destruct (exec (vectorize_example _ x 0) σ) as [[r1|e] σ1] eqn:E1;
      apply vectorize_example_cost in E1.
    2:{ intros [= <- <-]. eapply grown_by_le; [|exact E1]. lia. }
    destruct (exec_rows l σ1) as [[rows|e] σ2] eqn:E2; apply IH in E2;
      intros [= <- <-];
      (eapply grown_by_le; [|by eapply grown_by_trans]); lia.
Qed.

Lemma run_in_parallel_store_cost cpu_count data encoding_cnt r σ :
  run_in_parallel_store pair_partition_to_vec cpu_count data encoding_cnt = (r, σ) →
  grown_by (2 * length data) empty_store σ.
Proof.
  destruct (decide (1 ≤ cpu_count ∧ data ≠ [])) as [[Hcpu Hne]|Hno].
  - rewrite run_in_parallel_store_flat by done.
    destruct (exec_rows (items data) empty_store) as [[rows|e] σ1] eqn:E;
      apply exec_rows_cost in E; cbn [table_of_rows]; intros [= <- <-];
      unfold items in E; by rewrite !length_fmap in E.
  - assert (splits cpu_count (length data) = 0) as Hz.
    { destruct data as [|x data]; [apply splits_empty|].
      assert (cpu_count = 0) as -> by (destruct cpu_count; [done|]; destruct Hno; split; [lia|done]).
      done. }
    unfold run_in_parallel_store. cbv zeta. rewrite Hz, df_split_zero.
    intros [= <- <-]. apply grown_by_refl.
Qed.
End Cost.

(** ** Lookups in the shared dictionary *)

Section Lookups.
Context `{Draco}.

Lemma lookups_safe_mono {A} K K' (p : prog A) :
  lookups_safe K p → K ⊆ K' → lookups_safe K' p.
Proof.
  intros Hs. revert K'. induction Hs as [| |K key k _ IHt _ IHf|K key v k _ IH
                                        |K key k Hin _ IH|K t k _ IH];
    intros K' Hsub.
  - constructor.
  - constructor.
  - constructor; [apply IHt; by apply union_mono_l|by apply IHf].
  - constructor. apply IH. by apply union_mono_l.
  - constructor; [by eapply elem_of_weaken|]. intros v. by apply IH.
  - constructor. intros v. by apply IH.
Qed.

Lemma lookups_safe_bind {A B} K (p : prog A) (f : A → prog B) :
  lookups_safe K p →
  (∀ a K', K ⊆ K' → lookups_safe K' (f a)) →
  lookups_safe K (bind p f).
Proof.
  intros Hs. induction Hs as [K a|K e|K key k _ IHt _ IHf|K key v k _ IH
                              |K key k Hin _ IH|K t k _ IH];
    intros Hf; cbn [bind].
  - by apply Hf.
  - constructor.
  - constructor.
    + apply IHt. intros a K' Hsub. apply Hf. etrans; [|exact Hsub].
      apply union_subseteq_r.
    + by apply IHf.
  - constructor. apply IH. intros a K' Hsub. apply Hf. etrans; [|exact Hsub].
    apply union_subseteq_r.
  - constructor; [done|]. intros v. by apply IH.
  - constructor. intros v. by apply IH.
Qed.

Lemma lookups_safe_lift {A} K (r : res A) : lookups_safe K (lift r).
Proof. destruct r; constructor. Qed.

(** [count_violations_memoized] looks up the key it has just found or
    just stored. *)
Lemma count_violations_memoized_safe K t :
  lookups_safe K (count_violations_memoized t).
Proof.
  unfold count_violations_memoized.
  destruct (Task_to_asp t) as [key|e]; cbn [lift bind]; [|constructor].
  constructor; cbn [negb bind].
  - constructor; [|intros v; constructor]. by apply elem_of_union_l, elem_of_singleton.
  - constructor. intros v. constructor. constructor; [|intros v'; constructor].
    by apply elem_of_union_l, elem_of_singleton.
Qed.

Lemma vectorize_example_safe K cols example encoding_cnt :
  lookups_safe K (vectorize_example cols example encoding_cnt).
Proof.
  unfold vectorize_example.
  apply lookups_safe_bind; [apply lookups_safe_lift|]. intros ex K1 _.
  apply lookups_safe_bind; [apply lookups_safe_lift|]. intros qn K2 _.
  apply lookups_safe_bind; [apply count_violations_memoized_safe|].
  intros vn K3 _.
  apply lookups_safe_bind; [apply lookups_safe_lift|]. intros qp K4 _.
  apply lookups_safe_bind; [apply count_violations_memoized_safe|].
  intros vp K5 _. constructor.
Qed.

Lemma partition_loop_safe K cols partition dfs encoding_cnt :
  lookups_safe K (partition_loop cols partition dfs encoding_cnt).
Proof.
  revert K dfs encoding_cnt.
  induction partition as [|x l IH]; intros K dfs encoding_cnt;
    cbn [partition_loop]; [constructor|].
  apply lookups_safe_bind; [apply vectorize_example_safe|].
  intros r K' _. apply IH.
Qed.

Lemma pair_partition_to_vec_safe K partition encoding_cnt :
  lookups_safe K (pair_partition_to_vec partition encoding_cnt).
Proof.
  unfold pair_partition_to_vec.
  apply lookups_safe_bind; [apply partition_loop_safe|]. intros r K1 _.
  apply lookups_safe_bind; [apply lookups_safe_lift|]. intros df K2 _.
  constructor.
Qed.

Lemma job_safe_mono d d' j : dom d ⊆ dom d' → job_safe d j → job_safe d' j.
Proof.
  intros Hd. destruct j as [t|p|r]; cbn; [done| |done].
  intros (K & HK & Hs). exists K. split; [by etrans|done].
Qed.

Lemma jobs_safe_update d d' jobs i j :
  Forall (job_safe d) jobs → dom d ⊆ dom d' → job_safe d' j →
  Forall (job_safe d') (<[i := j]> jobs).
Proof.
  intros Hall Hd Hj. apply Forall_insert; [|done].
  eapply Forall_impl; [exact Hall|]. intros j'. by apply job_safe_mono.
Qed.

(** A step of the pool keeps the keys of the dictionary and the safety of
    the running tasks. *)
Lemma pool_step_safe processes st st' :
  pool_step pair_partition_to_vec processes st st' →
  Forall (job_safe st.1) st.2 →
  dom st.1 ⊆ dom st'.1 ∧ Forall (job_safe st'.1) st'.2.
Proof.
  intros Hstep.
  destruct Hstep as [d jobs i t cnt Hi _|d jobs i a Hi|d jobs i e Hi
                    |d jobs i key k Hi|d jobs i key v k Hi
                    |d jobs i key k v Hi Hv|d jobs i key k Hi Hv
                    |d jobs i t k v Hi Hv|d jobs i t k e Hi He];
    cbn [fst snd]; intros Hall;
    pose proof (proj1 (Forall_lookup _ _) Hall i _ Hi) as Hok;
    cbn [job_safe] in Hok.
  - split; [done|]. eapply jobs_safe_update; [done..|].
    exists ∅. split; [apply empty_subseteq|apply pair_partition_to_vec_safe].
  - split; [done|]. by eapply jobs_safe_update.
  - split; [done|]. by eapply jobs_safe_update.
  - split; [done|]. eapply jobs_safe_update; [done..|].
    destruct Hok as (K & HK & Hs). inversion Hs as [| |? ? ? Ht Hf| | |]; subst.
    destruct (d !! key) as [v|] eqn:E.
    + rewrite bool_decide_eq_true_2 by eauto. exists ({[key]} ∪ K).
      split; [|exact Ht]. apply union_least; [|exact HK].
      apply singleton_subseteq_l. by eapply elem_of_dom_2.
    + rewrite bool_decide_eq_false_2 by (intros [? ?]; congruence). by exists K.
  - assert (dom d ⊆ dom (<[key := v]> d)) as Hd
      by (rewrite dom_insert_L; apply union_subseteq_r).
    split; [done|]. eapply jobs_safe_update; [done..|].
    destruct Hok as (K & HK & Hs). inversion Hs as [| | |? ? ? ? Hk| |]; subst.
    exists ({[key]} ∪ K). split; [|exact Hk].
    rewrite dom_insert_L. by apply union_mono_l.
  - split; [done|]. eapply jobs_safe_update; [done..|].
    destruct Hok as (K & HK & Hs). inversion Hs as [| | | |? ? ? Hin Hk|]; subst.
    exists K. split; [exact HK|]. apply Hk.
  - split; [done|]. by eapply jobs_safe_update.
  - split; [done|]. eapply jobs_safe_update; [done..|].
    destruct Hok as (K & HK & Hs). inversion Hs as [| | | | |? ? ? Hk]; subst.
    exists K. split; [exact HK|]. apply Hk.
  - split; [done|]. by eapply jobs_safe_update.
Qed.

Lemma pool_steps_safe processes st st' :
  rtc (pool_step pair_partition_to_vec processes) st st' →
  Forall (job_safe st.1) st.2 →
  dom st.1 ⊆ dom st'.1 ∧ Forall (job_safe st'.1) st'.2.
Proof.
  induction 1 as [st|st1 st2 st3 Hstep _ IH]; [done|].
  intros Hall. apply pool_step_safe in Hstep as [Hd Hall2]; [|done].
  destruct (IH Hall2) as [Hd' Hall3]. split; [by etrans|done].
Qed.
End Lookups.

(** ** Paths *)

Module PosixPathFacts.
Import PosixPath.

Lemma append_assoc a b c : (a +:+ b) +:+ c = a +:+ (b +:+ c).
Proof.
  induction a as [|x a IH]; [done|]. by rewrite !append_cons, IH.
Qed.

Lemma append_nil_r a : a +:+ "" = a.
Proof. induction a as [|x a IH]; [done|]. by rewrite append_cons, IH. Qed.

Lemma list_ascii_of_string_app a b :
  String.list_ascii_of_string (a +:+ b)
  = String.list_ascii_of_string a ++ String.list_ascii_of_string b.
Proof.
  induction a as [|x a IH]; [done|]. rewrite append_cons. cbn. by rewrite IH.
Qed.

Lemma string_of_list_ascii_app k l :
  String.string_of_list_ascii (k ++ l)
  = String.string_of_list_ascii k +:+ String.string_of_list_ascii l.
Proof.
  induction k as [|x k IH]; [done|]. cbn. by rewrite IH, append_cons.
Qed.

Lemma has_sep_elem s : has_sep s = true ↔ sep ∈ String.list_ascii_of_string s.
Proof.
  induction s as [|c s IH]; cbn.
  - split; [done|]. by intros ?%elem_of_nil.
  - rewrite orb_true_iff, bool_decide_eq_true, elem_of_cons, IH.
    split; (intros [E|Hin]; [left; by rewrite E|by right]).
Qed.

Lemma has_sep_app a b : has_sep (a +:+ b) = has_sep a || has_sep b.
Proof.
  induction a as [|c a IH]; [done|]. rewrite append_cons. cbn.
  by rewrite IH, orb_assoc.
Qed.

Lemma startswith_sep_nosep s : has_sep s = false → startswith_sep s = false.
Proof. destruct s as [|c s]; [done|]. cbn. by intros [? _]%orb_false_iff. Qed.

Lemma endswith_inv s suffix :
  endswith s suffix = true → ∃ s', s = s' +:+ suffix.
Proof.
  unfold endswith. intros [k Hk]%bool_decide_eq_true.
  exists (String.string_of_list_ascii k).
  rewrite <- (String.string_of_list_ascii_of_string s), Hk.
  by rewrite string_of_list_ascii_app, String.string_of_list_ascii_of_string.
Qed.

Lemma endswith_app a b suffix :
  endswith b suffix = true → endswith (a +:+ b) suffix = true.
Proof.
  unfold endswith. rewrite !bool_decide_eq_true, list_ascii_of_string_app.
  apply suffix_app_r.
Qed.

(** A suffix without separator of a path whose last component is [name]
    is a suffix of [name]. *)
Lemma endswith_component dir name suffix :
  has_sep suffix = false →
  endswith (dir +:+ "/" +:+ name) suffix = endswith name suffix.
Proof.
  intros Hs. unfold endswith. apply bool_decide_ext.
  rewrite !list_ascii_of_string_app.
  change (String.list_ascii_of_string "/") with [sep].
  set (l := String.list_ascii_of_string suffix).
  set (n := String.list_ascii_of_string name).
  set (p := String.list_ascii_of_string dir).
  assert (sep ∉ l) as Hl.
  { intros Hin. apply has_sep_elem in Hin. congruence. }
  split; [|by intros ?; do 2 apply suffix_app_r].
  intros Hsuf.
  destruct (suffix_weak_total l n (p ++ [sep] ++ n)) as [Hln|[k Hk]];
    [done|by do 2 apply suffix_app_r|done|].
  destruct Hsuf as [k' Hk']. rewrite Hk in Hk'.
  rewrite !app_assoc in Hk'. apply app_inv_tail in Hk'.
  destruct k as [|x k _] using rev_ind; [by rewrite Hk|].
  exfalso. apply Hl. rewrite Hk.
  rewrite app_assoc in Hk'. apply app_inj_tail in Hk' as [_ ->].
  apply elem_of_app. left. apply elem_of_app. right. by apply list_elem_of_singleton.
Qed.

(** The path that [os.path.join] makes of a directory and a name. *)
Lemma join_name dir name :
  has_sep name = false →
  join dir name = name ∧ dir = ""
  ∨ ∃ dir', join dir name = dir' +:+ "/" +:+ name.
Proof.
  intros Hn. unfold join. rewrite startswith_sep_nosep by done.
  destruct (bool_decide (dir = "")) eqn:Ed; cbn [orb].
  - apply bool_decide_eq_true in Ed as ->. by left.
  - right. destruct (endswith dir "/") eqn:Ee.
    + apply endswith_inv in Ee as [dir' ->]. exists dir'.
      by rewrite append_assoc.
    + by exists dir.
Qed.

Lemma endswith_join dir name suffix :
  has_sep name = false → has_sep suffix = false →
  endswith (join dir name) suffix = endswith name suffix.
Proof.
  intros Hn Hs. destruct (join_name dir name Hn) as [[-> _]|[dir' ->]]; [done|].
  by apply endswith_component.
Qed.

Lemma substring_all s : String.substring 0 (String.length s) s = s.
Proof. induction s as [|c s IH]; [done|]. cbn. by rewrite IH. Qed.

Lemma str_drop_0 p : str_drop 0 p = p.
Proof. unfold str_drop. rewrite Nat.sub_0_r. apply substring_all. Qed.

Lemma str_drop_cons i c p : str_drop (S i) (String c p) = str_drop i p.
Proof. reflexivity. Qed.

Lemma after_last_sep_nosep p : has_sep p = false → after_last_sep p = 0.
Proof.
  destruct p as [|c p]; [done|]. cbn. intros [Hc ->]%orb_false_iff.
  by rewrite Hc.
Qed.

Lemma basename_nosep name : has_sep name = false → basename name = name.
Proof.
  intros Hn. unfold basename. rewrite after_last_sep_nosep by done.
  apply str_drop_0.
Qed.

Lemma basename_component dir name :
  has_sep name = false → basename (dir +:+ "/" +:+ name) = name.
Proof.
  intros Hn. unfold basename. induction dir as [|c dir IH].
  - rewrite append_nil_l. change ("/" +:+ name) with (String sep name).
    cbn [after_last_sep]. rewrite Hn, bool_decide_eq_true_2 by done.
    rewrite str_drop_cons. apply str_drop_0.
  - rewrite append_cons. cbn [after_last_sep].
    rewrite has_sep_app. change ("/" +:+ name) with (String sep name).
    cbn [has_sep]. rewrite bool_decide_eq_true_2 by done.
    rewrite orb_true_r. rewrite str_drop_cons. exact IH.
Qed.

(** The name under which a file of a directory is listed is the last
    component of its path. *)
Lemma basename_join dir name :
  has_sep name = false → basename (join dir name) = name.
Proof.
  intros Hn. destruct (join_name dir name Hn) as [[-> _]|[dir' ->]].
  - by apply basename_nosep.
  - by apply basename_component.
Qed.

Lemma basename_has_no_sep p : has_sep (basename p) = false.
Proof.
  unfold basename. induction p as [|c p IH]; [done|].
  cbn [after_last_sep]. destruct (has_sep p) eqn:Hp.
  - by rewrite str_drop_cons.
  - destruct (bool_decide (c = sep)) eqn:Hc.
    + by rewrite str_drop_cons, str_drop_0.
    + rewrite str_drop_0. cbn. by rewrite Hc, Hp.
Qed.

Lemma data_dir_endswith_sep file : endswith (data_dir file) "/" = true.
Proof.
  unfold data_dir, absolute_path, join. cbn [startswith_sep].
  rewrite bool_decide_eq_false_2 by done.
  destruct (_ || _); [by apply endswith_app|]. by do 2 apply endswith_app.
Qed.
End PosixPathFacts.

(** ** Pairs of partial and full specifications *)

Section PartialFullFacts.
Context `{TaskSpec}.
Import PosixPath PosixPathFacts.

Lemma load_spec_file_eq fs data_dir fmt result fname :
  load_spec_file fs data_dir fmt result fname
  = if endswith fname ".json"
    then res_bind (read_spec fs data_dir fmt fname) (λ spec,
           Ok (<[basename fname := spec]> result))
    else Ok result.
Proof.
  unfold load_spec_file, read_spec. destruct (endswith fname ".json"); [|done].
  cbn [negb]. destruct (json_load fs fname) as [content|]; [|done].
  cbn [res_bind]. destruct (Json_url content) as [url|]; [|done].
  cbn [res_bind]. by destruct fmt.
Qed.

(** The loop of [load_spec] over paths with pairwise distinct last
    components. *)
Lemma load_spec_loop_Ok fs data_dir fmt files result result' :
  load_spec_loop fs data_dir fmt files result = Ok result' →
  NoDup (basename <$> files) →
  (∀ k, k ∉ basename <$> files → result' !! k = result !! k)
  ∧ (∀ fname, fname ∈ files →
       if endswith fname ".json"
       then ∃ spec, read_spec fs data_dir fmt fname = Ok spec
                    ∧ result' !! basename fname = Some spec
       else result' !! basename fname = result !! basename fname).
Proof.
  revert result. induction files as [|fname files IH]; intros result;
    cbn [load_spec_loop].
  - intros [= <-] _. split; [done|]. by intros fname ?%elem_of_nil.
  - rewrite load_spec_file_eq, fmap_cons.
    intros E [Hfresh Hnd]%NoDup_cons.
    destruct (endswith fname ".json") eqn:Ejson.
    + destruct (read_spec fs data_dir fmt fname) as [spec|] eqn:Espec; [|done].
      cbn [res_bind] in E. destruct (IH _ E Hnd) as [Hout Hin]. split.
      * intros k [Hk1 Hk2]%not_elem_of_cons.
        rewrite Hout by done. by rewrite lookup_insert_ne.
      * intros f [->|Hf]%elem_of_cons.
        -- rewrite Ejson. exists spec. split; [done|].
           rewrite Hout by done. apply lookup_insert_eq.
        -- specialize (Hin f Hf). destruct (endswith f ".json"); [done|].
           rewrite Hin. apply lookup_insert_ne. intros Heq. apply Hfresh.
           rewrite Heq. by apply list_elem_of_fmap_2.
    + destruct (IH _ E Hnd) as [Hout Hin]. split.
      * intros k [Hk1 Hk2]%not_elem_of_cons. by apply Hout.
      * intros f [->|Hf]%elem_of_cons; [|by apply Hin].
        rewrite Ejson. by apply Hout.
Qed.

Lemma basename_join_fmap dir names :
  Forall (λ n, has_sep n = false) names →
  basename <$> (join dir <$> names) = names.
Proof.
  intros Hn. rewrite <- list_fmap_compose. rewrite <- (list_fmap_id names) at 2.
  apply Forall_fmap_ext. eapply Forall_impl; [exact Hn|].
  intros n Hs. by apply basename_join.
Qed.

(** The last loop of [load_partial_full_data]. *)
Lemma pair_specs_Ok keys partial_specs compassql_outs result :
  Forall (λ k, is_Some (partial_specs !! k)) keys →
  Forall (λ k, is_Some (compassql_outs !! k)) keys →
  ∃ result',
    pair_specs keys partial_specs compassql_outs result = Ok result'
    ∧ ∀ k, result' !! k
           = if decide (k ∈ keys)
             then p ← partial_specs !! k; o ← compassql_outs !! k; Some (p, o)
             else result !! k.
Proof.
  intros Hp. revert result. induction Hp as [|k keys [p Ep] _ IH];
    intros result Ho; cbn [pair_specs].
  - exists result. split; [done|]. intros k. destruct (decide _) as [Hk|]; [|done].
    by apply elem_of_nil in Hk.
  - apply Forall_cons in Ho as [[o Eo] Ho]. rewrite Ep, Eo. cbn [getitem res_bind].
    destruct (IH (<[k := (p, o)]> result) Ho) as (result' & -> & Hres).
    exists result'. split; [done|]. intros k'. rewrite Hres.
    destruct (decide (k' ∈ keys)) as [Hin|Hnin].
    + rewrite decide_True; [done|]. by apply elem_of_cons; right.
    + destruct (decide (k' = k)) as [->|Hne].
      * rewrite decide_True by (by apply elem_of_cons; left).
        by rewrite lookup_insert_eq, Ep, Eo.
      * rewrite decide_False; [by rewrite lookup_insert_ne|].
        intros [?|?]%elem_of_cons; done.
Qed.

Lemma pair_specs_Raise keys partial_specs compassql_outs result :
  Forall (λ k, is_Some (partial_specs !! k)) keys →
  ¬ Forall (λ k, is_Some (compassql_outs !! k)) keys →
  pair_specs keys partial_specs compassql_outs result = Raise KeyError.
Proof.
  intros Hp. revert result. induction Hp as [|k keys [p Ep] _ IH];
    intros result Hno; cbn [pair_specs].
  - destruct Hno. constructor.
  - rewrite Ep. cbn [getitem res_bind].
    destruct (compassql_outs !! k) as [o|] eqn:Eo; [|done].
    cbn [getitem res_bind]. apply IH. intros Ho. apply Hno.
    constructor; [by eexists|done].
Qed.
End PartialFullFacts.

(** * Further properties, stated *)

Section Further.
Context `{Draco}.
Import Partitioner PartitionerFacts.

(** X1. The examples that [load_unlabeled_specs] returns are numbered in
    one sequence over all files and groups: their identifiers are
    [halden-0], [halden-1], ... in the order of the list, hence pairwise
    distinct. They are the pairs of [itertools.combinations] of each group,
    in the order of the loops, so that a group of [n] specifications yields
    [n * (n - 1) / 2] examples. *)
Theorem unlabeled_pair_ids files raw :
  load_unlabeled_specs files = Ok raw →
  u_pair_id <$> raw = halden_ids (length raw)
  ∧ NoDup (u_pair_id <$> raw)
  ∧ (λ u, (left u, right u)) <$> raw
    = (λ p : Json * Json, (PyJson p.1, PyJson p.2)) <$> all_pairs files
  ∧ 2 * length raw
    = sum_list ((λ group : list Json, length group * (length group - 1))
                  <$> all_groups files).
Proof.
  intros Hload. pose proof (load_unlabeled_specs_ids _ _ Hload) as [Hids Hlen].
  split; [exact Hids|]. split.
  { rewrite Hids. apply halden_ids_NoDup. }
  split; [|rewrite Hlen; apply all_pairs_length].
  apply load_unlabeled_specs_inv in Hload as (st & Hload & ->).
  apply load_pairs_inv in Hload as (_ & (new & Hraw & _ & Hlr & _) & _).
  cbn [raw_data app] in Hraw. by rewrite Hraw.
Qed.

(** X2. [load_unlabeled_specs] returns only if its two assertions held on
    every pair: no group holds the same specification twice, and the
    specifications of a group that has at least two name one data URL,
    whose data set could be read. *)
Theorem unlabeled_groups_checked files raw :
  load_unlabeled_specs files = Ok raw →
  ∀ group, group ∈ all_groups files →
    NoDup group
    ∧ (2 ≤ length group →
       ∃ url d0, Forall (λ spec, Json_data_url spec = Ok url) group
                 ∧ Data_from_json (data_path url) = Ok d0).
Proof.
  intros (st & Hload & _)%load_unlabeled_specs_inv group Hgroup.
  apply load_pairs_inv in Hload as (_ & _ & Hall & _ & Hread).
  assert (∀ x y, (x, y) ∈ combinations2 group →
                 x ≠ y ∧ ∃ url, Json_data_url x = Ok url
                                ∧ Json_data_url y = Ok url
                                ∧ is_Some (data_cache st !! url)) as Hpairs.
  { intros x y Hxy.
    apply (proj1 (Forall_forall _ _) Hall (x, y)), elem_of_all_pairs.
    by exists group. }
  split.
  { apply combinations2_NoDup. intros x y Hxy. by apply Hpairs. }
  intros Hlen. destruct group as [|a [|b rest]]; [cbn in Hlen; lia..|].
  destruct (Hpairs a b) as (_ & url & Ha & _ & [d Hd]).
  { apply elem_of_combinations2. exists 0, 1. split; [lia|]. by split. }
  destruct (Hread cache_read_empty url d Hd) as (d0 & Hd0 & _).
  exists url, d0. split; [|exact Hd0].
  constructor; [exact Ha|]. apply Forall_forall. intros y Hy.
  apply list_elem_of_lookup in Hy as [j Hj].
  destruct (Hpairs a y) as (_ & url' & Ha' & Hy' & _).
  { apply elem_of_combinations2. exists 0, (S j). split; [lia|]. by split. }
  congruence.
Qed.

(** X3. The [task] field of an example built by [load_unlabeled_specs] is
    the data set read from the file that [data_dir] holds under the name of
    the URL of its left specification, with its [url] set back to that
    URL; examples whose left specifications name the same URL carry the
    same data set. *)
Theorem unlabeled_data_sets files raw :
  load_unlabeled_specs files = Ok raw →
  Forall (λ u, ∃ l url d0,
            left u = PyJson l ∧ Json_data_url l = Ok url
            ∧ Data_from_json (data_path url) = Ok d0
            ∧ u_task u = PyData (Data_set_url d0 url)) raw
  ∧ ∀ u1 u2 l1 l2,
      u1 ∈ raw → u2 ∈ raw →
      left u1 = PyJson l1 → left u2 = PyJson l2 →
      Json_data_url l1 = Json_data_url l2 →
      u_task u1 = u_task u2.
Proof.
  intros (st & Hload & ->)%load_unlabeled_specs_inv.
  pose proof (load_pairs_Ok _ _ _ Hload (Forall_nil_2 _)) as Hshape.
  apply load_pairs_inv in Hload as (_ & _ & _ & _ & Hread).
  specialize (Hread cache_read_empty).
  assert (Forall (λ u, ∃ l url d0,
            left u = PyJson l ∧ Json_data_url l = Ok url
            ∧ Data_from_json (data_path url) = Ok d0
            ∧ u_task u = PyData (Data_set_url d0 url)) (raw_data st)) as Hall.
  { eapply Forall_impl; [exact Hshape|].
    intros u (_ & l & r & url & d & Hl & _ & Hurl & Hd & Ht).
    destruct (Hread url d Hd) as (d0 & Hd0 & ->). by exists l, url, d0. }
  split; [exact Hall|].
  intros u1 u2 l1 l2 Hin1 Hin2 Hl1 Hl2 Hurl.
  destruct (proj1 (Forall_forall _ _) Hall u1 Hin1) as (l1' & url1 & d1 & E1 & U1 & D1 & ->).
  destruct (proj1 (Forall_forall _ _) Hall u2 Hin2) as (l2' & url2 & d2 & E2 & U2 & D2 & ->).
  assert (l1' = l1) as -> by congruence. assert (l2' = l2) as -> by congruence.
  assert (url1 = url2) as -> by congruence. congruence.
Qed.

(** X4. On a corpus in which the specifications of every group name one
    URL whose data set can be read, [load_unlabeled_specs] returns when no
    group holds a specification twice; when some group does, it fails
    with a [NameError], not with the [AssertionError] of the check: the
    message of that assertion names a variable [i] that is not bound. *)
Theorem repeated_specification_error files :
  Forall group_reads (all_groups files) →
  (Forall NoDup (all_groups files) → is_Ok (load_unlabeled_specs files))
  ∧ (¬ Forall NoDup (all_groups files) →
     load_unlabeled_specs files = Raise (OtherError "NameError")).
Proof.
  intros Hreads%all_pairs_reads.
  destruct (load_pairs_reads _ (mkLoader ∅ [] 0) Hreads) as [Hok Hno].
  unfold load_unlabeled_specs, load_unlabeled_specs_state. split.
  - intros Hnd%all_pairs_distinct. destruct (Hok Hnd) as [st ->]. by eexists.
  - intros Hnd. rewrite Hno; [done|]. by rewrite all_pairs_distinct.
Qed.

(** X5. Under the contract of the solver, the table of [pairs_to_vec] does
    not depend on the order of the examples when their identifiers are
    pairwise distinct: once a run on a list returns a table, every run on
    a rearrangement of the list, under any schedule of the pool and on any
    number of processors, returns that table. *)
Theorem input_order_irrelevant cpu1 cpu2 data1 data2 :
  solver_pure →
  1 ≤ cpu2 →
  data1 ≡ₚ data2 →
  NoDup (example_pair_id <$> data1) →
  (∀ T r2,
     pairs_to_vec_sched cpu1 data1 (Ok T) →
     pairs_to_vec_sched cpu2 data2 r2 →
     r2 = Ok T)
  ∧ (∀ cnt1 cnt2 T,
       pairs_to_vec cpu1 data1 cnt1 = Ok T →
       pairs_to_vec cpu2 data2 cnt2 = Ok T).
Proof.
  intros pure Hcpu Hp Hnd.
  assert (∀ T r2,
            pairs_to_vec_sched cpu1 data1 (Ok T) →
            pairs_to_vec_sched cpu2 data2 r2 →
            r2 = Ok T) as Hsched.
  { intros T r2 H1 H2.
    pose proof (pairs_to_vec_sched_Ok pure _ _ _ H1) as E1.
    pose proof (expected_table_perm _ _ _ Hp Hnd E1) as E2.
    destruct r2 as [T2|e].
    - apply (pairs_to_vec_sched_Ok pure) in H2. congruence.
    - apply (pairs_to_vec_sched_Raise pure) in H2 as [->|[e' E']];
        [|congruence|exact Hcpu].
      apply Permutation_nil_r in Hp as ->.
      by apply run_in_parallel_sched_empty in H1. }
  split; [exact Hsched|].
  intros cnt1 cnt2 T E1. apply (Hsched T).
  - rewrite <- E1. apply run_in_parallel_is_sched.
  - apply run_in_parallel_is_sched.
Qed.

(** X21. Under the contract of the solver, examples can be vectorised in
    batches: when the identifiers are pairwise distinct and two runs of
    [pairs_to_vec] on two lists have returned their tables, every run on
    the two lists put together returns the concatenation of the two
    tables, sorted by label. *)
Theorem batches_compose cpu1 cpu2 cpu_count data1 data2 T1 T2 :
  solver_pure →
  1 ≤ cpu_count →
  NoDup (example_pair_id <$> (data1 ++ data2)) →
  pairs_to_vec_sched cpu1 data1 (Ok T1) →
  pairs_to_vec_sched cpu2 data2 (Ok T2) →
  ∃ T, pd_concat [T1; T2] = Ok T
       ∧ ∀ r, pairs_to_vec_sched cpu_count (data1 ++ data2) r →
              r = Ok (sort_index T).
Proof.
  intros pure Hcpu Hnd H1 H2.
  pose proof (pairs_to_vec_sched_Ok pure _ _ _ H1) as E1.
  pose proof (pairs_to_vec_sched_Ok pure _ _ _ H2) as E2.
  destruct (expected_table_app _ _ _ _ Hnd E1 E2) as (T & Hcat & E).
  exists T. split; [exact Hcat|]. intros [T'|e] Hr.
  - apply (pairs_to_vec_sched_Ok pure) in Hr. congruence.
  - apply (pairs_to_vec_sched_Raise pure) in Hr as [Hnil|[e' E']];
      [|congruence|exact Hcpu].
    apply app_eq_nil in Hnil as [-> _].
    by apply run_in_parallel_sched_empty in H1.
Qed.

(** X6. [get_unlabeled_data] returns exactly when the loader and
    [pairs_to_vec] return, and then returns what they returned: its
    assertion on the two lengths never fails. *)
Theorem get_unlabeled_data_returns cpu_count files encoding_cnt specs vecs :
  get_unlabeled_data cpu_count files encoding_cnt = Ok (specs, vecs)
  ↔ load_unlabeled_specs files = Ok specs
    ∧ pairs_to_vec cpu_count (ExUnlabeled <$> specs) encoding_cnt = Ok vecs.
Proof.
  unfold get_unlabeled_data.
  destruct (load_unlabeled_specs files) as [specs'|e]; cbn [res_bind].
  2:{ split; [done|]. by intros [? _]. }
  destruct (pairs_to_vec _ _ _) as [vecs'|e] eqn:E; cbn [res_bind].
  2:{ split; [done|]. intros [[= <-] E']. congruence. }
  pose proof (pairs_to_vec_index _ _ _ _ E) as (_ & Hlen & _).
  rewrite length_fmap in Hlen.
  destruct (decide _) as [_|Hne]; [|by rewrite Hlen in Hne].
  split.
  - by intros [= <- <-].
  - intros [[= <-] E']. congruence.
Qed.

(** X7. In what [get_unlabeled_data] returns, every example has its row:
    the labels of the table are the identifiers of the examples, each
    once. The rows stand in the order of the labels as strings, which is
    the order of the list of examples as long as there are at most ten of
    them, and is another order from the eleventh on ([halden-10] sorts
    before [halden-2]): the rows are then to be found by label, not by
    position. *)
Theorem unlabeled_rows_order cpu_count files encoding_cnt specs vecs :
  get_unlabeled_data cpu_count files encoding_cnt = Ok (specs, vecs) →
  NoDup (df_index vecs)
  ∧ df_index vecs ≡ₚ u_pair_id <$> specs
  ∧ (length specs ≤ 10 → df_index vecs = u_pair_id <$> specs)
  ∧ (11 ≤ length specs → df_index vecs ≠ u_pair_id <$> specs).
Proof.
  unfold get_unlabeled_data.
  destruct (load_unlabeled_specs files) as [specs'|e] eqn:Hload; [|done].
  cbn [res_bind].
  destruct (pairs_to_vec _ _ _) as [vecs'|e] eqn:E; [|done]. cbn [res_bind].
  destruct (decide _); [|done]. intros [= <- <-].
  apply load_unlabeled_specs_ids in Hload as [Hids _].
  pose proof (pairs_to_vec_index _ _ _ _ E) as (Hperm & _ & Hsorted).
  rewrite <- list_fmap_compose in Hperm.
  change (example_pair_id ∘ ExUnlabeled) with (u_pair_id (Data := Data) (Json := Json)) in Hperm.
  split.
  { rewrite Hperm, Hids. apply halden_ids_NoDup. }
  split; [exact Hperm|]. split.
  - intros Hlen. apply pairs_to_vec_rows in E as (rows & Hlabels & ->).
    rewrite <- list_fmap_compose in Hlabels.
    change (example_pair_id ∘ ExUnlabeled) with (u_pair_id (Data := Data) (Json := Json)) in Hlabels.
    unfold df_index. cbn [df_rows].
    rewrite merge_sort_rows_sorted; [done| |].
    + rewrite Hlabels, Hids. apply halden_ids_NoDup.
    + rewrite Hlabels, Hids. by apply halden_ids_sorted.
  - intros Hlen Heq. rewrite Heq, Hids in Hsorted.
    by apply halden_ids_unsorted in Hsorted.
Qed.

(** X8. [_get_pos_neg_data] keeps the labels, the columns and every cell
    that holds a value, and leaves no missing value behind: applying it to
    its own result changes nothing. A missing value here is a [NaN] or a
    [None]: in the stored table of a run, the [task] cell of an example
    whose [task] field is [None] reads 0, while any other task is kept. *)
Theorem stored_table_filled :
  (∀ df : DataFrame,
     df_index (_get_pos_neg_data df) = df_index df
     ∧ df_columns (_get_pos_neg_data df) = df_columns df
     ∧ Forall (λ row, Forall (λ c, is_missing c = false) row.2)
         (df_rows (_get_pos_neg_data df))
     ∧ _get_pos_neg_data (_get_pos_neg_data df) = _get_pos_neg_data df)
  ∧ (∀ cpu_count data encoding_cnt T σ e,
       run_in_parallel_store pair_partition_to_vec cpu_count data encoding_cnt
         = (Ok T, σ) →
       e ∈ data →
       ∃ row, row ∈ df_rows (_get_pos_neg_data T)
              ∧ row.1 = example_pair_id e
              ∧ task_cell row.2
                = Some (match task (as_posneg e) with
                        | PyNone => CInt 0
                        | t => CObj t
                        end)).
Proof.
  split.
  { intros df. unfold _get_pos_neg_data. split; [apply fillna_index|].
    split; [done|]. split; [apply fillna_filled|apply fillna_idemp]. }
  intros cpu_count data encoding_cnt T σ e Hrun Hin.
  destruct (run_in_parallel_store_row _ _ _ _ _ _ Hrun Hin)
    as (row & Hrow & ex & tn & tp & kn & kp & vn & vp
        & Hx & _ & _ & _ & _ & _ & _ & ->).
  rewrite resolve_ndarray in Hx. injection Hx as <-.
  exists (pair_id (as_posneg e), fillna_cell <$> feature_row (as_posneg e) vn vp).
  split; [|split].
  - unfold _get_pos_neg_data, fillna. cbn [df_rows].
    apply list_elem_of_fmap.
    by exists (pair_id (as_posneg e), feature_row (as_posneg e) vn vp).
  - apply as_posneg_pair_id.
  - cbn [snd]. unfold task_cell. rewrite list_lookup_fmap.
    pose proof (feature_row_task (as_posneg e) vn vp) as Ht.
    unfold task_cell in Ht. rewrite Ht. cbn.
    by destruct (task (as_posneg e)).
Qed.

(** X22. The row that the worker builds for an example depends on the two
    feature vectors only through the counts of the features that have a
    weight: a count that the solver reports under any other name is
    dropped without notice. *)
Theorem unweighted_counts_dropped example vn vn' vp vp' :
  (∀ f, f ∈ get_feature_names → vn !! f = vn' !! f ∧ vp !! f = vp' !! f) →
  pd_DataFrame (row_specs example vn vp) get_nested_index (pair_id example)
  = pd_DataFrame (row_specs example vn' vp') get_nested_index (pair_id example).
Proof.
  intros Hsame. rewrite !pd_DataFrame_row. do 3 f_equal. unfold feature_row.
  f_equal; [|f_equal]; apply list_fmap_ext; intros i f Hf;
    apply list_elem_of_lookup_2 in Hf; destruct (Hsame f Hf) as [Hn Hp];
    unfold count_cell; by rewrite ?Hn, ?Hp.
Qed.

(** X9. The partitions that [run_in_parallel] hands to the pool are
    balanced: with [N] examples in [P] partitions, the first [N mod P]
    partitions hold [N / P + 1] examples and the others [N / P]. As long
    as the list has at most [200 * cpu_count] examples no partition holds
    more than ten. *)
Theorem partition_sizes cpu_count data tasks :
  df_split data (splits cpu_count (length data)) = Ok tasks →
  let N := length data in
  let P := splits cpu_count N in
  length <$> tasks
  = replicate (N mod P) (N / P + 1) ++ replicate (P - N mod P) (N / P)
  ∧ Forall (λ t, N / P ≤ length t ≤ N / P + 1) tasks
  ∧ (N ≤ 200 * cpu_count → Forall (λ t, length t ≤ 10) tasks).
Proof.
  intros Hsplit N P. unfold df_split in Hsplit. fold N P in Hsplit.
  destruct (array_split _ P) as [parts|] eqn:E; [|done].
  cbn [res_bind] in Hsplit. injection Hsplit as <-.
  pose proof (array_split_inv _ _ _ E) as (HP & _ & _).
  apply array_split_lengths in E. rewrite length_fmap in E. fold N in E.
  assert (length <$> ((λ part : list ndarray, ItNdarray <$> part) <$> parts)
          = length <$> parts) as Hlen.
  { rewrite <- list_fmap_compose. apply list_fmap_ext.
    intros i part _. cbn. apply length_fmap. }
  split; [by rewrite Hlen|]. split.
  - apply (proj1 (Forall_fmap length (λ n, N / P ≤ n ≤ N / P + 1) _)).
    rewrite Hlen, E. apply section_sizes_bounds.
  - intros HN. apply (proj1 (Forall_fmap length (λ n, n ≤ 10) _)).
    rewrite Hlen, E. apply section_sizes_ten; [exact HP|].
    pose proof (ceil_div_10_spec N). unfold P, splits in *. lia.
Qed.

(** X10. When the weights are named [f_weight], each name once, the
    feature names are the names [f], each once and in ascending order,
    and the columns of the table, two for every feature and the two
    columns [source] and [task], are pairwise distinct. *)
Theorem feature_columns :
  (∀ key, key ∈ current_weights_keys → ∃ f, key = f +:+ "_weight") →
  NoDup current_weights_keys →
  Sorted str_le get_feature_names
  ∧ NoDup get_feature_names
  ∧ (∀ f, f ∈ get_feature_names ↔ f +:+ "_weight" ∈ current_weights_keys)
  ∧ length get_nested_index = 2 * length current_weights_keys + 2
  ∧ NoDup get_nested_index.
Proof.
  intros Hnames Hnd.
  assert (∀ f, f ∈ get_feature_names ↔ f +:+ "_weight" ∈ current_weights_keys)
    as Hmem.
  { intros f. rewrite get_feature_names_perm, list_elem_of_fmap. split.
    - intros (key & -> & Hkey). destruct (Hnames key Hkey) as [f' ->].
      by rewrite drop_suffix_weight.
    - intros Hkey. eexists. split; [|exact Hkey].
      by rewrite drop_suffix_weight. }
  assert (NoDup get_feature_names) as Hfeat.
  { rewrite get_feature_names_perm. apply NoDup_fmap_2_strong; [|done].
    intros k1 k2 Hk1 Hk2 E.
    destruct (Hnames k1 Hk1) as [f1 ->]. destruct (Hnames k2 Hk2) as [f2 ->].
    rewrite !drop_suffix_weight in E. by rewrite E. }
  split; [apply get_feature_names_sorted|]. split; [exact Hfeat|].
  split; [exact Hmem|]. split; [apply get_nested_index_length|].
  by apply get_nested_index_NoDup.
Qed.

(** X12. A run of [pairs_to_vec] task after task looks at most two keys up
    per example: on [N] examples the dictionary is missed at most [2 * N]
    times, the solver is called at most [2 * N] times and at most [2 * N]
    vectors are stored, whether the run returns or raises. *)
Theorem solver_calls_bound cpu_count data encoding_cnt r σ :
  run_in_parallel_store pair_partition_to_vec cpu_count data encoding_cnt = (r, σ) →
  cache_misses σ ≤ 2 * length data
  ∧ length (solver_calls σ) ≤ 2 * length data
  ∧ size (processed_specs σ) ≤ 2 * length data.
Proof.
  intros Hrun. apply run_in_parallel_store_cost in Hrun as (Hm & Hc & Hs).
  cbn in Hm, Hc, Hs. rewrite map_size_empty in Hs. lia.
Qed.

(** X13. In the pool, under any schedule, no key ever leaves the shared
    dictionary, and a worker looks up only keys that are in it: the lookup
    at the end of [count_violations_memoized] finds its key even though
    other workers act between the test and the lookup. *)
Theorem shared_lookup_never_misses processes tasks d jobs :
  rtc (pool_step pair_partition_to_vec processes) (∅, Pending <$> tasks) (d, jobs) →
  (∀ i key k, jobs !! i = Some (Running (GetItem key k)) → is_Some (d !! key))
  ∧ (∀ d' jobs',
       pool_step pair_partition_to_vec processes (d, jobs) (d', jobs') →
       dom d ⊆ dom d').
Proof.
  intros Hsteps.
  apply pool_steps_safe in Hsteps as [_ Hall]; cbn [fst snd] in *.
  2:{ apply Forall_fmap, Forall_forall. by intros. }
  split.
  - intros i key k Hi.
    pose proof (proj1 (Forall_lookup _ _) Hall i _ Hi) as (K & HK & Hs).
    inversion Hs as [| | | |? ? ? Hin _|]; subst.
    apply elem_of_dom. by eapply elem_of_weaken.
  - intros d' jobs' Hstep. by apply pool_step_safe in Hstep as [Hd _].
Qed.
End Further.

Section FurtherPaths.
Import PosixPath PosixPathFacts.

(** X14. The key under which [load_spec] stores a file is the name under
    which the directory lists it, and the test for the extension [.json]
    on the joined path is the test on that name. A data set is looked up
    directly in [data_dir]: the path is [data_dir] followed by the last
    component of the URL, whatever directories the URL names. *)
Theorem paths_by_name (file dir name url : string) :
  has_sep name = false →
  basename (join dir name) = name
  ∧ endswith (join dir name) ".json" = endswith name ".json"
  ∧ has_sep (basename url) = false
  ∧ join (data_dir file) (basename url) = data_dir file +:+ basename url
  ∧ basename (join (data_dir file) (basename url)) = basename url.
Proof.
  intros Hn. split; [by apply basename_join|].
  split; [by apply endswith_join|].
  pose proof (basename_has_no_sep url) as Hb. split; [exact Hb|]. split.
  - unfold join at 1. rewrite startswith_sep_nosep by done.
    by rewrite data_dir_endswith_sep, orb_true_r.
  - by apply basename_join.
Qed.
End FurtherPaths.

Section FurtherPartialFull.
Context `{TaskSpec}.
Import PosixPath PosixPathFacts.

(** X15. [load_spec] returns a dictionary whose keys are the names of the
    directory that end in [.json], each with the specification read from
    its file; the other entries of the directory are skipped. *)
Theorem load_spec_keys fs data_dir input_dir fmt names result :
  listdir fs input_dir = Ok names →
  Forall (λ n, has_sep n = false) names →
  NoDup names →
  load_spec fs data_dir input_dir fmt = Ok result →
  ∀ n,
    (n ∈ names ∧ endswith n ".json" = true ↔ is_Some (result !! n))
    ∧ (∀ spec, result !! n = Some spec →
         read_spec fs data_dir fmt (join input_dir n) = Ok spec).
Proof.
  intros Hlist Hsep Hnd. unfold load_spec. rewrite Hlist. cbn [res_bind].
  intros Hloop. apply load_spec_loop_Ok in Hloop as [Hout Hin];
    [|by rewrite basename_join_fmap].
  rewrite basename_join_fmap in Hout by done.
  intros n. destruct (decide (n ∈ names)) as [Hn|Hn].
  2:{ rewrite Hout, lookup_empty by done. split; [|done].
      split; [by intros [? _]|by intros [? ?]]. }
  pose proof (proj1 (Forall_forall _ _) Hsep n Hn) as Hns.
  specialize (Hin (join input_dir n) (list_elem_of_fmap_2 _ _ _ Hn)).
  rewrite endswith_join, basename_join in Hin by done.
  destruct (endswith n ".json").
  - destruct Hin as (spec & Hspec & Hres). rewrite Hres. split.
    + split; [by eexists|done].
    + by intros spec' [= <-].
  - rewrite Hin, lookup_empty. split; [|done].
    split; [by intros [_ ?]|by intros [? ?]].
Qed.

(** X16. Given the two dictionaries that [load_spec] returns for the
    directories [input] and [output], [load_partial_full_data] returns,
    when every name of the first is a name of the second, the dictionary
    that maps each name of the first to the pair of its two specifications
    (names that only [output] has are left out); when some name of the
    first is missing in the second, it raises a [KeyError]. *)
Theorem partial_full_pairs fs path data_dir partial_specs compassql_outs :
  load_spec fs data_dir (join path "input") compassql = Ok partial_specs →
  load_spec fs data_dir (join path "output") vegalite = Ok compassql_outs →
  (dom partial_specs ⊆ dom compassql_outs →
   ∃ result,
     load_partial_full_data fs path data_dir = Ok result
     ∧ dom result = dom partial_specs
     ∧ ∀ k, result !! k
            = p ← partial_specs !! k; o ← compassql_outs !! k; Some (p, o))
  ∧ (¬ dom partial_specs ⊆ dom compassql_outs →
     load_partial_full_data fs path data_dir = Raise KeyError).
Proof.
  intros Hp Ho. unfold load_partial_full_data. rewrite Hp, Ho. cbn [res_bind].
  assert (Forall (λ k, is_Some (partial_specs !! k)) (elements (dom partial_specs)))
    as Hkeys.
  { apply Forall_forall. intros k Hk. by apply elem_of_elements, elem_of_dom in Hk. }
  split.
  - intros Hsub.
    destruct (pair_specs_Ok (elements (dom partial_specs)) partial_specs
                compassql_outs ∅ Hkeys) as (result & Hres & Hlook).
    { apply Forall_forall. intros k Hk. apply elem_of_dom, Hsub.
      by apply elem_of_elements in Hk. }
    assert (∀ k, result !! k
                 = p ← partial_specs !! k; o ← compassql_outs !! k; Some (p, o))
      as Hlook'.
    { intros k. rewrite Hlook. destruct (decide _) as [_|Hk]; [done|].
      rewrite lookup_empty. rewrite elem_of_elements, elem_of_dom in Hk.
      destruct (partial_specs !! k) as [p|] eqn:E; [|done].
      destruct Hk. by eexists. }
    exists result. split; [exact Hres|]. split; [|exact Hlook'].
    apply set_eq. intros k. rewrite !elem_of_dom, Hlook'. split.
    + intros [x Hx]. destruct (partial_specs !! k); [by eexists|done].
    + intros [p Ep]. rewrite Ep. cbn.
      assert (is_Some (compassql_outs !! k)) as [o ->].
      { apply elem_of_dom, Hsub, elem_of_dom. by eexists. }
      by eexists.
  - intros Hsub. apply pair_specs_Raise; [exact Hkeys|].
    intros Hall. apply Hsub. intros k Hk. apply elem_of_dom.
    apply (proj1 (Forall_forall _ _) Hall). by apply elem_of_elements.
Qed.
End FurtherPartialFull.

Section FurtherLabeled.
Context `{Schema}.

(** X17. The examples that [load_neg_pos_specs] returns stand in the order
    of the four files and, within a file, of its rows; the example of the
    row numbered [i] of a file whose source is [src] has the identifier
    [src-i] and the source [src]: the numbering starts again at 0 in every
    file. *)
Theorem labeled_pair_ids man yh ba label raw :
  load_neg_pos_specs man yh ba label = Ok raw →
  ∃ f1 f2 f3 f4,
    man = Ok f1 ∧ yh = Ok f2 ∧ ba = Ok f3 ∧ label = Ok f4
    ∧ pair_id <$> raw
      = file_ids (file_src f1) (length (file_rows f1))
        ++ file_ids (file_src f2) (length (file_rows f2))
        ++ file_ids (file_src f3) (length (file_rows f3))
        ++ file_ids (file_src f4) (length (file_rows f4))
    ∧ source <$> raw
      = replicate (length (file_rows f1)) (PyStr (file_src f1))
        ++ replicate (length (file_rows f2)) (PyStr (file_src f2))
        ++ replicate (length (file_rows f3)) (PyStr (file_src f3))
        ++ replicate (length (file_rows f4)) (PyStr (file_src f4))
    ∧ length raw
      = length (file_rows f1) + length (file_rows f2)
        + length (file_rows f3) + length (file_rows f4).
Proof.
  unfold load_neg_pos_specs.
  intros (files & Hfiles & Hids & Hsrc & Hlen)%load_files_ids.
  destruct files as [|f1 [|f2 [|f3 [|f4 [|]]]]]; try done.
  injection Hfiles as -> -> -> ->. exists f1, f2, f3, f4.
  rewrite !bind_cons in Hids. cbn [mbind list_bind] in Hids.
  rewrite app_nil_r in Hids.
  rewrite !bind_cons in Hsrc. cbn [mbind list_bind] in Hsrc.
  rewrite app_nil_r in Hsrc.
  cbn in Hlen. repeat split; try done. lia.
Qed.

(** X18. The identifiers of the examples that [load_neg_pos_specs] returns
    are pairwise distinct exactly when the files that have rows have
    pairwise distinct sources: two such files with one source both yield
    the identifier [src-0]. *)
Theorem labeled_pair_ids_distinct man yh ba label raw :
  load_neg_pos_specs man yh ba label = Ok raw →
  ∃ files,
    [man; yh; ba; label] = Ok <$> files
    ∧ (NoDup (pair_id <$> raw)
       ↔ NoDup (file_src <$> filter (λ f, file_rows f ≠ []) files)).
Proof.
  unfold load_neg_pos_specs.
  intros (files & Hfiles & Hids & _)%load_files_ids.
  exists files. split; [done|]. rewrite Hids. apply file_ids_NoDup_iff.
Qed.

(** X19. [load_neg_pos_specs] returns exactly when each of the four files
    opens and parses, has the key [data], and every row has the keys
    [fields], [negative] and [positive] and fields and a schema that
    [Field.from_obj] and [Data] accept; the key [source] is needed only in
    a file that has a row, and [task] and [num_rows] are optional. *)
Theorem load_neg_pos_specs_returns man yh ba label :
  is_Ok (load_neg_pos_specs man yh ba label)
  ↔ file_loads man ∧ file_loads yh ∧ file_loads ba ∧ file_loads label.
Proof.
  unfold load_neg_pos_specs. rewrite load_files_is_Ok, !Forall_cons.
  split.
  - by intros (? & ? & ? & ? & _).
  - intros (? & ? & ? & ?). by repeat split.
Qed.

(** X20. The table that the script of the module builds from the labeled
    corpus passes the check of [get_labeled_data] against the examples
    loaded from the same files: one row per example, labelled by the
    identifiers of the examples, in ascending order of the labels. *)
Theorem labeled_table_matches cpu_count man yh ba label encoding_cnt specs T :
  load_neg_pos_specs man yh ba label = Ok specs →
  main cpu_count man yh ba label encoding_cnt = Ok T →
  get_labeled_data specs T = Ok (specs, _get_pos_neg_data T)
  ∧ df_index (_get_pos_neg_data T) ≡ₚ pair_id <$> specs
  ∧ Sorted str_le (df_index (_get_pos_neg_data T)).
Proof.
  intros Hload. unfold main. rewrite Hload. cbn [res_bind]. intros Hvec.
  apply pairs_to_vec_index in Hvec as (Hperm & Hlen & Hsorted).
  rewrite length_fmap in Hlen. rewrite <- list_fmap_compose in Hperm.
  unfold _get_pos_neg_data. rewrite fillna_index.
  split; [|by split].
  unfold get_labeled_data, _get_pos_neg_data. cbv zeta.
  destruct (decide _) as [_|Hne]; [done|].
  exfalso. apply Hne. unfold df_len, fillna. cbn [df_rows].
  rewrite length_fmap. by symmetry.
Qed.
End FurtherLabeled.

(** * The further properties on the small instance *)

(** Witness of X1: the corpus of one group of three specifications. *)
Lemma unlabeled_pair_ids_witness :
  ∃ raw,
    load_unlabeled_specs (H := Toy.draco) Toy.corpus = Ok raw
    ∧ u_pair_id <$> raw = ["halden-0"; "halden-1"; "halden-2"]
    ∧ NoDup (u_pair_id <$> raw)
    ∧ 2 * length raw = 3 * 2.
Proof.
  destruct (load_unlabeled_specs (H := Toy.draco) Toy.corpus) as [raw|e] eqn:E.
  - exists raw. split; [reflexivity|].
    destruct (unlabeled_pair_ids (H := Toy.draco) _ _ E) as (_ & Hnd & _ & Hlen).
    split; [|split; [exact Hnd|]]; vm_compute in E; injection E as <-; reflexivity.
  - exfalso. vm_compute in E. discriminate E.
Defined.

(** Witness of X2: the group of five of the corpus of eleven pairs. *)
Lemma unlabeled_groups_checked_witness :
  let group : list Toy.spec :=
    [("cars.json", ["x"]); ("cars.json", ["y"]); ("cars.json", ["x"; "y"]);
     ("cars.json", ["y"; "x"]); ("cars.json", ["x"; "x"])] in
  is_Ok (load_unlabeled_specs (H := Toy.draco) ToyFiles.corpus11)
  ∧ NoDup group
  ∧ ∃ url d0, Forall (λ spec, Json_data_url (Draco := Toy.draco) spec = Ok url) group
              ∧ Data_from_json (Draco := Toy.draco) (data_path (Draco := Toy.draco) url) = Ok d0.
Proof.
  intros group.
  destruct (load_unlabeled_specs (H := Toy.draco) ToyFiles.corpus11)
    as [raw|e] eqn:E.
  - split; [by eexists|].
    destruct (unlabeled_groups_checked (H := Toy.draco) _ _ E group) as [Hnd Hurl].
    { apply elem_of_cons. by left. }
    split; [exact Hnd|]. apply Hurl. cbn. lia.
  - exfalso. vm_compute in E. discriminate E.
Defined.

(** Witness of X3: every example of the corpus carries the data set of
    [cars.json]. *)
Lemma unlabeled_data_sets_witness :
  ∃ raw,
    load_unlabeled_specs (H := Toy.draco) Toy.corpus = Ok raw
    ∧ Forall (λ u, u_task u = PyData 14) raw
    ∧ Forall (λ u, ∃ l url d0,
                left u = PyJson l
                ∧ Json_data_url (Draco := Toy.draco) l = Ok url
                ∧ Data_from_json (Draco := Toy.draco) (data_path (Draco := Toy.draco) url) = Ok d0
                ∧ u_task u = PyData (Data_set_url (Draco := Toy.draco) d0 url)) raw.
Proof.
  destruct (load_unlabeled_specs (H := Toy.draco) Toy.corpus) as [raw|e] eqn:E.
  - exists raw. split; [reflexivity|].
    destruct (unlabeled_data_sets (H := Toy.draco) _ _ E) as [Hall _].
    split; [|exact Hall]. vm_compute in E. injection E as <-.
    repeat constructor.
  - exfalso. vm_compute in E. discriminate E.
Defined.

(** Witness of X5: the two labeled examples, in their order on one
    processor and in the reverse order on two. *)
Lemma input_order_irrelevant_witness :
  ∃ T,
    pairs_to_vec (H := Toy.draco) 1 Toy.two_examples 0 = Ok T
    ∧ pairs_to_vec (H := Toy.draco) 2 (reverse Toy.two_examples) 7 = Ok T.
Proof.
  destruct (pairs_to_vec (H := Toy.draco) 1 Toy.two_examples 0) as [T|e] eqn:E.
  - exists T. split; [reflexivity|].
    refine (proj2 (input_order_irrelevant (H := Toy.draco) 1 2 Toy.two_examples
                     (reverse Toy.two_examples) toy_solver_pure _ _ _) 0 7 T E).
    + lia.
    + symmetry. apply reverse_Permutation.
    + apply (bool_decide_unpack _); vm_compute; exact I.
  - exfalso. vm_compute in E. discriminate E.
Defined.

(** Witness of X7: eleven unlabeled examples; the third row of the table
    is that of the eleventh example. *)
Lemma unlabeled_rows_order_witness :
  ∃ specs vecs,
    get_unlabeled_data (H := Toy.draco) 2 ToyFiles.corpus11 0 = Ok (specs, vecs)
    ∧ length specs = 11
    ∧ df_index vecs !! 2 = Some "halden-10"
    ∧ u_pair_id <$> specs !! 2 = Some "halden-2"
    ∧ df_index vecs ≠ u_pair_id <$> specs
    ∧ NoDup (df_index vecs).
Proof.
  destruct (get_unlabeled_data (H := Toy.draco) 2 ToyFiles.corpus11 0)
    as [[specs vecs]|e] eqn:E.
  - exists specs, vecs. split; [reflexivity|].
    destruct (unlabeled_rows_order (H := Toy.draco) _ _ _ _ _ E)
      as (Hnd & _ & _ & Hne).
    assert (length specs = 11) as Hlen
      by (vm_compute in E; injection E as <- _; reflexivity).
    split; [exact Hlen|].
    split; [vm_compute in E; injection E as _ <-; reflexivity|].
    split; [vm_compute in E; injection E as <- _; reflexivity|].
    split; [apply Hne; lia|exact Hnd].
  - exfalso. vm_compute in E. discriminate E.
Defined.

(** Witness of X17: the four files; the third has neither rows nor source. *)
Lemma labeled_pair_ids_witness :
  ∃ raw,
    load_neg_pos_specs (H0 := ToyFiles.schema) (Ok ToyFiles.manual)
      (Ok ToyFiles.younghoon) (Ok ToyFiles.bahador) (Ok ToyFiles.labeler) = Ok raw
    ∧ pair_id <$> raw = ["manual-0"; "manual-1"; "younghoon-0"; "labeler-0"]
    ∧ length raw = 2 + 1 + 0 + 1.
Proof.
  destruct (load_neg_pos_specs (H0 := ToyFiles.schema) (Ok ToyFiles.manual)
              (Ok ToyFiles.younghoon) (Ok ToyFiles.bahador) (Ok ToyFiles.labeler))
    as [raw|e] eqn:E.
  - exists raw. split; [reflexivity|].
    destruct (labeled_pair_ids (H0 := ToyFiles.schema) _ _ _ _ _ E)
      as (f1 & f2 & f3 & f4 & [= <-] & [= <-] & [= <-] & [= <-] & Hids & _ & Hlen).
    split; [exact Hids|exact Hlen].
  - exfalso. vm_compute in E. discriminate E.
Defined.

(** Witness of X18: a fourth file with the source of the first; the
    identifier [manual-0] is given twice. *)
Lemma labeled_pair_ids_distinct_witness :
  ∃ raw,
    load_neg_pos_specs (H0 := ToyFiles.schema) (Ok ToyFiles.manual)
      (Ok ToyFiles.younghoon) (Ok ToyFiles.bahador) (Ok ToyFiles.manual_again)
      = Ok raw
    ∧ ¬ NoDup (pair_id <$> raw).
Proof.
  destruct (load_neg_pos_specs (H0 := ToyFiles.schema) (Ok ToyFiles.manual)
              (Ok ToyFiles.younghoon) (Ok ToyFiles.bahador)
              (Ok ToyFiles.manual_again)) as [raw|e] eqn:E.
  - exists raw. split; [reflexivity|].
    destruct (labeled_pair_ids_distinct (H0 := ToyFiles.schema) _ _ _ _ _ E)
      as (files & Hfiles & Hiff).
    destruct files as [|f1 [|f2 [|f3 [|f4 [|]]]]]; try done.
    injection Hfiles as <- <- <- <-.
    intros Hnd. apply Hiff in Hnd. vm_compute in Hnd.
    apply NoDup_cons in Hnd as [Hnd _]. apply Hnd.
    apply elem_of_cons. right. apply elem_of_cons. by left.
  - exfalso. vm_compute in E. discriminate E.
Defined.

(** Witness of X20: the table of the four files and their examples. *)
Lemma labeled_table_matches_witness :
  ∃ specs T,
    load_neg_pos_specs (H0 := ToyFiles.schema) (Ok ToyFiles.manual)
      (Ok ToyFiles.younghoon) (Ok ToyFiles.bahador) (Ok ToyFiles.labeler)
      = Ok specs
    ∧ main (H0 := ToyFiles.schema) 2 (Ok ToyFiles.manual) (Ok ToyFiles.younghoon)
        (Ok ToyFiles.bahador) (Ok ToyFiles.labeler) 0 = Ok T
    ∧ get_labeled_data (H := Toy.draco) specs T = Ok (specs, _get_pos_neg_data T)
    ∧ df_index T = ["labeler-0"; "manual-0"; "manual-1"; "younghoon-0"].
Proof.
  destruct (load_neg_pos_specs (H0 := ToyFiles.schema) (Ok ToyFiles.manual)
              (Ok ToyFiles.younghoon) (Ok ToyFiles.bahador) (Ok ToyFiles.labeler))
    as [specs|e] eqn:E1; [|exfalso; vm_compute in E1; discriminate E1].
  destruct (main (H0 := ToyFiles.schema) 2 (Ok ToyFiles.manual)
              (Ok ToyFiles.younghoon) (Ok ToyFiles.bahador) (Ok ToyFiles.labeler) 0)
    as [T|e] eqn:E2; [|exfalso; vm_compute in E2; discriminate E2].
  exists specs, T. split; [reflexivity|]. split; [reflexivity|].
  destruct (labeled_table_matches (H0 := ToyFiles.schema) _ _ _ _ _ _ _ _ E1 E2)
    as (Hget & _ & _).
  split; [exact Hget|]. vm_compute in E2. injection E2 as <-. reflexivity.
Defined.

(** Witness of X9: 201 examples on two processors make 21 partitions,
    twelve of ten examples and nine of nine. *)
Lemma partition_sizes_witness :
  ∃ tasks,
    df_split (H := Toy.draco) Toy.many_examples
      (Partitioner.splits 2 (length Toy.many_examples)) = Ok tasks
    ∧ length <$> tasks = replicate 12 10 ++ replicate 9 9
    ∧ Forall (λ t, length t ≤ 10) tasks.
Proof.
  destruct (df_split_Ok (H := Toy.draco) Toy.many_examples
              (Partitioner.splits 2 (length Toy.many_examples)))
    as [tasks E]; [vm_compute; lia|].
  exists tasks. split; [exact E|].
  destruct (partition_sizes (H := Toy.draco) 2 Toy.many_examples tasks E)
    as (Hlen & _ & Hten).
  split; [exact Hlen|]. apply Hten. vm_compute. lia.
Defined.

(** Witness of X10: the weights [b_weight] and [a_weight]. *)
Lemma feature_columns_witness :
  get_feature_names (H := Toy.draco) = ["a"; "b"]
  ∧ NoDup (get_nested_index (H := Toy.draco))
  ∧ length (get_nested_index (H := Toy.draco)) = 6.
Proof.
  split; [reflexivity|].
  destruct (feature_columns (H := Toy.draco)) as (_ & _ & _ & Hlen & Hnd).
  - intros key [->|[->|Hk%elem_of_nil]%elem_of_cons]%elem_of_cons; [| |done].
    + by exists "b".
    + by exists "a".
  - apply (bool_decide_unpack _); vm_compute; exact I.
  - split; [exact Hnd|exact Hlen].
Defined.

(** Witness of X12: the two labeled examples, four lookups, three calls. *)
Lemma solver_calls_bound_witness :
  ∃ r σ,
    run_in_parallel_store (H := Toy.draco) pair_partition_to_vec 1
      Toy.two_examples 0 = (r, σ)
    ∧ length (solver_calls σ) = 3
    ∧ length (solver_calls σ) ≤ 2 * length Toy.two_examples.
Proof.
  destruct (run_in_parallel_store (H := Toy.draco) pair_partition_to_vec 1
              Toy.two_examples 0) as [r σ] eqn:E.
  exists r, σ. split; [reflexivity|]. split.
  - vm_compute in E. injection E as _ <-. reflexivity.
  - by destruct (solver_calls_bound (H := Toy.draco) _ _ _ _ _ E) as (_ & Hc & _).
Defined.

(** Witness of X13: a worker, four steps into its task, about to look up
    the key it has stored. *)
Lemma shared_lookup_never_misses_witness :
  let tasks : list (list (Model.item nat Toy.spec)) :=
    [[ItNdarray (to_ndarray (Toy.posneg "m-0" "summary" ["x"] ["y"]))]] in
  ∃ d jobs key k,
    rtc (pool_step (H := Toy.draco) pair_partition_to_vec 1)
      (∅, Pending <$> tasks) (d, jobs)
    ∧ jobs !! 0 = Some (@Running Toy.draco (GetItem key k))
    ∧ is_Some (d !! key).
Proof.
  intros tasks.
  assert (∃ d jobs key k,
    rtc (pool_step (H := Toy.draco) pair_partition_to_vec 1)
      (∅, Pending <$> tasks) (d, jobs)
    ∧ jobs !! 0 = Some (@Running Toy.draco (GetItem key k))) as (d & jobs & key & k & Hrun & Hjob).
  { eexists _, _, _, _. split.
    - eapply rtc_l.
      { eapply step_start with (i := 0) (encoding_cnt := 0); [reflexivity|exact (le_n 1)]. }
      eapply rtc_l.
      { eapply step_contains with (i := 0). reflexivity. }
      eapply rtc_l.
      { eapply step_count with (i := 0); reflexivity. }
      eapply rtc_l.
      { eapply step_setitem with (i := 0). reflexivity. }
      apply rtc_refl.
    - reflexivity. }
  exists d, jobs, key, k. split; [exact Hrun|]. split; [exact Hjob|].
  exact (proj1 (shared_lookup_never_misses (H := Toy.draco) 1 tasks d jobs Hrun)
           0 key k Hjob).
Defined.

(** Witness of X14: a file of a directory and a URL with directories. *)
Lemma paths_by_name_witness :
  PosixPath.basename (PosixPath.join "cql/input" "a.json") = "a.json"
  ∧ PosixPath.join (data_dir "/repo/draco/learn/data_util.py")
      (PosixPath.basename "http://host/sets/cars.json")
    = "/repo/draco/learn/../../data/cars.json".
Proof.
  destruct (paths_by_name "/repo/draco/learn/data_util.py" "cql/input" "a.json"
              "http://host/sets/cars.json" eq_refl) as (Hb & _ & _ & Hj & _).
  split; [exact Hb|]. rewrite Hj. reflexivity.
Defined.

(** Witness of X15: a directory with two specifications and a text file. *)
Lemma load_spec_keys_witness :
  let result :=
    match load_spec (H0 := ToyFiles.task_spec) ToyFiles.fs "data/" "cql/input"
            compassql with
    | Ok result => result
    | Raise _ => ∅
    end in
  load_spec (H0 := ToyFiles.task_spec) ToyFiles.fs "data/" "cql/input" compassql
    = Ok result
  ∧ is_Some (result !! "a.json") ∧ is_Some (result !! "b.json")
  ∧ result !! "notes.txt" = None.
Proof.
  intros result.
  assert (load_spec (H0 := ToyFiles.task_spec) ToyFiles.fs "data/" "cql/input"
            compassql = Ok result) as E by (vm_compute; reflexivity).
  split; [exact E|].
  assert (∀ n, (n ∈ ["a.json"; "notes.txt"; "b.json"]
                ∧ PosixPath.endswith n ".json" = true ↔ is_Some (result !! n)))
    as Hkeys.
  { intros n.
    refine (proj1 (load_spec_keys (H0 := ToyFiles.task_spec) ToyFiles.fs "data/"
                     "cql/input" compassql ["a.json"; "notes.txt"; "b.json"]
                     result eq_refl _ _ E n)).
    - repeat constructor.
    - apply (bool_decide_unpack _); vm_compute; exact I. }
  split; [|split].
  - apply Hkeys. split; [|reflexivity]. apply elem_of_cons. by left.
  - apply Hkeys. split; [|reflexivity]. do 2 (apply elem_of_cons; right).
    apply elem_of_cons. by left.
  - apply eq_None_not_Some. intros [_ Hext]%Hkeys. discriminate Hext.
Defined.

(** Witness of X16: the names [a.json] and [b.json] of [input] are names
    of [output], which also has [c.json]; and a directory [input] with a
    name that [output] lacks. *)
Lemma partial_full_pairs_witness :
  (∃ result,
     load_partial_full_data (H0 := ToyFiles.task_spec) ToyFiles.fs "cql" "data/"
       = Ok result
     ∧ is_Some (result !! "a.json") ∧ result !! "c.json" = None)
  ∧ load_partial_full_data (H0 := ToyFiles.task_spec) ToyFiles.fs_missing "cql"
      "data/" = Raise KeyError.
Proof.
  pose (loaded := λ fs dir fmt,
          match load_spec (H0 := ToyFiles.task_spec) fs "data/"
                  (PosixPath.join "cql" dir) fmt with
          | Ok result => result
          | Raise _ => ∅
          end).
  assert (∀ fs dir fmt,
            (fs, dir, fmt) ∈ [(ToyFiles.fs, "input", compassql);
                              (ToyFiles.fs, "output", vegalite);
                              (ToyFiles.fs_missing, "input", compassql);
                              (ToyFiles.fs_missing, "output", vegalite)] →
            load_spec (H0 := ToyFiles.task_spec) fs "data/"
              (PosixPath.join "cql" dir) fmt = Ok (loaded fs dir fmt)) as Hload.
  { intros fs dir fmt Hin.
    repeat (apply elem_of_cons in Hin as [[= -> -> ->]|Hin];
            [vm_compute; reflexivity|]).
    by apply elem_of_nil in Hin. }
  split.
  - destruct (proj1 (partial_full_pairs (H0 := ToyFiles.task_spec) ToyFiles.fs
                       "cql" "data/" _ _
                       (Hload _ _ compassql (list_elem_of_here _ _))
                       (Hload _ _ vegalite
                          (list_elem_of_further _ _ _ (list_elem_of_here _ _)))))
      as (result & Hres & _ & Hlook).
    { apply (bool_decide_unpack _); vm_compute; exact I. }
    exists result. split; [exact Hres|]. rewrite !Hlook. split.
    + apply (bool_decide_unpack _); vm_compute; exact I.
    + vm_compute. reflexivity.
  - apply (proj2 (partial_full_pairs (H0 := ToyFiles.task_spec) ToyFiles.fs_missing
                    "cql" "data/" _ _
                    (Hload _ _ compassql
                       (list_elem_of_further _ _ _
                          (list_elem_of_further _ _ _ (list_elem_of_here _ _))))
                    (Hload _ _ vegalite
                       (list_elem_of_further _ _ _
                          (list_elem_of_further _ _ _
                             (list_elem_of_further _ _ _ (list_elem_of_here _ _))))))).
    apply (bool_decide_unpack _); vm_compute; exact I.
Defined.

(** Witness of X4: a group that holds a specification twice. *)
Lemma repeated_specification_error_witness :
  load_unlabeled_specs (H := Toy.draco) ToyFiles.corpus_twice
    = Raise (OtherError "NameError")
  ∧ is_Ok (load_unlabeled_specs (H := Toy.draco) Toy.corpus).
Proof.
  assert (∀ files,
            files = ToyFiles.corpus_twice ∨ files = Toy.corpus →
            Forall (group_reads (H := Toy.draco)) (all_groups (H := Toy.draco) files))
    as Hreads.
  { intros files [-> | ->]; (constructor; [|constructor]);
      exists "cars.json", 14; (split; [|reflexivity]); repeat constructor. }
  split.
  - apply (proj2 (repeated_specification_error (H := Toy.draco) _
                    (Hreads _ (or_introl eq_refl)))).
    intros [Hnd _]%Forall_cons.
    apply NoDup_cons in Hnd as [Hnd _]. apply Hnd.
    apply elem_of_cons. right. apply elem_of_cons. by left.
  - apply (proj1 (repeated_specification_error (H := Toy.draco) _
                    (Hreads _ (or_intror eq_refl)))).
    constructor; [|constructor]. apply (bool_decide_unpack _); vm_compute; exact I.
Defined.

(** Witness of X21: the two labeled examples, one batch each. *)
Lemma batches_compose_witness :
  let batch1 := [Toy.posneg "m-1" "summary" ["x"] ["x"; "y"]] in
  let batch2 := [Toy.posneg "m-0" "summary" ["x"] ["y"]] in
  let table := λ cpu_count data,
    match pairs_to_vec (H := Toy.draco) cpu_count data 0 with
    | Ok T => T
    | Raise _ => mkDataFrame [] []
    end in
  ∃ T, pd_concat [table 1 batch1; table 2 batch2] = Ok T
       ∧ pairs_to_vec (H := Toy.draco) 1 (batch1 ++ batch2) 3 = Ok (sort_index T)
       ∧ df_index (sort_index T) = ["m-0"; "m-1"].
Proof.
  intros batch1 batch2 table.
  assert (∀ cpu_count data,
            (cpu_count, data) ∈ [(1, batch1); (2, batch2)] →
            pairs_to_vec_sched (H := Toy.draco) cpu_count data
              (Ok (table cpu_count data))) as Hrun.
  { intros cpu_count data Hin.
    assert (pairs_to_vec (H := Toy.draco) cpu_count data 0
            = Ok (table cpu_count data)) as <-.
    { repeat (apply elem_of_cons in Hin as [[= -> ->]|Hin];
              [vm_compute; reflexivity|]).
      by apply elem_of_nil in Hin. }
    apply run_in_parallel_is_sched. }
  destruct (batches_compose (H := Toy.draco) 1 2 1 batch1 batch2
              (table 1 batch1) (table 2 batch2) toy_solver_pure (le_n 1))
    as (T & Hcat & Hall).
  - apply (bool_decide_unpack _); vm_compute; exact I.
  - apply Hrun, list_elem_of_here.
  - apply Hrun, list_elem_of_further, list_elem_of_here.
  - exists T. split; [exact Hcat|]. split.
    + apply Hall, run_in_parallel_is_sched.
    + vm_compute in Hcat. injection Hcat as <-. reflexivity.
Defined.

(** Witness of X22: a count under the name [zzz], which is no feature. *)
Lemma unweighted_counts_dropped_witness :
  let example :=
    mkPosNeg (Data := nat) (Json := Toy.spec) "m-0" (PyData 7) (PyStr "summary")
      (PyStr "manual") (PyJson ("cars.json", ["x"])) (PyJson ("cars.json", ["y"])) in
  pd_DataFrame (row_specs (H := Toy.draco) example {[ "a" := 1%Z ]} {[ "a" := 2%Z ]})
    (get_nested_index (H := Toy.draco)) "m-0"
  = pd_DataFrame
      (row_specs (H := Toy.draco) example
         {[ "a" := 1%Z; "zzz" := 5%Z ]} {[ "a" := 2%Z ]})
      (get_nested_index (H := Toy.draco)) "m-0".
Proof.
  intros example.
  apply (unweighted_counts_dropped (H := Toy.draco) example).
  intros f [->|[->|Hf%elem_of_nil]%elem_of_cons]%elem_of_cons; [..|done];
    split; reflexivity.
Defined.
